(** * comp_geom_2D: a shallow embedding of [comp_geom_2D.cxx]

    The library is a class template over the coordinate type [T].  This
    development instantiates [T] with [int]: a 32-bit two's-complement
    integer, carried in [Z], every [T]-typed operation reduced with
    [IntT.wrap] (the result the usual targets produce when a signed
    operation leaves the range).

    [long double] is the x87 80-bit format, whose significand has 64 bits:
    every integer of magnitude at most [2^64] is a [long double], and a
    product of two [int] values, or a sum or difference of two such
    products, is computed without rounding.  The [long double] values the
    library computes before it takes a square root are integers and are
    carried in [Z]: written with the plain operations of [Z] where they
    stay below [2^64] for every input of type [int], and with the rounding
    operations of [LD] where they need not (the running sum of
    [polygonArea]).  [std::sqrt] is taken as the real square root, and its
    result and the area are real numbers ([R]). *)

From Stdlib Require Import ZArith List Lia Bool QArith Qabs Reals Lra.
From Stdlib Require Import Permutation Sorted.
From Equations Require Import Equations.
Import ListNotations.

Open Scope Z_scope.

(** ** The coordinate type [T = int] *)

Module IntT.

Definition minT : Z := - 2 ^ 31.
(** [std::numeric_limits<int>::max()] *)
Definition maxT : Z := 2 ^ 31 - 1.

Definition inT (z : Z) : Prop := minT <= z <= maxT.

(** Reduction of an exact result into the range of [int]. *)
Definition wrap (z : Z) : Z := (z + 2 ^ 31) mod 2 ^ 32 - 2 ^ 31.

(** [a - b] and [a * b] on operands of type [int]. *)
Definition sub (a b : Z) : Z := wrap (a - b).
Definition mul (a b : Z) : Z := wrap (a * b).

End IntT.

(** ** [long double] *)

(** Round to nearest, ties to even, at 64 significant bits: what an
    operation of the format returns for the exact integer result [z].
    (The exponent range is out of reach of the integers computed here.) *)
Module LD.

Definition round (z : Z) : Z :=
  let a := Z.abs z in
  if a <=? 2 ^ 64 then z
  else
    let e := Z.log2 a - 63 in
    let q := a / 2 ^ e in
    let r := a mod 2 ^ e in
    let q' :=
      if 2 * r <? 2 ^ e then q
      else if 2 ^ e <? 2 * r then q + 1
      else if Z.even q then q else q + 1 in
    Z.sgn z * (q' * 2 ^ e).

Definition add (a b : Z) : Z := round (a + b).
Definition sub (a b : Z) : Z := round (a - b).
Definition mul (a b : Z) : Z := round (a * b).

End LD.

(** [std::numeric_limits<long double>::max()], an integer. *)
Definition LDBL_MAX : Z := 2 ^ 16384 - 2 ^ 16320.

(** [EPS = 1e-9]. *)
Definition EPS : Q := 1 # 1000000000.

(** [std::abs(val) < EPS] for a [long double] that holds the integer [val]. *)
Definition abs_lt_EPS (val : Z) : bool :=
  negb (Qle_bool EPS (Qabs (inject_Z val))).

(** ** Points *)

Record Point : Type := mkPoint { x : Z; y : Z }.

(** [Point::operator<]: lexicographic, [x] first. *)
Definition Point_lt (a b : Point) : bool :=
  if negb (a.(x) =? b.(x)) then a.(x) <? b.(x) else a.(y) <? b.(y).

(** [Point::operator==] for an integral [T]. *)
Definition Point_eqb (a b : Point) : bool :=
  (a.(x) =? b.(x)) && (a.(y) =? b.(y)).

(** ** Predicates *)

(** [orientation]: 0 collinear, 1 clockwise, 2 counter-clockwise.  The two
    differences of each product are formed in [T] before the conversion to
    [long double]. *)
Definition orientation_val (p q r : Point) : Z :=
  IntT.sub q.(y) p.(y) * IntT.sub r.(x) q.(x)
  - IntT.sub q.(x) p.(x) * IntT.sub r.(y) q.(y).

Definition orientation (p q r : Point) : Z :=
  let val := orientation_val p q r in
  if abs_lt_EPS val then 0
  else if 0 <? val then 1 else 2.

Definition onSegment (p q r : Point) : bool :=
  (q.(x) <=? Z.max p.(x) r.(x)) && (Z.min p.(x) r.(x) <=? q.(x))
  && (q.(y) <=? Z.max p.(y) r.(y)) && (Z.min p.(y) r.(y) <=? q.(y)).

Definition doIntersect (p1 q1 p2 q2 : Point) : bool :=
  let o1 := orientation p1 q1 p2 in
  let o2 := orientation p1 q1 q2 in
  let o3 := orientation p2 q2 p1 in
  let o4 := orientation p2 q2 q1 in
  if negb (o1 =? 0) && negb (o2 =? 0) && negb (o3 =? 0) && negb (o4 =? 0)
     && negb (o1 =? o2) && negb (o3 =? o4)
  then true
  else if (o1 =? 0) && onSegment p1 p2 q1 then true
  else if (o2 =? 0) && onSegment p1 q2 q1 then true
  else if (o3 =? 0) && onSegment p2 p1 q2 then true
  else if (o4 =? 0) && onSegment p2 q1 q2 then true
  else false.

(** ** [std::sort] *)

(** [std::sort] with a strict comparison [lt]: the result is a permutation
    of the input in which no element is [lt] an earlier one.  The order of
    elements that compare equivalent is not specified, and [std_sort] is
    one sorting function.  Under [Point::operator<] only equal points
    compare equivalent, so the sequence is the same whatever the order;
    under [sortByY] it is not, and what [closestPairUtil] computes is
    proved for every permutation sorted by [y]. *)
Section Sort.
Variable A : Type.
Variable lt : A -> A -> bool.

Fixpoint insert_sorted (a : A) (l : list A) : list A :=
  match l with
  | [] => [a]
  | b :: l' => if lt a b then a :: l else b :: insert_sorted a l'
  end.

Fixpoint std_sort (l : list A) : list A :=
  match l with
  | [] => []
  | a :: l' => insert_sorted a (std_sort l')
  end.
End Sort.
Arguments insert_sorted {A} lt a l.
Arguments std_sort {A} lt l.

(** ** Convex hull *)

(** The vector [hull] is kept with its back at the head of the list:
    [b :: a :: _] is a hull whose [back()] is [b] and whose element at
    [size() - 2] is [a]. *)

(** The inner [while] of both scans, with [lim] the bound on [hull.size()]
    ([2] in the first scan, [t] in the second; [2 <= lim] in both). *)
Fixpoint popWhile (lim : nat) (hull : list Point) (p : Point) : list Point :=
  match hull with
  | b :: ((a :: _) as rest) =>
      if (lim <=? length hull)%nat && negb (orientation a b p =? 2)
      then popWhile lim rest p
      else hull
  | _ => hull
  end.

(** One iteration of a scan: pop, then [push_back]. *)
Definition scanStep (lim : nat) (hull : list Point) (p : Point) : list Point :=
  p :: popWhile lim hull p.

(** [convexHull] takes [points] by reference: the result is the returned
    vector together with the contents of the caller's vector afterwards. *)
Definition convexHull_run (points : list Point) : list Point * list Point :=
  let n := length points in
  if (n <=? 2)%nat then (points, points)
  else
    let points := std_sort Point_lt points in
    let hull := fold_left (scanStep 2) points [] in
    let t := S (length hull) in
    let hull := fold_left (scanStep t) (tl (rev points)) hull in
    (rev (tl hull), points).

Definition convexHull (points : list Point) : list Point :=
  fst (convexHull_run points).

(** ** Point in polygon *)

(** [polygon[i]]; every index the code uses is below [polygon.size()]. *)
Definition at_ (polygon : list Point) (i : nat) : Point :=
  nth i polygon (mkPoint 0 0).

(** The [do ... while (i != 0)] loop: [i] takes the values [0 .. n-1] in
    turn ([idxs] lists the values still to come), unless an iteration returns. *)
Fixpoint isInside_loop (polygon : list Point) (n : nat) (p extreme : Point)
    (idxs : list nat) (count : Z) : bool :=
  match idxs with
  | [] => Z.rem count 2 =? 1
  | i :: idxs' =>
      let next := ((i + 1) mod n)%nat in
      if doIntersect (at_ polygon i) (at_ polygon next) p extreme then
        if orientation (at_ polygon i) p (at_ polygon next) =? 0
        then onSegment (at_ polygon i) p (at_ polygon next)
        else isInside_loop polygon n p extreme idxs' (count + 1)
      else isInside_loop polygon n p extreme idxs' count
  end.

Definition isInside (polygon : list Point) (p : Point) : bool :=
  let n := length polygon in
  if (n <? 3)%nat then false
  else
    let inf := IntT.maxT in
    let extreme := mkPoint inf p.(y) in
    isInside_loop polygon n p extreme (seq 0 n) 0.

(** ** Polygon area *)

(** One iteration of the [for] loop on the accumulator [area]: a product
    is added, a product is subtracted, each operation in [long double]. *)
Definition shoelace_step (polygon : list Point) (n : nat) (area : Z) (i : nat) : Z :=
  let area :=
    LD.add area (LD.mul (at_ polygon i).(x) (at_ polygon ((i + 1) mod n)).(y)) in
  LD.sub area (LD.mul (at_ polygon ((i + 1) mod n)).(x) (at_ polygon i).(y)).

(** The accumulator after the loop (the shoelace sum as computed). *)
Definition shoelace (polygon : list Point) : Z :=
  let n := length polygon in
  fold_left (shoelace_step polygon n) (seq 0 n) 0.

(** [std::abs] and the division by [2.0] do not round. *)
Definition polygonArea (polygon : list Point) : R :=
  let n := length polygon in
  if (n <? 3)%nat then 0%R
  else (Rabs (IZR (shoelace polygon)) / 2)%R.

(** ** Closest pair *)

Definition distSq (p1 p2 : Point) : Z :=
  IntT.sub p1.(x) p2.(x) * IntT.sub p1.(x) p2.(x)
  + IntT.sub p1.(y) p2.(y) * IntT.sub p1.(y) p2.(y).

Definition sortByY (a b : Point) : bool := a.(y) <? b.(y).

(** The inner loop of [stripClosest] for a fixed [i]: [pi] is [strip[i]],
    [rest] the elements after it.  The bound of the loop is computed in [T]. *)
Fixpoint stripInner (pi : Point) (rest : list Point) (min_d : Z) : Z :=
  match rest with
  | [] => min_d
  | pj :: rest' =>
      let dy := IntT.sub pj.(y) pi.(y) in
      if IntT.mul dy dy <? min_d then
        let new_dist := distSq pi pj in
        stripInner pi rest' (if new_dist <? min_d then new_dist else min_d)
      else min_d
  end.

Fixpoint stripClosest (strip : list Point) (d : Z) : Z :=
  match strip with
  | [] => d
  | pi :: rest => stripClosest rest (stripInner pi rest d)
  end.

(** The base case of [closestPairUtil]: all pairs [i < j]. *)
Fixpoint bruteInner (pi : Point) (rest : list Point) (min_d : Z) : Z :=
  match rest with
  | [] => min_d
  | pj :: rest' => bruteInner pi rest' (Z.min min_d (distSq pi pj))
  end.

Fixpoint bruteForce (pts : list Point) (min_d : Z) : Z :=
  match pts with
  | [] => min_d
  | pi :: rest => bruteForce rest (bruteInner pi rest min_d)
  end.

Definition inLeft (midPoint p : Point) : bool :=
  (p.(x) <? midPoint.(x)) || ((p.(x) =? midPoint.(x)) && (p.(y) <? midPoint.(y))).

Definition inStrip (midPoint : Point) (d : Z) (p : Point) : bool :=
  Z.abs (p.(x) - midPoint.(x)) * Z.abs (p.(x) - midPoint.(x)) <? d.

Equations? closestPairUtil (pointsX pointsY : list Point) : Z
  by wf (length pointsX) lt :=
  closestPairUtil pointsX pointsY with le_lt_dec (length pointsX) 3 => {
    | left _ => bruteForce pointsX LDBL_MAX
    | right Hn =>
        let mid := (length pointsX / 2)%nat in
        let midPoint := at_ pointsX mid in
        let yL := filter (inLeft midPoint) pointsY in
        let yR := filter (fun p => negb (inLeft midPoint p)) pointsY in
        let xL := firstn mid pointsX in
        let xR := skipn mid pointsX in
        let dL := closestPairUtil xL yL in
        let dR := closestPairUtil xR yR in
        let d := Z.min dL dR in
        let strip := filter (inStrip midPoint d) pointsY in
        Z.min d (stripClosest strip d) }.
Proof.
  - subst xL mid. rewrite length_firstn.
    change (fst (Nat.divmod (length pointsX) 1 0 1)) with (length pointsX / 2)%nat.
    pose proof (Nat.div_lt (length pointsX) 2). lia.
  - subst xR mid. rewrite length_skipn.
    change (fst (Nat.divmod (length pointsX) 1 0 1)) with (length pointsX / 2)%nat.
    pose proof (Nat.div_str_pos (length pointsX) 2). lia.
Qed.

(** [closestPair] takes [points] by reference (not [const]): the result is
    the returned distance together with the contents of the caller's
    vector afterwards.  [pointsX] and [pointsY] are copies. *)
Definition closestPair_run (points : list Point) : R * list Point :=
  if (length points <? 2)%nat then (0%R, points)
  else
    let pointsX := points in
    let pointsY := points in
    let pointsX := std_sort Point_lt pointsX in
    let pointsY := std_sort sortByY pointsY in
    (sqrt (IZR (closestPairUtil pointsX pointsY)), points).

Definition closestPair (points : list Point) : R :=
  fst (closestPair_run points).

(** The radicand of [closestPair]'s result, for inputs of two or more points. *)
Definition closestPairSq (points : list Point) : Z :=
  closestPairUtil (std_sort Point_lt points) (std_sort sortByY points).

(** ** Polygon diameter *)

Definition cross_prod (hull : list Point) (n i j : nat) : Z :=
  let p1 := at_ hull i in
  let p2 := at_ hull ((i + 1) mod n) in
  let q1 := at_ hull j in
  let q2 := at_ hull ((j + 1) mod n) in
  let vec_p := mkPoint (IntT.sub p2.(x) p1.(x)) (IntT.sub p2.(y) p1.(y)) in
  let vec_q := mkPoint (IntT.sub q2.(x) q1.(x)) (IntT.sub q2.(y) q1.(y)) in
  vec_p.(x) * vec_q.(y) - vec_p.(y) * vec_q.(x).

(** The [while (true)] loop for a fixed [i]: the value of [j] at the
    [break], or [None] when [fuel] iterations did not reach it. *)
Fixpoint advance (fuel : nat) (hull : list Point) (n i j : nat) : option nat :=
  match fuel with
  | O => None
  | S fuel' =>
      if 0 <? cross_prod hull n i j
      then advance fuel' hull n i ((j + 1) mod n)%nat
      else Some j
  end.

(** The [for] loop over [i], on the state [(j, max_dist_sq)]. *)
Fixpoint calipers (fuel : nat) (hull : list Point) (n : nat) (idxs : list nat)
    (j : nat) (max_dist_sq : Z) : option Z :=
  match idxs with
  | [] => Some max_dist_sq
  | i :: idxs' =>
      match advance fuel hull n i j with
      | None => None
      | Some j =>
          let max_dist_sq := Z.max max_dist_sq (distSq (at_ hull i) (at_ hull j)) in
          let max_dist_sq :=
            Z.max max_dist_sq (distSq (at_ hull ((i + 1) mod n)) (at_ hull j)) in
          calipers fuel hull n idxs' j max_dist_sq
      end
  end.

(** The radicand of [polygonDiameter]'s result on a given hull. *)
Definition diameterSq (fuel : nat) (hull : list Point) : option Z :=
  if (length hull =? 2)%nat then Some (distSq (at_ hull 0) (at_ hull 1))
  else if (length hull <? 2)%nat then Some 0
  else
    let n := length hull in
    calipers fuel hull n (seq 0 n) 1%nat 0.

(** [polygonDiameter] takes [points] by reference and hands it to
    [convexHull]: the result is the returned distance ([None] when an inner
    loop is still running after [fuel] iterations) together with the
    contents of the caller's vector afterwards. *)
Definition polygonDiameter_run (fuel : nat) (points : list Point)
    : option R * list Point :=
  if (length points <? 2)%nat then (Some 0%R, points)
  else
    let (hull, points) := convexHull_run points in
    (option_map (fun d => sqrt (IZR d)) (diameterSq fuel hull), points).

Definition polygonDiameter (fuel : nat) (points : list Point) : option R :=
  fst (polygonDiameter_run fuel points).

(** * Reference notions *)

(** The notions the properties are stated with are taken over the exact
    integers: nothing in them is reduced to the range of [T]. *)

(** Cross product of [q - p] and [r - q], with the sign convention of
    [orientation]. *)
Definition exact_val (p q r : Point) : Z :=
  (q.(y) - p.(y)) * (r.(x) - q.(x)) - (q.(x) - p.(x)) * (r.(y) - q.(y)).

Definition exact_orientation (p q r : Point) : Z :=
  if exact_val p q r =? 0 then 0
  else if 0 <? exact_val p q r then 1 else 2.

(** Twice the signed area of the triangle [p q r]: positive when [r] is
    strictly to the left of the line from [p] to [q]. *)
Definition left_of (p q r : Point) : Z :=
  (q.(x) - p.(x)) * (r.(y) - p.(y)) - (q.(y) - p.(y)) * (r.(x) - p.(x)).

Definition exact_distSq (p q : Point) : Z :=
  (p.(x) - q.(x)) * (p.(x) - q.(x)) + (p.(y) - q.(y)) * (p.(y) - q.(y)).

(** Euclidean distance. *)
Definition distance (p q : Point) : R := sqrt (IZR (exact_distSq p q)).

(** [p] lies inside or on the closed polygon [hull], listed
    counter-clockwise: it is to the left of, or on, every edge. *)
Definition inside_or_on (hull : list Point) (p : Point) : Prop :=
  forall i, (i < length hull)%nat ->
    0 <= left_of (at_ hull i) (at_ hull ((i + 1) mod length hull)) p.

(** [p] lies strictly inside the convex polygon [polygon], listed
    counter-clockwise. *)
Definition strictly_inside (polygon : list Point) (p : Point) : Prop :=
  forall i, (i < length polygon)%nat ->
    0 < left_of (at_ polygon i) (at_ polygon ((i + 1) mod length polygon)) p.

(** Coordinates in [[-2^30, 2^30)]: the difference of two of them is an
    [int]. *)
Definition in_range (p : Point) : Prop :=
  - 2 ^ 30 <= p.(x) < 2 ^ 30 /\ - 2 ^ 30 <= p.(y) < 2 ^ 30.

Definition origin : Point := mkPoint 0 0.

(** The order of [Point::operator<], and the order of [sortByY]. *)
Definition lexlt (a b : Point) : Prop :=
  a.(x) < b.(x) \/ (a.(x) = b.(x) /\ a.(y) < b.(y)).

Definition lexle (a b : Point) : Prop :=
  a.(x) < b.(x) \/ (a.(x) = b.(x) /\ a.(y) <= b.(y)).

Definition yle (a b : Point) : Prop := a.(y) <= b.(y).

(** For a comparison [lt]: [a] may stand before [b] in a sorted sequence. *)
Definition not_after {A : Type} (lt : A -> A -> bool) (a b : A) : Prop :=
  lt b a = false.

(** The pairs [(l[i], l[j])] with [i < j]. *)
Fixpoint all_pairs (l : list Point) : list (Point * Point) :=
  match l with
  | [] => []
  | p :: rest => map (pair p) rest ++ all_pairs rest
  end.

(** The squared distance of the closest two positions of [points]. *)
Definition is_min_distSq (points : list Point) (r : Z) : Prop :=
  (exists p q, In (p, q) (all_pairs points) /\ r = exact_distSq p q)
  /\ (forall p q, In (p, q) (all_pairs points) -> r <= exact_distSq p q).

(** The distance of the closest two positions of [points]. *)
Definition is_min_dist (points : list Point) (d : R) : Prop :=
  (exists p q, In (p, q) (all_pairs points) /\ d = distance p q)
  /\ (forall p q, In (p, q) (all_pairs points) -> (d <= distance p q)%R).

(** [r] is the value [distSq] takes at two positions of [l]. *)
Definition attained (l : list Point) (r : Z) : Prop :=
  exists p q, In (p, q) (all_pairs l) /\ r = distSq p q.

(** What [pointsY] has to hold of [pointsX] for the strip to be complete.
    The partition of [pointsY] sends every copy of [midPoint] to the right,
    also those that [pointsX] keeps on the left: below the last point of
    [pointsX] nothing is missing. *)
Definition feeds (X Y : list Point) : Prop :=
  forall v, lexlt v (last X origin) ->
    (In v X -> In v Y)
    /\ (In (v, v) (all_pairs X) -> In (v, v) (all_pairs Y)).

(** [r] is at most the squared distance of any two positions of [X];
    for two different points, provided [Y] has the last point of [X]. *)
Definition below_pairs (X Y : list Point) (r : Z) : Prop :=
  forall p q, In (p, q) (all_pairs X) ->
    p = q \/ In (last X origin) Y ->
    r <= exact_distSq p q.

(** One term of the shoelace sum, for the edge from [a] to [b]. *)
Definition edge_term (a b : Point) : Z := a.(x) * b.(y) - b.(x) * a.(y).

(** The shoelace sum over the exact integers. *)
Definition exact_shoelace (polygon : list Point) : Z :=
  let n := length polygon in
  fold_left
    (fun area i => area + edge_term (at_ polygon i) (at_ polygon ((i + 1) mod n)))
    (seq 0 n) 0.

(** Both coordinates of [p] have magnitude at most [B]. *)
Definition within (B : Z) (p : Point) : Prop :=
  Z.abs p.(x) <= B /\ Z.abs p.(y) <= B.

(** The terms of the edges between consecutive vertices of the list,
    without the closing edge. *)
Fixpoint open_sum (l : list Point) : Z :=
  match l with
  | a :: ((b :: _) as rest) => edge_term a b + open_sum rest
  | _ => 0
  end.

(** The turn test of the scans, on the exact integers. *)
Fixpoint popExact (hull : list Point) (p : Point) : list Point :=
  match hull with
  | b :: ((a :: _) as rest) =>
      if 0 <? left_of a b p then hull else popExact rest p
  | _ => hull
  end.

Definition scanExact (hull : list Point) (p : Point) : list Point :=
  p :: popExact hull p.

(** [q] is to the left of, or on, every edge of the chain [S] (kept like
    [hull], back first). *)
Fixpoint chain_left (S : list Point) (q : Point) : Prop :=
  match S with
  | b :: ((a :: _) as rest) => 0 <= left_of a b q /\ chain_left rest q
  | _ => True
  end.

(** Every three consecutive points of the chain make a strict left turn. *)
Fixpoint convex_chain (S : list Point) : Prop :=
  match S with
  | c :: ((b :: a :: _) as rest) => 0 < left_of a b c /\ convex_chain rest
  | _ => True
  end.

(** The state of a scan between two iterations: [S] is the chain, [P] the
    points scanned so far, [le] the order they come in. *)
Record scan_inv (le : Point -> Point -> Prop) (S P : list Point) : Prop := {
  inv_sorted : StronglySorted (fun b a => le a b) S;
  inv_convex : convex_chain S;
  inv_left : forall q, In q P -> chain_left S q;
  inv_sub : forall s, In s S -> In s P;
  inv_bottom : forall q, In q P -> le (last S origin) q;
  inv_nonempty : S = [] -> P = []
}.

(** [a] is followed by [b] in [l]. *)
Definition consec (l : list Point) (a b : Point) : Prop :=
  exists l1 l2, l = l1 ++ a :: b :: l2.

(** [a], [b], [c] follow one another in [l]. *)
Definition consec3 (l : list Point) (a b c : Point) : Prop :=
  exists l1 l2, l = l1 ++ a :: b :: c :: l2.

(** The two chains of the hull, in the order the polygon is walked:
    [low] from the first point of the sort to the last, [up] back. *)
Record two_chains (points low up : list Point) : Prop := {
  low_sorted : StronglySorted lexlt low;
  up_sorted : StronglySorted (fun a b => lexlt b a) up;
  low_turns : forall a b c, consec3 low a b c -> 0 < left_of a b c;
  up_turns : forall a b c, consec3 up a b c -> 0 < left_of a b c;
  low_left : forall q a b, In q points -> consec low a b -> 0 <= left_of a b q;
  up_left : forall q a b, In q points -> consec up a b -> 0 <= left_of a b q;
  low_sub : forall v, In v low -> In v points;
  up_sub : forall v, In v up -> In v points
}.

(** ** Vectors and convex polygons *)

(** Vectors are kept as points. *)
Definition vsub (p q : Point) : Point := mkPoint (p.(x) - q.(x)) (p.(y) - q.(y)).
Definition cross (u w : Point) : Z := u.(x) * w.(y) - u.(y) * w.(x).
Definition dot (u w : Point) : Z := u.(x) * w.(x) + u.(y) * w.(y).

(** The vertex of the closed polygon [R] at position [k], counted round
    and round, and the edge that leaves it. *)
Definition vtx (R : list Point) (k : nat) : Point := at_ R (k mod length R).
Definition edge (R : list Point) (k : nat) : Point :=
  vsub (vtx R (k + 1)) (vtx R k).

(** A convex polygon, listed counter-clockwise, that turns at each of its
    three or more vertices. *)
Record convex_polygon (R : list Point) : Prop := {
  cp_size : (3 <= length R)%nat;
  cp_NoDup : NoDup R;
  cp_left : forall i k, 0 <= left_of (vtx R i) (vtx R (i + 1)) (vtx R k);
  cp_turn : forall i, 0 < left_of (vtx R i) (vtx R (i + 1)) (vtx R (i + 2))
}.

(** [q] is where the inner loop of [polygonDiameter] stops for the edge
    [i]: the first position after [i] whose edge does not turn left of
    the edge [i]. *)
Definition first_nonpos (R : list Point) (i q : nat) : Prop :=
  (i + 1 <= q)%nat
  /\ (forall t, (i + 1 <= t < q)%nat -> 0 < cross (edge R i) (edge R t))
  /\ cross (edge R i) (edge R q) <= 0.

(** Every point the hull has to answer for is no farther from any centre
    than some vertex. *)
Definition reaches (hull points : list Point) : Prop :=
  forall c q, In q points ->
    exists v, In v hull /\ exact_distSq c q <= exact_distSq c v.

Definition is_max_distSq (l : list Point) (r : Z) : Prop :=
  (exists p q, In p l /\ In q l /\ r = exact_distSq p q)
  /\ (forall p q, In p l -> In q l -> exact_distSq p q <= r).

(** The largest distance between two points of [l]. *)
Definition is_max_dist (l : list Point) (d : R) : Prop :=
  (exists p q, In p l /\ In q l /\ d = distance p q)
  /\ (forall p q, In p l -> In q l -> (distance p q <= d)%R).

(** ** Segments *)

(** The coordinates of [p] and [q] differ by values of [T], whichever is
    subtracted from the other. *)
Definition near (p q : Point) : Prop :=
  Z.abs (p.(x) - q.(x)) <= IntT.maxT /\ Z.abs (p.(y) - q.(y)) <= IntT.maxT.

(** Any two points of [l] are [near]. *)
Definition close (l : list Point) : Prop :=
  forall p q, In p l -> In q l -> near p q.

(** [q] is a point of the closed segment from [p] to [r]:
    [q = p + (s / D) (r - p)] with [0 <= s / D <= 1]. *)
Definition on_segment (p r q : Point) : Prop :=
  exists D s, 0 < D /\ 0 <= s <= D
    /\ D * (q.(x) - p.(x)) = s * (r.(x) - p.(x))
    /\ D * (q.(y) - p.(y)) = s * (r.(y) - p.(y)).

(** The closed segments [p1 q1] and [p2 q2] have a point in common:
    [p1 + (s / D) (q1 - p1) = p2 + (t / D) (q2 - p2)]. *)
Definition segments_meet (p1 q1 p2 q2 : Point) : Prop :=
  exists D s t, 0 < D /\ 0 <= s <= D /\ 0 <= t <= D
    /\ D * p1.(x) + s * (q1.(x) - p1.(x)) = D * p2.(x) + t * (q2.(x) - p2.(x))
    /\ D * p1.(y) + s * (q1.(y) - p1.(y)) = D * p2.(y) + t * (q2.(y) - p2.(y)).

(** [a] and [b] have opposite signs. *)
Definition opposite (a b : Z) : Prop := (a < 0 /\ 0 < b) \/ (b < 0 /\ 0 < a).

(** ** Triangles and translations *)

(** Twice the signed areas of the triangles that [v0] makes with each two
    consecutive points of [rest], added up. *)
Fixpoint fan_sum (v0 : Point) (rest : list Point) : Z :=
  match rest with
  | a :: ((b :: _) as rest') => left_of v0 a b + fan_sum v0 rest'
  | _ => 0
  end.

Definition translate (d p : Point) : Point :=
  mkPoint (p.(x) + d.(x)) (p.(y) + d.(y)).

(** ** Edges across a horizontal line *)

(** The edge [i] of [R] climbs, or descends, across the horizontal line
    through [p]. *)
Definition climbs (R : list Point) (p : Point) (i : nat) : Prop :=
  (vtx R i).(y) < p.(y) < (vtx R (i + 1)).(y).

Definition descends (R : list Point) (p : Point) (i : nat) : Prop :=
  (vtx R (i + 1)).(y) < p.(y) < (vtx R i).(y).

(** Twice the signed area of [p] and the edge [i]. *)
Definition side (R : list Point) (p : Point) (i : nat) : Z :=
  left_of (vtx R i) (vtx R (i + 1)) p.

(** The edge [i] crosses the line through [p] with [p] on its line. *)
Definition on_edge (R : list Point) (p : Point) (i : nat) : Prop :=
  (climbs R p i \/ descends R p i) /\ side R p i = 0.

(** The edge [i] crosses the line through [p] strictly to the right of
    [p]. *)
Definition counted (R : list Point) (p : Point) (i : nat) : bool :=
  let a := vtx R i in
  let b := vtx R (i + 1) in
  ((a.(y) <? p.(y)) && (p.(y) <? b.(y)) && (0 <? side R p i))
  || ((b.(y) <? p.(y)) && (p.(y) <? a.(y)) && (side R p i <? 0)).

(** [q] is to the left of, or on, every edge of [R], the edges taken
    around the polygon. *)
Definition enclosed (R : list Point) (q : Point) : Prop :=
  forall i, 0 <= left_of (vtx R i) (vtx R (i + 1)) q.

(** * Properties *)

(** ** The range of [T] *)

Lemma wrap_small (z : Z) : IntT.inT z -> IntT.wrap z = z.
Proof.
  unfold IntT.inT, IntT.minT, IntT.maxT, IntT.wrap. intros H.
  rewrite Z.mod_small; lia.
Qed.

Lemma wrap_range (z : Z) : IntT.inT (IntT.wrap z).
Proof.
  unfold IntT.inT, IntT.minT, IntT.maxT, IntT.wrap.
  pose proof (Z.mod_pos_bound (z + 2 ^ 31) (2 ^ 32)). lia.
Qed.

(** ** What [long double] holds without rounding *)

Lemma round_exact (z : Z) : Z.abs z <= 2 ^ 64 -> LD.round z = z.
Proof.
  intros H. unfold LD.round. cbv zeta.
  now destruct (Z.leb_spec (Z.abs z) (2 ^ 64)); [| lia].
Qed.

Example round_ties_to_even :
  LD.round (2 ^ 64 + 1) = 2 ^ 64
  /\ LD.round (2 ^ 64 + 3) = 2 ^ 64 + 4
  /\ LD.round (2 ^ 65 + 5) = 2 ^ 65 + 4
  /\ LD.round (- (2 ^ 65 + 6)) = - (2 ^ 65 + 8).
Proof. repeat split; vm_compute; reflexivity. Qed.

Lemma inT_abs (z : Z) : IntT.inT z -> Z.abs z <= 2 ^ 31.
Proof. unfold IntT.inT, IntT.minT, IntT.maxT. lia. Qed.

Lemma mul_inT (a b : Z) :
  IntT.inT a -> IntT.inT b -> Z.abs (a * b) <= 2 ^ 62 /\ LD.mul a b = a * b.
Proof.
  intros Ha Hb. apply inT_abs in Ha. apply inT_abs in Hb.
  assert (H : Z.abs (a * b) <= 2 ^ 62).
  { rewrite Z.abs_mul. change (2 ^ 62) with (2 ^ 31 * 2 ^ 31).
    pose proof (Z.abs_nonneg a). pose proof (Z.abs_nonneg b).
    apply Z.mul_le_mono_nonneg; lia. }
  split; [exact H |]. apply round_exact. lia.
Qed.

(** The value of [orientation], of [distSq] and of the cross product of
    [polygonDiameter], as the operations of [long double] give them, are
    the exact ones of their operands of type [T]. *)
Lemma orientation_val_unrounded (p q r : Point) :
  LD.sub (LD.mul (IntT.sub q.(y) p.(y)) (IntT.sub r.(x) q.(x)))
         (LD.mul (IntT.sub q.(x) p.(x)) (IntT.sub r.(y) q.(y)))
  = orientation_val p q r.
Proof.
  unfold orientation_val, IntT.sub.
  destruct (mul_inT _ _ (wrap_range (q.(y) - p.(y))) (wrap_range (r.(x) - q.(x))))
    as [H1 ->].
  destruct (mul_inT _ _ (wrap_range (q.(x) - p.(x))) (wrap_range (r.(y) - q.(y))))
    as [H2 ->].
  apply round_exact. lia.
Qed.

Lemma distSq_unrounded (p1 p2 : Point) :
  LD.add (LD.mul (IntT.sub p1.(x) p2.(x)) (IntT.sub p1.(x) p2.(x)))
         (LD.mul (IntT.sub p1.(y) p2.(y)) (IntT.sub p1.(y) p2.(y)))
  = distSq p1 p2.
Proof.
  unfold distSq, IntT.sub.
  destruct (mul_inT _ _ (wrap_range (p1.(x) - p2.(x))) (wrap_range (p1.(x) - p2.(x))))
    as [H1 ->].
  destruct (mul_inT _ _ (wrap_range (p1.(y) - p2.(y))) (wrap_range (p1.(y) - p2.(y))))
    as [H2 ->].
  apply round_exact. lia.
Qed.

Lemma cross_prod_unrounded (hull : list Point) (n i j : nat) :
  let p1 := at_ hull i in
  let p2 := at_ hull ((i + 1) mod n) in
  let q1 := at_ hull j in
  let q2 := at_ hull ((j + 1) mod n) in
  LD.sub (LD.mul (IntT.sub p2.(x) p1.(x)) (IntT.sub q2.(y) q1.(y)))
         (LD.mul (IntT.sub p2.(y) p1.(y)) (IntT.sub q2.(x) q1.(x)))
  = cross_prod hull n i j.
Proof.
  intros p1 p2 q1 q2. unfold cross_prod. fold p1 p2 q1 q2. cbn [x y].
  unfold IntT.sub.
  destruct (mul_inT _ _ (wrap_range (p2.(x) - p1.(x))) (wrap_range (q2.(y) - q1.(y))))
    as [H1 ->].
  destruct (mul_inT _ _ (wrap_range (p2.(y) - p1.(y))) (wrap_range (q2.(x) - q1.(x))))
    as [H2 ->].
  apply round_exact. lia.
Qed.

(** The test that fills the strip of [closestPairUtil] subtracts and
    multiplies in [long double]. *)
Lemma inStrip_unrounded (midPoint p : Point) (d : Z) :
  IntT.inT p.(x) -> IntT.inT midPoint.(x) ->
  (LD.mul (Z.abs (LD.sub p.(x) midPoint.(x))) (Z.abs (LD.sub p.(x) midPoint.(x)))
   <? d) = inStrip midPoint d p.
Proof.
  unfold IntT.inT, IntT.minT, IntT.maxT. intros Hp Hm. unfold inStrip, LD.sub.
  rewrite (round_exact (p.(x) - midPoint.(x))) by lia.
  unfold LD.mul. rewrite round_exact; [reflexivity |].
  rewrite Z.abs_mul, !Z.abs_idemp.
  change (2 ^ 64) with (2 ^ 32 * 2 ^ 32).
  pose proof (Z.abs_nonneg (p.(x) - midPoint.(x))).
  apply Z.mul_le_mono_nonneg; lia.
Qed.

(** ** Arithmetic of [T] and of the tolerance *)

Lemma abs_lt_EPS_spec (val : Z) : abs_lt_EPS val = (val =? 0).
Proof.
  unfold abs_lt_EPS, EPS, Qle_bool, Qabs, inject_Z, Qnum, Qden.
  destruct (Z.eqb_spec val 0) as [-> | Hne]; [reflexivity |].
  apply negb_false_iff, Z.leb_le. lia.
Qed.

Lemma orientation_spec (p q r : Point) :
  orientation p q r =
    (if orientation_val p q r =? 0 then 0
     else if 0 <? orientation_val p q r then 1 else 2).
Proof. unfold orientation. cbv zeta. now rewrite abs_lt_EPS_spec. Qed.


Lemma sub_exact (a b : Z) :
  - 2 ^ 30 <= a < 2 ^ 30 -> - 2 ^ 30 <= b < 2 ^ 30 -> IntT.sub a b = a - b.
Proof.
  intros Ha Hb. apply wrap_small.
  unfold IntT.inT, IntT.minT, IntT.maxT. lia.
Qed.

Lemma distSq_exact (p q : Point) :
  in_range p -> in_range q -> distSq p q = exact_distSq p q.
Proof.
  intros [Hpx Hpy] [Hqx Hqy]. unfold distSq, exact_distSq.
  now rewrite !sub_exact.
Qed.

Lemma orientation_val_exact (p q r : Point) :
  in_range p -> in_range q -> in_range r ->
  orientation_val p q r = exact_val p q r.
Proof.
  intros [Hpx Hpy] [Hqx Hqy] [Hrx Hry]. unfold orientation_val, exact_val.
  now rewrite !sub_exact.
Qed.

Lemma exact_distSq_nonneg (p q : Point) : 0 <= exact_distSq p q.
Proof.
  unfold exact_distSq.
  pose proof (Z.square_nonneg (p.(x) - q.(x))).
  pose proof (Z.square_nonneg (p.(y) - q.(y))). lia.
Qed.

Lemma exact_distSq_sym (p q : Point) : exact_distSq p q = exact_distSq q p.
Proof. unfold exact_distSq. lia. Qed.

(** A product formed in [T] is at most the exact one when that is not
    negative. *)
Lemma wrap_le (z : Z) : 0 <= z -> IntT.wrap z <= z.
Proof.
  intros Hz. unfold IntT.wrap.
  pose proof (Z.mod_le (z + 2 ^ 31) (2 ^ 32)). lia.
Qed.

(** ** The two orders *)

Lemma Point_lt_true (a b : Point) : Point_lt a b = true <-> lexlt a b.
Proof.
  unfold Point_lt, lexlt.
  destruct (Z.eqb_spec a.(x) b.(x)); simpl; rewrite Z.ltb_lt; lia.
Qed.

Lemma Point_lt_false (a b : Point) : Point_lt b a = false <-> lexle a b.
Proof.
  unfold Point_lt, lexle.
  destruct (Z.eqb_spec b.(x) a.(x)); simpl; rewrite Z.ltb_ge; lia.
Qed.

Lemma inLeft_true (m p : Point) : inLeft m p = true <-> lexlt p m.
Proof.
  unfold inLeft, lexlt.
  rewrite orb_true_iff, andb_true_iff, !Z.ltb_lt, Z.eqb_eq. reflexivity.
Qed.

Lemma inLeft_false (m p : Point) : inLeft m p = false <-> lexle m p.
Proof.
  unfold inLeft, lexle.
  rewrite orb_false_iff, andb_false_iff, !Z.ltb_ge, Z.eqb_neq. lia.
Qed.

Lemma sortByY_false (a b : Point) : sortByY b a = false <-> yle a b.
Proof. unfold sortByY, yle. apply Z.ltb_ge. Qed.

Lemma Point_eq (a b : Point) : a.(x) = b.(x) -> a.(y) = b.(y) -> a = b.
Proof. destruct a, b; simpl; intros; subst; reflexivity. Qed.

Lemma lexle_antisym (a b : Point) : lexle a b -> lexle b a -> a = b.
Proof. unfold lexle. intros. apply Point_eq; lia. Qed.

Lemma lexle_lt_or_eq (a b : Point) : lexle a b -> lexlt a b \/ a = b.
Proof.
  unfold lexle, lexlt. intros H.
  destruct (Z.eq_dec a.(x) b.(x)), (Z.eq_dec a.(y) b.(y));
    try (left; lia). right. now apply Point_eq.
Qed.

Lemma lexlt_le_trans (a b c : Point) : lexlt a b -> lexle b c -> lexlt a c.
Proof. unfold lexlt, lexle. lia. Qed.

Lemma lexle_lt_trans (a b c : Point) : lexle a b -> lexlt b c -> lexlt a c.
Proof. unfold lexlt, lexle. lia. Qed.

Lemma lexlt_irrefl (a : Point) : ~ lexlt a a.
Proof. unfold lexlt. lia. Qed.

Lemma lexlt_lexle (a b : Point) : lexlt a b -> lexle a b.
Proof. unfold lexlt, lexle. lia. Qed.

Lemma Point_eq_dec (a b : Point) : {a = b} + {a <> b}.
Proof. decide equality; apply Z.eq_dec. Defined.


Lemma lexle_refl (a : Point) : lexle a a.
Proof. unfold lexle. lia. Qed.

Lemma lexle_total (a b : Point) : lexle a b \/ lexle b a.
Proof. unfold lexle. lia. Qed.

#[local] Instance lexle_trans : Transitive lexle.
Proof. unfold Transitive, lexle. lia. Qed.

#[local] Instance yle_trans : Transitive yle.
Proof. unfold Transitive, yle. lia. Qed.

(** ** [std_sort] sorts *)

Section SortFacts.
Context {A : Type}.
Variable lt : A -> A -> bool.
Hypothesis lt_asym : forall a b, lt a b = true -> lt b a = false.

Lemma insert_sorted_perm (a : A) (l : list A) :
  Permutation (a :: l) (insert_sorted lt a l).
Proof.
  induction l as [| b l IH]; simpl; [reflexivity |].
  destruct (lt a b); [reflexivity |].
  rewrite perm_swap. now constructor.
Qed.

Lemma std_sort_perm (l : list A) : Permutation l (std_sort lt l).
Proof.
  induction l as [| a l IH]; simpl; [constructor |].
  rewrite <- insert_sorted_perm. now constructor.
Qed.

Lemma insert_sorted_sorted (a : A) (l : list A) :
  Sorted (not_after lt) l -> Sorted (not_after lt) (insert_sorted lt a l).
Proof.
  induction l as [| b l IH]; intros Hs; simpl.
  - repeat constructor.
  - destruct (lt a b) eqn:Hab.
    + constructor; [assumption |]. constructor. now apply lt_asym.
    + apply Sorted_inv in Hs. destruct Hs as [Hs Hhd].
      constructor; [now apply IH |].
      destruct l as [| c l]; simpl.
      * now constructor.
      * destruct (lt a c); constructor; [assumption |].
        now inversion Hhd.
  Qed.

Lemma std_sort_sorted (l : list A) : Sorted (not_after lt) (std_sort lt l).
Proof.
  induction l as [| a l IH]; simpl; [constructor |].
  now apply insert_sorted_sorted.
Qed.
End SortFacts.

Lemma Sorted_weaken {A : Type} (R R' : A -> A -> Prop) (l : list A) :
  (forall a b, R a b -> R' a b) -> Sorted R l -> Sorted R' l.
Proof.
  intros HR. induction 1 as [| a l Hs IH Hhd]; constructor; [assumption |].
  destruct Hhd; constructor. now apply HR.
Qed.

Lemma sort_lex_sorted (l : list Point) :
  StronglySorted lexle (std_sort Point_lt l).
Proof.
  apply Sorted_StronglySorted; [exact lexle_trans |].
  apply (Sorted_weaken (not_after Point_lt)).
  - intros a b H. now apply Point_lt_false.
  - apply std_sort_sorted. intros a b H.
    apply Point_lt_false. apply Point_lt_true in H.
    unfold lexlt, lexle in *. lia.
Qed.

Lemma sort_y_sorted (l : list Point) :
  StronglySorted yle (std_sort sortByY l).
Proof.
  apply Sorted_StronglySorted; [exact yle_trans |].
  apply (Sorted_weaken (not_after sortByY)).
  - intros a b H. now apply sortByY_false.
  - apply std_sort_sorted. intros a b H.
    unfold sortByY in *. apply Z.ltb_lt in H. apply Z.ltb_ge. lia.
Qed.

(** ** Degenerate inputs *)

(** C6: fewer than 2 points give distance and diameter [0]; fewer than 3
    vertices give area [0] and point-in-polygon [false]. *)
Theorem degenerate_inputs (points polygon : list Point) (p : Point) (fuel : nat) :
  (length points < 2)%nat ->
  (length polygon < 3)%nat ->
  closestPair points = 0%R
  /\ polygonDiameter fuel points = Some 0%R
  /\ polygonArea polygon = 0%R
  /\ isInside polygon p = false.
Proof.
  intros Hpts Hpoly.
  apply Nat.ltb_lt in Hpts. apply Nat.ltb_lt in Hpoly.
  unfold closestPair, closestPair_run, polygonDiameter, polygonDiameter_run,
    polygonArea, isInside.
  cbv zeta. rewrite Hpts, Hpoly. repeat split.
Qed.

Lemma degenerate_inputs_witness :
  closestPair [mkPoint 1 1] = 0%R
  /\ polygonDiameter 0 [mkPoint 1 1] = Some 0%R
  /\ polygonArea [mkPoint 0 0; mkPoint 1 1] = 0%R
  /\ isInside [mkPoint 0 0; mkPoint 1 1] (mkPoint 0 0) = false.
Proof.
  apply (degenerate_inputs [mkPoint 1 1] [mkPoint 0 0; mkPoint 1 1]
           (mkPoint 0 0) 0); simpl; lia.
Defined.

(** ** The caller's vector *)

(** C8: [closestPair] leaves the caller's vector as it found it. *)
Theorem closestPair_keeps_points (points : list Point) :
  snd (closestPair_run points) = points.
Proof.
  unfold closestPair_run.
  destruct (length points <? 2)%nat; reflexivity.
Qed.

(** [convexHull], in contrast, sorts the caller's vector in place. *)
Example convexHull_sorts_points :
  snd (convexHull_run [mkPoint 2 0; mkPoint 1 1; mkPoint 0 0])
  = [mkPoint 0 0; mkPoint 1 1; mkPoint 2 0].
Proof. reflexivity. Qed.

(** ** Termination of the antipodal advance *)

Section Calipers.
Variable hull : list Point.
Variable n : nat.
Hypothesis n_pos : (0 < n)%nat.

(** An edge is parallel to itself, whatever [T] did to its direction. *)
Lemma cross_prod_self (i : nat) : cross_prod hull n i i = 0.
Proof. unfold cross_prod. cbn. lia. Qed.

(** [advance] started [d] positions before [i] breaks within [d + 1]
    iterations. *)
Lemma advance_within (i : nat) :
  forall (d fuel j : nat),
    (j < n)%nat -> ((j + d) mod n = i)%nat -> (d < fuel)%nat ->
    exists j', advance fuel hull n i j = Some j'
               /\ (j' < n)%nat /\ cross_prod hull n i j' <= 0.
Proof.
  induction d as [| d IH]; intros fuel j Hj Hd Hfuel;
    (destruct fuel as [| fuel]; [lia |]); simpl.
  - rewrite Nat.add_0_r, Nat.mod_small in Hd by assumption. subst j.
    rewrite cross_prod_self. simpl.
    exists i. rewrite cross_prod_self. repeat split; [assumption | lia].
  - destruct (Z.ltb_spec 0 (cross_prod hull n i j)) as [Hpos | Hnpos].
    + apply IH.
      * apply Nat.mod_upper_bound. lia.
      * rewrite Nat.Div0.add_mod_idemp_l.
        replace (j + 1 + d)%nat with (j + S d)%nat by lia. assumption.
      * lia.
    + exists j. repeat split; assumption.
Qed.

Lemma advance_terminates (fuel i j : nat) :
  (i < n)%nat -> (j < n)%nat -> (n <= fuel)%nat ->
  exists j', advance fuel hull n i j = Some j'
             /\ (j' < n)%nat /\ cross_prod hull n i j' <= 0.
Proof.
  intros Hi Hj Hfuel.
  apply (advance_within i ((i + n - j) mod n)); try assumption.
  - rewrite Nat.Div0.add_mod_idemp_r.
    replace (j + (i + n - j))%nat with (i + 1 * n)%nat by lia.
    rewrite Nat.Div0.mod_add. now apply Nat.mod_small.
  - pose proof (Nat.mod_upper_bound (i + n - j) n). lia.
Qed.

Lemma calipers_terminates (fuel : nat) :
  (n <= fuel)%nat ->
  forall (idxs : list nat) (j : nat) (max_dist_sq : Z),
    Forall (fun i => (i < n)%nat) idxs -> (j < n)%nat ->
    exists d, calipers fuel hull n idxs j max_dist_sq = Some d.
Proof.
  intros Hfuel. induction idxs as [| i idxs IH]; intros j m Hidxs Hj; simpl.
  - now exists m.
  - inversion Hidxs as [| ? ? Hi Hrest]; subst.
    destruct (advance_terminates fuel i j Hi Hj Hfuel) as (j' & -> & Hj' & _).
    now apply IH.
Qed.
End Calipers.

Lemma diameterSq_terminates (fuel : nat) (hull : list Point) :
  (length hull <= fuel)%nat -> exists d, diameterSq fuel hull = Some d.
Proof.
  intros Hfuel. unfold diameterSq.
  destruct (length hull =? 2)%nat eqn:H2; [eexists; reflexivity |].
  destruct (length hull <? 2)%nat eqn:Hlt; [eexists; reflexivity |].
  apply Nat.eqb_neq in H2. apply Nat.ltb_ge in Hlt.
  apply calipers_terminates; try lia.
  apply Forall_forall. intros i Hi. apply in_seq in Hi. lia.
Qed.

(** C10: [polygonDiameter] returns, and on the hull [convexHull] produced
    every run of the inner loop stops at a cross product that is not
    positive, after at most [hull.size()] iterations. *)
Theorem polygonDiameter_terminates (points : list Point) (fuel : nat) :
  (length (convexHull points) <= fuel)%nat ->
  (exists d, polygonDiameter fuel points = Some d)
  /\ (forall i j,
         (i < length (convexHull points))%nat ->
         (j < length (convexHull points))%nat ->
         exists j',
           advance fuel (convexHull points) (length (convexHull points)) i j
             = Some j'
           /\ cross_prod (convexHull points) (length (convexHull points)) i j'
              <= 0).
Proof.
  intros Hfuel. split.
  - unfold polygonDiameter, polygonDiameter_run.
    destruct (length points <? 2)%nat; [eexists; reflexivity |].
    unfold convexHull in Hfuel.
    destruct (convexHull_run points) as [hull points'].
    destruct (diameterSq_terminates fuel hull Hfuel) as [d ->].
    eexists; reflexivity.
  - intros i j Hi Hj.
    destruct (advance_terminates (convexHull points)
                (length (convexHull points)) ltac:(lia) fuel i j Hi Hj Hfuel)
      as (j' & Hadv & _ & Hcross).
    now exists j'.
Qed.

Lemma polygonDiameter_terminates_witness :
  exists d,
    polygonDiameter 4
      [mkPoint 0 0; mkPoint 4 0; mkPoint 4 4; mkPoint 0 4; mkPoint 2 2] = Some d.
Proof.
  apply (polygonDiameter_terminates
           [mkPoint 0 0; mkPoint 4 0; mkPoint 4 4; mkPoint 0 4; mkPoint 2 2] 4).
  vm_compute. lia.
Defined.

(** ** Loops over index ranges *)

Section FoldLeft.
Context {A B C : Type}.

Lemma fold_left_map_arg (f : A -> C -> A) (h : B -> C) (l : list B) :
  forall a, fold_left f (map h l) a = fold_left (fun acc i => f acc (h i)) l a.
Proof. induction l as [| b l IH]; intros a; simpl; [reflexivity | apply IH]. Qed.

Lemma fold_left_agree (f g : A -> B -> A) (l : list B) :
  (forall i acc, In i l -> f acc i = g acc i) ->
  forall a, fold_left f l a = fold_left g l a.
Proof.
  induction l as [| b l IH]; intros Hfg a; simpl; [reflexivity |].
  rewrite Hfg by now left. apply IH. intros i acc Hi. apply Hfg. now right.
Qed.
End FoldLeft.

Lemma at_last (l : list Point) :
  at_ l (length l - 1) = last l (mkPoint 0 0).
Proof.
  unfold at_. induction l as [| a l IH]; [reflexivity |].
  destruct l as [| b l]; [reflexivity |].
  replace (length (a :: b :: l) - 1)%nat with (S (length (b :: l) - 1))
    by (simpl; lia).
  exact IH.
Qed.

(** ** The shoelace sum under reversal *)

Lemma edge_term_swap (a b : Point) : edge_term b a = - edge_term a b.
Proof. unfold edge_term. lia. Qed.

Lemma open_sum_snoc2 (l : list Point) (b a : Point) :
  open_sum (l ++ [b; a]) = open_sum (l ++ [b]) + edge_term b a.
Proof.
  induction l as [| c l IH]; simpl.
  - lia.
  - destruct l as [| c' l]; simpl in *; lia.
Qed.

Lemma open_sum_rev (l : list Point) : open_sum (rev l) = - open_sum l.
Proof.
  induction l as [| a l IH]; [reflexivity |].
  destruct l as [| b l]; [reflexivity |].
  change (rev (a :: b :: l)) with ((rev l ++ [b]) ++ [a]).
  rewrite <- app_assoc. cbn [app].
  rewrite open_sum_snoc2.
  change (rev l ++ [b]) with (rev (b :: l)).
  rewrite IH, edge_term_swap.
  cbn [open_sum]. lia.
Qed.

(** The loop of [polygonArea] on the indices below [length l - 1], where
    [(i + 1) % n] is [i + 1]. *)
Lemma fold_open_sum (l : list Point) :
  forall acc,
    fold_left (fun area i => area + edge_term (at_ l i) (at_ l (S i)))
      (seq 0 (length l - 1)) acc
    = acc + open_sum l.
Proof.
  induction l as [| a l IH]; intros acc; [simpl; lia |].
  destruct l as [| b l]; [simpl; lia |].
  replace (length (a :: b :: l) - 1)%nat with (S (length (b :: l) - 1))
    by (simpl; lia).
  rewrite <- cons_seq, <- seq_shift. cbn [fold_left].
  rewrite fold_left_map_arg.
  change (open_sum (a :: b :: l)) with (edge_term a b + open_sum (b :: l)).
  unfold at_ in *. cbn [nth] in *. rewrite IH. lia.
Qed.

Lemma exact_shoelace_open_sum (l : list Point) :
  exact_shoelace l
  = open_sum l + edge_term (last l (mkPoint 0 0)) (hd (mkPoint 0 0) l).
Proof.
  destruct (Nat.eq_dec (length l) 0) as [H0 | H0].
  - apply length_zero_iff_nil in H0. subst l. reflexivity.
  - unfold exact_shoelace. cbv zeta.
    replace (seq 0 (length l)) with (seq 0 (length l - 1) ++ [(length l - 1)%nat]).
    2:{ replace (length l) with (length l - 1 + 1)%nat at 3 by lia.
        now rewrite seq_app. }
    rewrite fold_left_app. cbn [fold_left].
    rewrite (fold_left_agree _
               (fun area i => area + edge_term (at_ l i) (at_ l (S i)))).
    + rewrite fold_open_sum.
      replace (length l - 1 + 1)%nat with (length l) by lia.
      rewrite Nat.Div0.mod_same, at_last.
      replace (at_ l 0) with (hd (mkPoint 0 0) l) by (now destruct l).
      lia.
    + intros i acc Hi. apply in_seq in Hi.
      rewrite Nat.mod_small by lia.
      now replace (i + 1)%nat with (S i) by lia.
Qed.

Lemma exact_shoelace_rev (polygon : list Point) :
  exact_shoelace (rev polygon) = - exact_shoelace polygon.
Proof.
  rewrite !exact_shoelace_open_sum, open_sum_rev.
  destruct polygon as [| a l]; [reflexivity |].
  simpl rev. rewrite last_last. cbn [hd].
  assert (Hhd : hd (mkPoint 0 0) (rev l ++ [a]) = last (a :: l) (mkPoint 0 0)).
  { rewrite <- (rev_involutive l) at 2.
    destruct (rev l) as [| c r]; [reflexivity |].
    simpl rev. cbn [hd app].
    change (a :: rev r ++ [c]) with ((a :: rev r) ++ [c]).
    now rewrite last_last. }
  rewrite Hhd, (edge_term_swap (last (a :: l) (mkPoint 0 0)) a). lia.
Qed.

(** ** Where the running sum is not rounded *)

Lemma abs_mul_within (B a b : Z) :
  Z.abs a <= B -> Z.abs b <= B -> Z.abs (a * b) <= B * B.
Proof.
  intros Ha Hb. rewrite Z.abs_mul.
  pose proof (Z.abs_nonneg a). pose proof (Z.abs_nonneg b).
  apply Z.mul_le_mono_nonneg; lia.
Qed.

Section Unrounded.
Variable polygon : list Point.
Variable B : Z.
Hypothesis polygon_within : Forall (within B) polygon.

Lemma at_within (i : nat) : (i < length polygon)%nat -> within B (at_ polygon i).
Proof.
  intros Hi. rewrite Forall_forall in polygon_within.
  apply polygon_within, nth_In, Hi.
Qed.

(** One iteration on vertices within [B] moves the sum by at most
    [2 * B * B], without rounding as long as that stays below [2^64]. *)
Lemma shoelace_step_exact (area : Z) (i : nat) :
  (i < length polygon)%nat ->
  Z.abs area + 2 * (B * B) <= 2 ^ 64 ->
  shoelace_step polygon (length polygon) area i
  = area + edge_term (at_ polygon i) (at_ polygon ((i + 1) mod length polygon))
  /\ Z.abs (shoelace_step polygon (length polygon) area i)
     <= Z.abs area + 2 * (B * B).
Proof.
  intros Hi Hfit.
  assert (Hj : ((i + 1) mod length polygon < length polygon)%nat)
    by (apply Nat.mod_upper_bound; lia).
  destruct (at_within i Hi) as [Hx Hy].
  destruct (at_within _ Hj) as [Hx' Hy'].
  pose proof (abs_mul_within B _ _ Hx Hy') as H1.
  pose proof (abs_mul_within B _ _ Hx' Hy) as H2.
  pose proof (Z.abs_nonneg area) as Ha.
  assert (E : shoelace_step polygon (length polygon) area i
              = area + edge_term (at_ polygon i)
                         (at_ polygon ((i + 1) mod length polygon))).
  { unfold shoelace_step, LD.add, LD.sub, LD.mul, edge_term. cbv zeta.
    rewrite !(round_exact (_ * _)) by lia.
    rewrite (round_exact (area + _)) by lia.
    rewrite round_exact by lia. lia. }
  split; [exact E |]. rewrite E. unfold edge_term. lia.
Qed.

Lemma shoelace_fold_exact (idxs : list nat) :
  forall area,
    Forall (fun i => (i < length polygon)%nat) idxs ->
    Z.abs area + 2 * Z.of_nat (length idxs) * (B * B) <= 2 ^ 64 ->
    fold_left (shoelace_step polygon (length polygon)) idxs area
    = fold_left
        (fun area i =>
           area + edge_term (at_ polygon i)
                    (at_ polygon ((i + 1) mod length polygon)))
        idxs area.
Proof.
  induction idxs as [| i idxs IH]; intros area Hidxs Hfit; [reflexivity |].
  inversion Hidxs as [| ? ? Hi Hrest]; subst.
  assert (HB : 0 <= B * B) by apply Z.square_nonneg.
  assert (Hlen : Z.of_nat (length (i :: idxs)) = Z.of_nat (length idxs) + 1)
    by (cbn [length]; lia).
  rewrite Hlen in Hfit.
  assert (Hn : 0 <= Z.of_nat (length idxs) * (B * B))
    by (apply Z.mul_nonneg_nonneg; lia).
  destruct (shoelace_step_exact area i Hi ltac:(lia)) as [E Hle].
  cbn [fold_left]. rewrite IH; [now rewrite E | assumption | lia].
Qed.

Lemma shoelace_exact :
  2 * Z.of_nat (length polygon) * (B * B) <= 2 ^ 64 ->
  shoelace polygon = exact_shoelace polygon.
Proof.
  intros Hfit. unfold shoelace, exact_shoelace. cbv zeta.
  apply shoelace_fold_exact.
  - apply Forall_forall. intros i Hi. apply in_seq in Hi. lia.
  - rewrite length_seq. cbn [Z.abs]. lia.
Qed.
End Unrounded.

Lemma rev_within (polygon : list Point) (B : Z) :
  Forall (within B) polygon -> Forall (within B) (rev polygon).
Proof.
  rewrite !Forall_forall. intros H p Hp. apply H. now apply in_rev.
Qed.

(** C9, where no partial sum can leave the 64 bits of the significand:
    the area is not negative (that, for every vertex list), and listing
    the vertices in the opposite order gives the same area. *)
Theorem polygonArea_rev_unrounded (polygon : list Point) (B : Z) :
  Forall (within B) polygon ->
  2 * Z.of_nat (length polygon) * (B * B) <= 2 ^ 64 ->
  (forall l, 0 <= polygonArea l)%R
  /\ polygonArea (rev polygon) = polygonArea polygon.
Proof.
  intros Hin Hfit. split.
  - intros l. unfold polygonArea. cbv zeta.
    destruct (length l <? 3)%nat; [apply Rle_refl |].
    pose proof (Rabs_pos (IZR (shoelace l))). lra.
  - unfold polygonArea. cbv zeta. rewrite length_rev.
    rewrite (shoelace_exact (rev polygon) B)
      by (try apply rev_within; try rewrite length_rev; assumption).
    rewrite (shoelace_exact polygon B) by assumption.
    rewrite exact_shoelace_rev, opp_IZR, Rabs_Ropp. reflexivity.
Qed.

Lemma polygonArea_rev_unrounded_witness :
  let square := [mkPoint 0 0; mkPoint 4 0; mkPoint 4 4; mkPoint 0 4] in
  polygonArea (rev square) = polygonArea square.
Proof.
  intros square.
  apply (polygonArea_rev_unrounded square 4).
  - unfold square, within. repeat constructor; cbn [x y]; lia.
  - vm_compute. discriminate.
Defined.
(** ** Pairs of positions *)

Lemma all_pairs_cons (a : Point) (l : list Point) (p q : Point) :
  In (p, q) (all_pairs (a :: l)) <-> (a = p /\ In q l) \/ In (p, q) (all_pairs l).
Proof.
  simpl. rewrite in_app_iff, in_map_iff. split.
  - intros [(q' & Heq & Hq') | H]; [| now right].
    inversion Heq; subst. now left.
  - intros [[-> Hq] | H]; [| now right]. left. now exists q.
Qed.

Lemma all_pairs_in (l : list Point) (p q : Point) :
  In (p, q) (all_pairs l) -> In p l /\ In q l.
Proof.
  induction l as [| a l IH]; [contradiction |].
  rewrite all_pairs_cons. intros [[-> Hq] | H].
  - split; [now left | now right].
  - destruct (IH H). split; now right.
Qed.

Lemma all_pairs_app (l1 l2 : list Point) (p q : Point) :
  In (p, q) (all_pairs (l1 ++ l2)) <->
  In (p, q) (all_pairs l1) \/ In (p, q) (all_pairs l2) \/ (In p l1 /\ In q l2).
Proof.
  induction l1 as [| a l1 IH]; simpl app.
  - simpl. tauto.
  - rewrite !all_pairs_cons, IH, in_app_iff. simpl In. split.
    + intros [[-> [H | H]] | [H | [H | [H1 H2]]]]; auto 6.
    + intros [[[-> H] | H] | [H | [[-> | H1] H2]]]; auto 6.
Qed.

Lemma all_pairs_filter (f : Point -> bool) (l : list Point) (p q : Point) :
  In (p, q) (all_pairs (filter f l)) <->
  In (p, q) (all_pairs l) /\ f p = true /\ f q = true.
Proof.
  induction l as [| a l IH]; simpl filter.
  - simpl. tauto.
  - destruct (f a) eqn:Hfa; rewrite ?all_pairs_cons, IH, ?filter_In.
    + split.
      * intros [[-> [H1 H2]] | [H1 [H2 H3]]]; auto.
      * intros [[[-> H1] | H1] [H2 H3]]; auto.
    + split.
      * intros [H1 [H2 H3]]; auto.
      * intros [[[-> H1] | H1] [H2 H3]]; [congruence | auto].
Qed.

(** Two positions of a list are two positions of any rearrangement of it,
    in one order or the other. *)
Lemma all_pairs_perm (l l' : list Point) (p q : Point) :
  Permutation l l' ->
  In (p, q) (all_pairs l) ->
  In (p, q) (all_pairs l') \/ In (q, p) (all_pairs l').
Proof.
  intros Hperm. revert p q.
  induction Hperm as [| a l l' Hperm IH | a b l | l l' l'' _ IH1 _ IH2];
    intros p q.
  - contradiction.
  - rewrite !all_pairs_cons. intros [[-> Hq] | H].
    + left. left. split; [reflexivity |]. now apply (Permutation_in _ Hperm).
    + destruct (IH _ _ H); auto.
  - rewrite !all_pairs_cons. simpl In.
    intros [[-> [-> | Hq]] | [[-> Hq] | H]]; auto 6.
  - intros H. destruct (IH1 _ _ H) as [H1 | H1];
      destruct (IH2 _ _ H1); auto.
Qed.

Lemma all_pairs_distinct (l : list Point) (p q : Point) :
  In p l -> In q l -> p <> q ->
  In (p, q) (all_pairs l) \/ In (q, p) (all_pairs l).
Proof.
  induction l as [| a l IH]; [contradiction |].
  rewrite !all_pairs_cons. simpl In.
  intros [-> | Hp] [-> | Hq] Hne; auto; try contradiction.
  destruct (IH Hp Hq Hne); auto.
Qed.

(** ** The scans of [closestPairUtil] *)

Lemma attained_cons (a : Point) (l : list Point) (r : Z) :
  attained l r -> attained (a :: l) r.
Proof.
  intros (p & q & H & ->). exists p, q. split; [| reflexivity].
  apply all_pairs_cons. now right.
Qed.

Lemma bruteInner_le (pi : Point) (rest : list Point) :
  forall min_d, bruteInner pi rest min_d <= min_d.
Proof.
  induction rest as [| pj rest IH]; intros min_d; simpl; [lia |].
  specialize (IH (Z.min min_d (distSq pi pj))). lia.
Qed.

Lemma bruteInner_all (pi : Point) (rest : list Point) (q : Point) :
  In q rest -> forall min_d, bruteInner pi rest min_d <= distSq pi q.
Proof.
  induction rest as [| pj rest IH]; [contradiction |].
  intros [-> | Hq] min_d; simpl.
  - pose proof (bruteInner_le pi rest (Z.min min_d (distSq pi q))). lia.
  - now apply IH.
Qed.

Lemma bruteInner_attained (pi : Point) (rest : list Point) :
  forall min_d,
    bruteInner pi rest min_d = min_d
    \/ exists q, In q rest /\ bruteInner pi rest min_d = distSq pi q.
Proof.
  induction rest as [| pj rest IH]; intros min_d; simpl; [now left |].
  destruct (IH (Z.min min_d (distSq pi pj))) as [H | (q & Hq & H)].
  - rewrite H. destruct (Z.min_spec min_d (distSq pi pj)) as [[_ ->] | [_ ->]].
    + now left.
    + right. exists pj. split; [now left | reflexivity].
  - right. exists q. split; [now right | assumption].
Qed.

Lemma bruteForce_le (pts : list Point) :
  forall min_d, bruteForce pts min_d <= min_d.
Proof.
  induction pts as [| pi rest IH]; intros min_d; simpl; [lia |].
  pose proof (IH (bruteInner pi rest min_d)).
  pose proof (bruteInner_le pi rest min_d). lia.
Qed.

Lemma bruteForce_all (pts : list Point) (p q : Point) :
  In (p, q) (all_pairs pts) ->
  forall min_d, bruteForce pts min_d <= distSq p q.
Proof.
  induction pts as [| pi rest IH]; [contradiction |].
  rewrite all_pairs_cons. intros [[-> Hq] | H] min_d; simpl.
  - pose proof (bruteForce_le rest (bruteInner p rest min_d)).
    pose proof (bruteInner_all p rest q Hq min_d). lia.
  - now apply IH.
Qed.

Lemma bruteForce_attained (pts : list Point) :
  forall min_d,
    bruteForce pts min_d = min_d \/ attained pts (bruteForce pts min_d).
Proof.
  induction pts as [| pi rest IH]; intros min_d; simpl; [now left |].
  destruct (IH (bruteInner pi rest min_d)) as [H | H].
  - rewrite H. destruct (bruteInner_attained pi rest min_d) as [-> | (q & Hq & ->)].
    + now left.
    + right. exists pi, q. split; [| reflexivity].
      apply all_pairs_cons. now left.
  - right. now apply attained_cons.
Qed.

Lemma stripInner_le (pi : Point) (rest : list Point) :
  forall min_d, stripInner pi rest min_d <= min_d.
Proof.
  induction rest as [| pj rest IH]; intros min_d; simpl; [lia |].
  destruct (_ <? min_d); [| lia].
  destruct (distSq pi pj <? min_d) eqn:Hlt.
  - apply Z.ltb_lt in Hlt. specialize (IH (distSq pi pj)). lia.
  - apply IH.
Qed.

Lemma stripInner_attained (pi : Point) (rest : list Point) :
  forall min_d,
    stripInner pi rest min_d = min_d
    \/ exists q, In q rest /\ stripInner pi rest min_d = distSq pi q.
Proof.
  induction rest as [| pj rest IH]; intros min_d; simpl; [now left |].
  destruct (_ <? min_d); [| now left].
  destruct (distSq pi pj <? min_d).
  - destruct (IH (distSq pi pj)) as [H | (q & Hq & H)].
    + right. exists pj. split; [now left | assumption].
    + right. exists q. split; [now right | assumption].
  - destruct (IH min_d) as [H | (q & Hq & H)].
    + now left.
    + right. exists q. split; [now right | assumption].
Qed.

(** In a strip sorted by [y], the inner loop does not stop before a point
    that is closer to [pi] than the current minimum: the bound it tests,
    even reduced to [T], is at most the squared distance. *)
Lemma stripInner_all (pi : Point) (rest : list Point) (q : Point) :
  in_range pi -> Forall in_range rest ->
  Forall (yle pi) rest -> StronglySorted yle rest ->
  In q rest ->
  forall min_d, stripInner pi rest min_d <= exact_distSq pi q.
Proof.
  intros Hpi. induction rest as [| pj rest IH]; [contradiction |].
  intros Hrange Hyle Hsorted Hq min_d.
  inversion Hrange as [| ? ? Hpj Hrange']; subst.
  inversion Hyle as [| ? ? Hy Hyle']; subst.
  apply StronglySorted_inv in Hsorted. destruct Hsorted as [Hsorted Hpj_le].
  simpl. rewrite (sub_exact pj.(y) pi.(y)) by (apply Hpj || apply Hpi).
  destruct (Z.ltb_spec (IntT.mul (pj.(y) - pi.(y)) (pj.(y) - pi.(y))) min_d)
    as [Hgo | Hstop].
  - destruct Hq as [-> | Hq].
    + pose proof (stripInner_le pi rest
                    (if distSq pi q <? min_d then distSq pi q else min_d)).
      rewrite <- (distSq_exact pi q) by assumption.
      destruct (Z.ltb_spec (distSq pi q) min_d); lia.
    + now apply IH.
  - assert (Hqy : pj.(y) <= q.(y)).
    { destruct Hq as [-> | Hq]; [lia |].
      rewrite Forall_forall in Hpj_le. now apply Hpj_le. }
    unfold IntT.mul in Hstop.
    pose proof (wrap_le ((pj.(y) - pi.(y)) * (pj.(y) - pi.(y)))
                  (Z.square_nonneg _)).
    unfold yle in Hy. unfold exact_distSq.
    assert ((pj.(y) - pi.(y)) * (pj.(y) - pi.(y))
            <= (pi.(y) - q.(y)) * (pi.(y) - q.(y))) by nia.
    pose proof (Z.square_nonneg (pi.(x) - q.(x))). lia.
Qed.

Lemma stripClosest_le (strip : list Point) :
  forall d, stripClosest strip d <= d.
Proof.
  induction strip as [| pi rest IH]; intros d; simpl; [lia |].
  pose proof (IH (stripInner pi rest d)).
  pose proof (stripInner_le pi rest d). lia.
Qed.

Lemma stripClosest_attained (strip : list Point) :
  forall d, stripClosest strip d = d \/ attained strip (stripClosest strip d).
Proof.
  induction strip as [| pi rest IH]; intros d; simpl; [now left |].
  destruct (IH (stripInner pi rest d)) as [H | H].
  - rewrite H. destruct (stripInner_attained pi rest d) as [-> | (q & Hq & ->)].
    + now left.
    + right. exists pi, q. split; [| reflexivity].
      apply all_pairs_cons. now left.
  - right. now apply attained_cons.
Qed.

Lemma stripClosest_all (strip : list Point) (p q : Point) :
  Forall in_range strip -> StronglySorted yle strip ->
  In (p, q) (all_pairs strip) ->
  forall d, stripClosest strip d <= exact_distSq p q.
Proof.
  induction strip as [| pi rest IH]; [contradiction |].
  intros Hrange Hsorted Hpq d.
  inversion Hrange as [| ? ? Hpi Hrange']; subst.
  apply StronglySorted_inv in Hsorted. destruct Hsorted as [Hsorted Hle].
  apply all_pairs_cons in Hpq. destruct Hpq as [[-> Hq] | Hpq]; simpl.
  - pose proof (stripClosest_le rest (stripInner p rest d)).
    pose proof (stripInner_all p rest q Hpi Hrange' Hle Hsorted Hq d). lia.
  - now apply IH.
Qed.

(** ** Sorted lists cut in two *)

Lemma StronglySorted_app_inv {A : Type} (R : A -> A -> Prop) (l1 l2 : list A) :
  StronglySorted R (l1 ++ l2) ->
  StronglySorted R l1 /\ StronglySorted R l2
  /\ forall a b, In a l1 -> In b l2 -> R a b.
Proof.
  induction l1 as [| c l1 IH]; simpl; intros Hs.
  - repeat split; [constructor | assumption | contradiction].
  - apply StronglySorted_inv in Hs. destruct Hs as [Hs Hc].
    destruct (IH Hs) as (H1 & H2 & H12).
    apply Forall_app in Hc. destruct Hc as [Hc1 Hc2].
    repeat split; [now constructor | assumption |].
    intros a b [-> | Ha] Hb; [| now apply H12].
    rewrite Forall_forall in Hc2. now apply Hc2.
Qed.

Lemma StronglySorted_filter {A : Type} (R : A -> A -> Prop) (f : A -> bool)
    (l : list A) :
  StronglySorted R l -> StronglySorted R (filter f l).
Proof.
  induction 1 as [| a l Hs IH Ha]; simpl; [constructor |].
  destruct (f a); [| assumption].
  constructor; [assumption |].
  rewrite Forall_forall in *. intros b Hb. apply filter_In in Hb. now apply Ha.
Qed.

Lemma Forall_filter_keep {A : Type} (P : A -> Prop) (f : A -> bool) (l : list A) :
  Forall P l -> Forall P (filter f l).
Proof.
  rewrite !Forall_forall. intros H a Ha. apply filter_In in Ha. now apply H.
Qed.

Lemma last_in (l : list Point) : l <> [] -> In (last l origin) l.
Proof.
  induction l as [| a l IH]; [congruence |]. intros _.
  destruct l as [| b l]; [now left |].
  right. apply IH. discriminate.
Qed.

Lemma last_app_r (l1 l2 : list Point) :
  l2 <> [] -> last (l1 ++ l2) origin = last l2 origin.
Proof.
  intros H. induction l1 as [| a l1 IH]; [reflexivity |].
  simpl app. destruct (l1 ++ l2) eqn:E; [| exact IH].
  apply app_eq_nil in E. tauto.
Qed.

Lemma sorted_le_last (l : list Point) (p : Point) :
  StronglySorted lexle l -> In p l -> lexle p (last l origin).
Proof.
  induction 1 as [| a l Hs IH Ha]; [contradiction |].
  intros [-> | Hp].
  - destruct l as [| b l]; [unfold lexle; simpl; lia |].
    rewrite Forall_forall in Ha. apply Ha.
    apply (last_in (b :: l)). discriminate.
  - destruct l as [| b l]; [contradiction |]. now apply IH.
Qed.

Lemma at_skipn (l : list Point) (k : nat) :
  at_ l k = hd origin (skipn k l).
Proof.
  unfold at_. revert l. induction k as [| k IH]; intros [| a l]; simpl;
    try reflexivity. apply IH.
Qed.

(** ** The divide step *)

Section Divide.
Variables (xL' xR' Y : list Point) (a m c : Point).

Let xL := xL' ++ [a].
Let xR := m :: c :: xR'.
Let X := xL ++ xR.
Let yL := filter (inLeft m) Y.
Let yR := filter (fun p => negb (inLeft m p)) Y.

Hypothesis X_sorted : StronglySorted lexle X.
Hypothesis Y_sorted : StronglySorted yle Y.
Hypothesis Y_range : Forall in_range Y.
Hypothesis X_feeds : feeds X Y.

Lemma last_X : last X origin = last xR origin.
Proof. apply last_app_r. discriminate. Qed.

Lemma last_xL : last xL origin = a.
Proof. apply last_last. Qed.

Lemma xL_le_a (p : Point) : In p xL -> lexle p a.
Proof.
  intros Hp. rewrite <- last_xL. apply sorted_le_last; [| assumption].
  now apply (StronglySorted_app_inv _ _ _ X_sorted).
Qed.

Lemma a_le_m : lexle a m.
Proof.
  apply (StronglySorted_app_inv _ _ _ X_sorted).
  - apply in_or_app. right. now left.
  - now left.
Qed.

Lemma m_le_xR (q : Point) : In q xR -> lexle m q.
Proof.
  intros [-> | Hq]; [unfold lexle; lia |].
  destruct (StronglySorted_app_inv _ _ _ X_sorted) as (_ & HR & _).
  apply StronglySorted_inv in HR. destruct HR as [_ HR].
  rewrite Forall_forall in HR. now apply HR.
Qed.

Lemma X_le_last (p : Point) : In p X -> lexle p (last X origin).
Proof. now apply sorted_le_last. Qed.

Lemma m_le_last : lexle m (last X origin).
Proof. rewrite last_X. apply m_le_xR. apply last_in. discriminate. Qed.

Lemma feeds_left : feeds xL yL.
Proof.
  intros v Hv. rewrite last_xL in Hv.
  assert (Hvm : lexlt v m) by (eapply lexlt_le_trans; [exact Hv | exact a_le_m]).
  assert (HvX : lexlt v (last X origin))
    by (eapply lexlt_le_trans; [exact Hvm | exact m_le_last]).
  destruct (X_feeds v HvX) as [H1 H2]. split; intros H.
  - apply filter_In. split; [| now apply inLeft_true].
    apply H1. apply in_or_app. now left.
  - apply all_pairs_filter. split; [| split; now apply inLeft_true].
    apply H2. apply all_pairs_app. now left.
Qed.

Lemma feeds_right : feeds xR yR.
Proof.
  intros v Hv. rewrite <- last_X in Hv.
  destruct (X_feeds v Hv) as [H1 H2].
  assert (Hin : In v xR -> negb (inLeft m v) = true).
  { intros H. apply negb_true_iff, inLeft_false. now apply m_le_xR. }
  split; intros H.
  - apply filter_In. split; [| now apply Hin].
    apply H1. apply in_or_app. now right.
  - apply all_pairs_filter.
    split; [| split; apply Hin; now apply (all_pairs_in xR v v)].
    apply H2. apply all_pairs_app. right. now left.
Qed.

Variables dL dR : Z.
Hypothesis left_ok : below_pairs xL yL dL.
Hypothesis right_ok : below_pairs xR yR dR.

Let d := Z.min dL dR.
Let strip := filter (inStrip m d) Y.
Let result := Z.min d (stripClosest strip d).

Lemma strip_pair (p q : Point) :
  In (p, q) (all_pairs Y) ->
  inStrip m d p = true -> inStrip m d q = true ->
  result <= exact_distSq p q.
Proof.
  intros Hpq Hp Hq.
  assert (stripClosest strip d <= exact_distSq p q); [| unfold result; lia].
  apply stripClosest_all.
  - now apply Forall_filter_keep.
  - now apply StronglySorted_filter.
  - apply all_pairs_filter. auto.
Qed.

(** A copy of [midPoint] on the left: the result is [0]. *)
Lemma twin_of_midPoint : a = m -> result <= 0.
Proof.
  intros Ham.
  assert (Hmm : exact_distSq m m = 0) by (unfold exact_distSq; lia).
  destruct (lexle_lt_or_eq m c) as [Hmc | <-].
  { apply m_le_xR. right. now left. }
  - assert (HmX : lexlt m (last X origin)).
    { eapply lexlt_le_trans; [exact Hmc |]. rewrite last_X.
      apply sorted_le_last.
      - now apply (StronglySorted_app_inv _ _ _ X_sorted).
      - right. now left. }
    destruct (X_feeds m HmX) as [_ H2].
    assert (HY : In (m, m) (all_pairs Y)).
    { apply H2. apply all_pairs_app. right. right. split.
      - rewrite <- Ham. apply in_or_app. right. now left.
      - now left. }
    destruct (Z.le_gt_cases d 0) as [Hd | Hd]; [unfold result; lia |].
    rewrite <- Hmm. apply strip_pair; try assumption;
      unfold inStrip; rewrite Z.sub_diag; simpl; now apply Z.ltb_lt.
  - assert (dR <= exact_distSq m m); [| unfold result, d; lia].
    apply right_ok; [| now left].
    apply all_pairs_cons. left. split; [reflexivity | now left].
Qed.

Lemma divide_below_pairs : below_pairs X Y result.
Proof.
  intros p q Hpq Hlast.
  destruct (lexle_lt_or_eq a m a_le_m) as [Ham | Ham].
  2:{ pose proof (twin_of_midPoint Ham). pose proof (exact_distSq_nonneg p q). lia. }
  assert (HmX : lexlt a (last X origin))
    by (eapply lexlt_le_trans; [exact Ham | exact m_le_last]).
  apply all_pairs_app in Hpq. destruct Hpq as [Hpq | [Hpq | [Hp Hq]]].
  - assert (dL <= exact_distSq p q); [| unfold result, d; lia].
    apply left_ok; [assumption |]. right. rewrite last_xL.
    apply filter_In. split; [| now apply inLeft_true].
    apply (X_feeds a HmX). apply in_or_app. left. apply in_or_app. right. now left.
  - assert (dR <= exact_distSq p q); [| unfold result, d; lia].
    apply right_ok; [assumption |].
    destruct Hlast as [-> | Hlast]; [now left | right].
    rewrite <- last_X. apply filter_In. split; [assumption |].
    apply negb_true_iff, inLeft_false, m_le_last.
  - assert (Hpm : lexlt p m)
      by (eapply lexle_lt_trans; [apply (xL_le_a p Hp) | exact Ham]).
    assert (Hmq : lexle m q) by now apply m_le_xR.
    assert (Hne : p <> q).
    { intros ->. apply (lexlt_irrefl q).
      eapply lexlt_le_trans; eassumption. }
    destruct Hlast as [Heq | Hlast]; [contradiction |].
    assert (HpY : In p Y).
    { apply (X_feeds p).
      - eapply lexlt_le_trans; [exact Hpm | exact m_le_last].
      - apply in_or_app. now left. }
    assert (HqY : In q Y).
    { destruct (lexle_lt_or_eq q (last X origin)) as [Hq' | ->];
        [apply X_le_last; apply in_or_app; now right | | assumption].
      apply (X_feeds q Hq'). apply in_or_app. now right. }
    destruct (Z.le_gt_cases d (exact_distSq p q)) as [Hd | Hd];
      [unfold result; lia |].
    assert (Hx : p.(x) <= m.(x) <= q.(x))
      by (unfold lexlt, lexle in Hpm, Hmq; lia).
    assert (Hsp : inStrip m d p = true).
    { unfold inStrip. apply Z.ltb_lt. unfold exact_distSq in Hd.
      pose proof (Z.square_nonneg (p.(y) - q.(y))). nia. }
    assert (Hsq : inStrip m d q = true).
    { unfold inStrip. apply Z.ltb_lt. unfold exact_distSq in Hd.
      pose proof (Z.square_nonneg (p.(y) - q.(y))). nia. }
    destruct (all_pairs_distinct Y p q HpY HqY Hne) as [H | H].
    + now apply strip_pair.
    + rewrite exact_distSq_sym. now apply strip_pair.
Qed.
End Divide.

(** ** [closestPairUtil] *)

(** The cut of [pointsX] at [mid]: a last point on the left, and
    [midPoint] followed by at least one more point on the right. *)
Lemma cut_shape (X : list Point) :
  (3 < length X)%nat ->
  exists xL' a c xR',
    firstn (length X / 2) X = xL' ++ [a]
    /\ skipn (length X / 2) X = at_ X (length X / 2) :: c :: xR'.
Proof.
  intros Hn.
  assert (Hmid : (2 <= length X / 2 /\ length X / 2 + 2 <= length X)%nat).
  { pose proof (Nat.div_mod_eq (length X) 2).
    pose proof (Nat.mod_upper_bound (length X) 2). lia. }
  destruct (exists_last (l := firstn (length X / 2) X)) as (xL' & a & HL).
  { intros E. apply (f_equal (@length Point)) in E.
    rewrite length_firstn in E. cbn [length] in E. lia. }
  pose proof (length_skipn (length X / 2) X) as Hlen.
  rewrite at_skipn.
  destruct (skipn (length X / 2) X) as [| m [| c xR']]; cbn [length] in Hlen;
    try lia.
  exists xL', a, c, xR'. split; [assumption | reflexivity].
Qed.

Lemma closestPairUtil_below (X Y : list Point) :
  StronglySorted lexle X -> StronglySorted yle Y ->
  Forall in_range X -> Forall in_range Y ->
  feeds X Y ->
  below_pairs X Y (closestPairUtil X Y).
Proof.
  apply (closestPairUtil_elim
           (fun X Y r =>
              StronglySorted lexle X -> StronglySorted yle Y ->
              Forall in_range X -> Forall in_range Y ->
              feeds X Y -> below_pairs X Y r)); clear X Y.
  - intros X _ Y _ _ _ HX _ _ p q Hpq _.
    rewrite Forall_forall in HX.
    destruct (all_pairs_in X p q Hpq) as [Hp Hq].
    rewrite <- distSq_exact by auto. now apply bruteForce_all.
  - intros X Hn Y IHL IHR _ HXs HYs HXr HYr Hfeeds. cbv zeta in *.
    destruct (cut_shape X Hn) as (xL' & a & c & xR' & HL & HR).
    pose proof (firstn_skipn (length X / 2) X) as HX.
    rewrite HL in IHL. rewrite HR in IHR. rewrite HL, HR in HX |- *.
    set (m := at_ X (length X / 2)) in *. clearbody m. clear HL HR Hn.
    subst X.
    destruct (StronglySorted_app_inv _ _ _ HXs) as (HLs & HRs & _).
    apply Forall_app in HXr. destruct HXr as [HLr HRr].
    apply divide_below_pairs; try assumption.
    + apply IHL; try assumption.
      * now apply StronglySorted_filter.
      * now apply Forall_filter_keep.
      * now apply (feeds_left xL' xR' Y a m c).
    + apply IHR; try assumption.
      * now apply StronglySorted_filter.
      * now apply Forall_filter_keep.
      * now apply (feeds_right xL' xR' Y a m c).
Qed.

(** The result is [LDBL_MAX] or the squared distance of two positions of
    [pointsX] or of [pointsY]. *)
Lemma closestPairUtil_attained (X Y : list Point) :
  closestPairUtil X Y = LDBL_MAX
  \/ attained X (closestPairUtil X Y) \/ attained Y (closestPairUtil X Y).
Proof.
  apply (closestPairUtil_elim
           (fun X Y r => r = LDBL_MAX \/ attained X r \/ attained Y r));
    clear X Y.
  - intros X _ Y _.
    destruct (bruteForce_attained X LDBL_MAX) as [H | H]; auto.
  - intros X Hn Y IHL IHR _. cbv zeta in *.
    set (m := at_ X (length X / 2)) in *.
    set (dL := closestPairUtil (firstn _ _) _) in *.
    set (dR := closestPairUtil (skipn _ _) _) in *.
    assert (Hsub : forall (A B : list Point) r,
               (forall p q, In (p, q) (all_pairs A) -> In (p, q) (all_pairs B)) ->
               attained A r -> attained B r).
    { intros A B r HAB (p & q & Hpq & ->). exists p, q. auto. }
    assert (HfY : forall f r, attained (filter f Y) r -> attained Y r).
    { intros f r. apply Hsub. intros p q H. now apply all_pairs_filter in H. }
    assert (Hd : Z.min dL dR = LDBL_MAX
                 \/ attained X (Z.min dL dR) \/ attained Y (Z.min dL dR)).
    { pose proof (firstn_skipn (length X / 2) X) as HX.
      destruct (Z.min_spec dL dR) as [[_ ->] | [_ ->]].
      - destruct IHL as [H | [H | H]]; [now left | right; left | right; right].
        + revert H. apply Hsub. intros p q H. rewrite <- HX.
          apply all_pairs_app. now left.
        + exact (HfY _ _ H).
      - destruct IHR as [H | [H | H]]; [now left | right; left | right; right].
        + revert H. apply Hsub. intros p q H. rewrite <- HX.
          apply all_pairs_app. right. now left.
        + exact (HfY _ _ H). }
    set (d := Z.min dL dR) in *.
    pose proof (stripClosest_le (filter (inStrip m d) Y) d) as Hle.
    destruct (stripClosest_attained (filter (inStrip m d) Y) d) as [H | H].
    + rewrite H, Z.min_id. exact Hd.
    + rewrite Z.min_r by exact Hle. right. right. exact (HfY _ _ H).
Qed.

(** ** [closestPair] on inputs in range *)

Lemma exact_distSq_bound (p q : Point) :
  in_range p -> in_range q -> exact_distSq p q < LDBL_MAX.
Proof.
  intros [Hpx Hpy] [Hqx Hqy].
  assert (H : 2 ^ 63 < LDBL_MAX) by (vm_compute; reflexivity).
  assert (exact_distSq p q <= 2 ^ 63); [| lia].
  unfold exact_distSq.
  assert (Hsq : forall u, - 2 ^ 31 <= u <= 2 ^ 31 -> u * u <= 2 ^ 62) by (intros; nia).
  pose proof (Hsq (p.(x) - q.(x)) ltac:(lia)).
  pose proof (Hsq (p.(y) - q.(y)) ltac:(lia)). lia.
Qed.

Lemma all_pairs_exists (l : list Point) :
  (2 <= length l)%nat -> exists p q, In (p, q) (all_pairs l).
Proof.
  destruct l as [| p [| q l]]; simpl; try lia. intros _.
  exists p, q. now left.
Qed.

(** Whatever order [std::sort] leaves points of equal [y] in. *)
Lemma closestPairUtil_min (points pointsY : list Point) :
  Forall in_range points -> (2 <= length points)%nat ->
  Permutation points pointsY -> StronglySorted yle pointsY ->
  is_min_distSq points (closestPairUtil (std_sort Point_lt points) pointsY).
Proof.
  intros Hrange Hlen HpermY HsortedY.
  set (X := std_sort Point_lt points).
  assert (HpermX : Permutation points X) by apply std_sort_perm.
  assert (HXY : Permutation X pointsY)
    by (rewrite <- HpermX; exact HpermY).
  assert (HrX : Forall in_range X) by (now rewrite <- HpermX).
  assert (HrY : Forall in_range pointsY) by (now rewrite <- HpermY).
  assert (Hbelow : below_pairs X pointsY (closestPairUtil X pointsY)).
  { apply closestPairUtil_below; try assumption.
    - apply sort_lex_sorted.
    - intros v _. split; intros H.
      + now apply (Permutation_in _ HXY).
      + destruct (all_pairs_perm _ _ _ _ HXY H); assumption. }
  assert (HlastY : In (last X origin) pointsY).
  { apply (Permutation_in _ HXY). apply last_in. intros E.
    apply Permutation_length in HpermX. rewrite E in HpermX. simpl in HpermX. lia. }
  assert (Hupper : forall p q, In (p, q) (all_pairs points) ->
            closestPairUtil X pointsY <= exact_distSq p q).
  { intros p q Hpq.
    destruct (all_pairs_perm _ _ _ _ HpermX Hpq) as [H | H].
    - apply Hbelow; auto.
    - rewrite exact_distSq_sym. apply Hbelow; auto. }
  split; [| exact Hupper].
  assert (Hfrom : forall l, Permutation points l ->
            attained l (closestPairUtil X pointsY) ->
            exists p q, In (p, q) (all_pairs points)
                        /\ closestPairUtil X pointsY = exact_distSq p q).
  { intros l Hl (p & q & Hpq & Heq).
    assert (Hp : in_range p /\ in_range q).
    { rewrite Forall_forall in Hrange.
      destruct (all_pairs_in l p q Hpq).
      split; apply Hrange; apply (Permutation_in _ (Permutation_sym Hl));
        assumption. }
    rewrite distSq_exact in Heq by tauto.
    destruct (all_pairs_perm _ _ _ _ (Permutation_sym Hl) Hpq) as [H | H].
    - now exists p, q.
    - exists q, p. split; [assumption |]. now rewrite exact_distSq_sym. }
  destruct (closestPairUtil_attained X pointsY) as [Hmax | [H | H]].
  - exfalso. destruct (all_pairs_exists points Hlen) as (p & q & Hpq).
    pose proof (Hupper p q Hpq).
    destruct (all_pairs_in points p q Hpq).
    rewrite Forall_forall in Hrange.
    pose proof (exact_distSq_bound p q ltac:(auto) ltac:(auto)). lia.
  - now apply (Hfrom X).
  - now apply (Hfrom pointsY).
Qed.

(** X11: on two or more points with coordinates in [[-2^30, 2^30)],
    [closestPair] returns the minimum distance between two positions of the input. *)
Theorem closestPair_in_range (points : list Point) :
  Forall in_range points -> (2 <= length points)%nat ->
  is_min_dist points (closestPair points).
Proof.
  intros Hrange Hlen.
  unfold closestPair, closestPair_run.
  destruct (Nat.ltb_spec (length points) 2) as [H | _]; [lia |]. cbn [fst].
  destruct (closestPairUtil_min points (std_sort sortByY points) Hrange Hlen)
    as [(p & q & Hpq & Heq) Hall].
  - apply std_sort_perm.
  - apply sort_y_sorted.
  - split.
    + exists p, q. split; [assumption |]. unfold distance. now rewrite Heq.
    + intros p' q' Hpq'. unfold distance. apply sqrt_le_1_alt, IZR_le.
      now apply Hall.
Qed.

Lemma closestPair_in_range_witness :
  is_min_dist [mkPoint 0 0; mkPoint 3 0; mkPoint 0 4]
    (closestPair [mkPoint 0 0; mkPoint 3 0; mkPoint 0 4]).
Proof.
  apply closestPair_in_range.
  - repeat constructor; vm_compute; intros H; discriminate H.
  - simpl. lia.
Defined.
(** ** The scans of the convex hull, on the exact integers *)

Section Scan.
Variable le : Point -> Point -> Prop.
Hypothesis le_refl : forall a, le a a.
Hypothesis le_trans : forall a b c, le a b -> le b c -> le a c.
Hypothesis le_antisym : forall a b, le a b -> le b a -> a = b.
Hypothesis le_total : forall a b, le a b \/ le b a.

(** Four facts on points met in the order [le]. *)
Hypothesis turn_extends : forall a b c p,
  le a b -> le b c -> le c p ->
  0 < left_of a b c -> 0 < left_of b c p -> 0 < left_of a b p.
Hypothesis pop_right : forall a b p q,
  le a b -> a <> b -> le b q -> le q p ->
  left_of a b p <= 0 -> 0 <= left_of a b q -> 0 <= left_of b p q ->
  0 <= left_of a p q.
Hypothesis pop_between : forall a b p q,
  le a b -> a <> b -> le a q -> le a p ->
  left_of a b p <= 0 -> 0 <= left_of a b q -> 0 <= left_of a p q.
Hypothesis push_left : forall a b p q,
  le a b -> le b p -> le q b ->
  0 < left_of a b p -> 0 <= left_of a b q -> 0 <= left_of b p q.

Lemma left_of_same_1 (a q : Point) : left_of a a q = 0.
Proof. unfold left_of. lia. Qed.

Lemma left_of_same_2 (a b : Point) : left_of a b b = 0.
Proof. unfold left_of. lia. Qed.

Lemma left_of_same_3 (a b : Point) : left_of a b a = 0.
Proof. unfold left_of. lia. Qed.

(** The [while] loop of one iteration, started with a chain whose back
    sees every scanned point at or after it on the left of the segment
    towards [p]. *)
Lemma popExact_inv (p : Point) (P : list Point) :
  (forall q, In q P -> le q p) ->
  forall S,
    scan_inv le S P ->
    (forall q, In q P -> le (hd origin S) q -> 0 <= left_of (hd origin S) p q) ->
    let S' := popExact S p in
    scan_inv le S' P
    /\ (forall q, In q P -> le (hd origin S') q ->
          0 <= left_of (hd origin S') p q)
    /\ match S' with
       | b :: a :: _ => 0 < left_of a b p
       | _ => True
       end.
Proof.
  intros HP. induction S as [| b S IH]; intros Hinv Hsee; cbv zeta;
    [simpl; auto |].
  destruct S as [| a rest]; [simpl; auto |].
  cbn [popExact]. destruct (Z.ltb_spec 0 (left_of a b p)) as [Hturn | Hturn].
  - auto.
  - destruct Hinv as [Hs Hc Hl Hsub Hbot Hne].
    apply StronglySorted_inv in Hs. destruct Hs as [Hs Hb].
    assert (Hab : le a b) by (inversion Hb; assumption).
    apply IH.
    + constructor.
      * exact Hs.
      * destruct rest as [| a' rest']; [exact I |].
        destruct rest' as [| a'' rest'']; [exact I |]. apply Hc.
      * intros q Hq. now apply (Hl q Hq).
      * intros s Hin. apply Hsub. now right.
      * exact Hbot.
      * discriminate.
    + cbn [hd] in *. intros q Hq Haq.
      destruct (Hl q Hq) as [Habq _].
      destruct (Point_eq_dec a b) as [-> | Hne'].
      * now apply Hsee.
      * destruct (le_total b q) as [Hbq | Hqb].
        -- apply (pop_right a b p q); auto.
        -- apply (pop_between a b p q); auto.
           apply (le_trans _ q); auto.
Qed.

(** The new point is on the left of every edge the loop has kept. *)
Lemma chain_left_new (p : Point) :
  forall rest a b,
    StronglySorted (fun b a => le a b) (b :: a :: rest) ->
    convex_chain (b :: a :: rest) ->
    le b p -> 0 < left_of a b p ->
    chain_left (b :: a :: rest) p.
Proof.
  induction rest as [| a' rest IH]; intros a b Hs Hc Hbp Hturn.
  - simpl. split; [lia | exact I].
  - cbn [chain_left]. split; [lia |].
    apply StronglySorted_inv in Hs. destruct Hs as [Hs Hb].
    assert (Hab : le a b) by (inversion Hb; assumption).
    assert (Ha'a : le a' a).
    { apply StronglySorted_inv in Hs. destruct Hs as [_ Ha].
      inversion Ha; assumption. }
    destruct Hc as [Hc1 Hc2].
    apply IH; try assumption.
    + now apply (le_trans _ b).
    + apply (turn_extends a' a b p); assumption.
Qed.

(** [push_back] after the loop. *)
Lemma push_inv (p : Point) (P S : list Point) :
  (forall q, In q P -> le q p) ->
  scan_inv le S P ->
  (forall q, In q P -> le (hd origin S) q -> 0 <= left_of (hd origin S) p q) ->
  match S with
  | b :: a :: _ => 0 < left_of a b p
  | _ => True
  end ->
  scan_inv le (p :: S) (p :: P).
Proof.
  intros HP [Hs Hc Hl Hsub Hbot Hne] Hsee Hturn.
  assert (HSp : forall s, In s S -> le s p) by auto.
  constructor.
  - constructor; [assumption |]. now apply Forall_forall.
  - destruct S as [| b [| a rest]]; try exact I. split; assumption.
  - intros q Hq. destruct S as [| b S0]; [exact I |].
    assert (Hrest : chain_left (b :: S0) q).
    { destruct Hq as [<- | Hq]; [| now apply Hl].
      destruct S0 as [| a rest]; [exact I |].
      apply chain_left_new; try assumption. apply HSp. now left. }
    assert (Hedge : 0 <= left_of b p q).
    { destruct Hq as [<- | Hq]; [rewrite left_of_same_2; lia |].
      cbn [hd] in Hsee.
      destruct (le_total b q) as [Hbq | Hqb]; [now apply Hsee |].
      destruct S0 as [| a rest].
      - apply Hsee; [assumption |]. now apply (Hbot q).
      - apply (push_left a b p q); try assumption.
        + apply StronglySorted_inv in Hs. destruct Hs as [_ Hb].
          inversion Hb; assumption.
        + apply HSp. now left.
        + now destruct (Hl q Hq). }
    destruct S0; (split; [exact Hedge | apply Hrest]).
  - intros s [<- | Hin]; [now left | right; now apply Hsub].
  - intros q Hq. destruct S as [| b S0].
    + rewrite (Hne eq_refl) in Hq. destruct Hq as [<- | []]. apply le_refl.
    + change (last (p :: b :: S0) origin) with (last (b :: S0) origin).
      destruct Hq as [<- | Hq]; [| now apply Hbot].
      apply HSp. apply last_in. discriminate.
  - discriminate.
Qed.

(** A whole scan, over points that come in the order [le]. *)
Lemma scan_fold :
  forall pts S P,
    scan_inv le S P ->
    (forall q, In q P -> le q (hd origin S)) ->
    StronglySorted le pts ->
    (forall q p, In q P -> In p pts -> le q p) ->
    scan_inv le (fold_left scanExact pts S) (rev pts ++ P).
Proof.
  induction pts as [| p pts IH]; intros S P Hinv Htop Hs HP; [exact Hinv |].
  apply StronglySorted_inv in Hs. destruct Hs as [Hs Hp].
  rewrite Forall_forall in Hp.
  cbn [fold_left rev]. rewrite <- app_assoc. cbn [app].
  assert (HPp : forall q, In q P -> le q p) by (intros; apply HP; [| left]; auto).
  destruct (popExact_inv p P HPp S Hinv) as (Hinv' & Hsee' & Hturn').
  { intros q Hq Hhq.
    rewrite (le_antisym q (hd origin S)); auto. rewrite left_of_same_3. lia. }
  apply IH.
  - now apply push_inv.
  - cbn [hd]. intros q [<- | Hq]; auto.
  - assumption.
  - intros q p' [<- | Hq] Hp'; [auto | apply HP; [| right]; auto].
Qed.
End Scan.

(** ** The two orders satisfy the four facts *)

Ltac coords :=
  repeat match goal with p : Point |- _ => destruct p end;
  unfold left_of, lexlt, lexle in *; cbn [x y] in *.

Lemma lex_turn_extends (a b c p : Point) :
  lexle a b -> lexle b c -> lexle c p ->
  0 < left_of a b c -> 0 < left_of b c p -> 0 < left_of a b p.
Proof. coords. intros. nia. Qed.

Lemma lex_pop_right (a b p q : Point) :
  lexle a b -> a <> b -> lexle b q -> lexle q p ->
  left_of a b p <= 0 -> 0 <= left_of a b q -> 0 <= left_of b p q ->
  0 <= left_of a p q.
Proof. intros H Hne. clear Hne. revert H. coords. intros. nia. Qed.

Lemma lex_pop_between (a b p q : Point) :
  lexle a b -> a <> b -> lexle a q -> lexle a p ->
  left_of a b p <= 0 -> 0 <= left_of a b q -> 0 <= left_of a p q.
Proof.
  intros H Hne.
  assert (Hlt : lexlt a b) by (destruct (lexle_lt_or_eq a b H); tauto).
  clear H Hne. revert Hlt. coords. intros. nia.
Qed.

Lemma lex_push_left (a b p q : Point) :
  lexle a b -> lexle b p -> lexle q b ->
  0 < left_of a b p -> 0 <= left_of a b q -> 0 <= left_of b p q.
Proof. coords. intros. nia. Qed.

Lemma rev_turn_extends (a b c p : Point) :
  lexle b a -> lexle c b -> lexle p c ->
  0 < left_of a b c -> 0 < left_of b c p -> 0 < left_of a b p.
Proof. coords. intros. nia. Qed.

Lemma rev_pop_right (a b p q : Point) :
  lexle b a -> a <> b -> lexle q b -> lexle p q ->
  left_of a b p <= 0 -> 0 <= left_of a b q -> 0 <= left_of b p q ->
  0 <= left_of a p q.
Proof. intros H Hne. clear Hne. revert H. coords. intros. nia. Qed.

Lemma rev_pop_between (a b p q : Point) :
  lexle b a -> a <> b -> lexle q a -> lexle p a ->
  left_of a b p <= 0 -> 0 <= left_of a b q -> 0 <= left_of a p q.
Proof.
  intros H Hne.
  assert (Hlt : lexlt b a).
  { destruct (lexle_lt_or_eq b a H); [assumption | congruence]. }
  clear H Hne. revert Hlt. coords. intros. nia.
Qed.

Lemma rev_push_left (a b p q : Point) :
  lexle b a -> lexle p b -> lexle b q ->
  0 < left_of a b p -> 0 <= left_of a b q -> 0 <= left_of b p q.
Proof. coords. intros. nia. Qed.

Lemma scan_inv_nil (le : Point -> Point -> Prop) : scan_inv le [] [].
Proof. constructor; try (intros; contradiction); try constructor; auto. Qed.

Lemma StronglySorted_rev {A : Type} (R : A -> A -> Prop) (l : list A) :
  StronglySorted R l -> StronglySorted (fun b a => R a b) (rev l).
Proof.
  induction 1 as [| a l Hs IH Ha]; simpl; [constructor |].
  assert (Hgen : forall l', StronglySorted (fun b a => R a b) l' ->
            Forall (fun b => R a b) l' ->
            StronglySorted (fun b a => R a b) (l' ++ [a])).
  { induction l' as [| c l' IHl]; intros Hs' Hall; simpl.
    - repeat constructor.
    - apply StronglySorted_inv in Hs'. destruct Hs' as [Hs' Hc].
      inversion Hall; subst.
      constructor; [now apply IHl |].
      apply Forall_app. split; [assumption | now repeat constructor]. }
  apply Hgen; [assumption |].
  apply Forall_forall. intros b Hb. apply in_rev in Hb.
  rewrite Forall_forall in Ha. now apply Ha.
Qed.

(** The first scan leaves the lower chain, the second the upper one. *)
Lemma lower_scan (pts : list Point) :
  StronglySorted lexle pts ->
  scan_inv lexle (fold_left scanExact pts []) (rev pts).
Proof.
  intros Hs. rewrite <- (app_nil_r (rev pts)).
  apply scan_fold; try assumption; try (intros; contradiction).
  - apply lexle_refl.
  - intros a b c. apply lexle_trans.
  - apply lexle_antisym.
  - apply lexle_total.
  - apply lex_turn_extends.
  - apply lex_pop_right.
  - apply lex_pop_between.
  - apply lex_push_left.
  - apply scan_inv_nil.
Qed.

Lemma upper_scan (pts : list Point) :
  StronglySorted lexle pts ->
  scan_inv (fun a b => lexle b a) (fold_left scanExact (rev pts) []) pts.
Proof.
  intros Hs. rewrite <- (rev_involutive pts) at 2.
  rewrite <- (app_nil_r (rev (rev pts))).
  apply scan_fold; try (intros; contradiction).
  - intros a. apply lexle_refl.
  - intros a b c H1 H2. now apply (lexle_trans c b a).
  - intros a b H1 H2. now apply lexle_antisym.
  - intros a b. apply lexle_total.
  - apply rev_turn_extends.
  - apply rev_pop_right.
  - apply rev_pop_between.
  - apply rev_push_left.
  - apply scan_inv_nil.
  - now apply StronglySorted_rev.
Qed.

(** ** The scans of [convexHull] *)

Lemma left_of_exact_val (a b p : Point) : left_of a b p = - exact_val a b p.
Proof. unfold left_of, exact_val. lia. Qed.

Lemma orientation_turn (a b p : Point) :
  in_range a -> in_range b -> in_range p ->
  (orientation a b p =? 2) = (0 <? left_of a b p).
Proof.
  intros Ha Hb Hp. rewrite orientation_spec, orientation_val_exact by assumption.
  rewrite left_of_exact_val.
  destruct (Z.eqb_spec (exact_val a b p) 0) as [-> | Hne]; [reflexivity |].
  destruct (Z.ltb_spec 0 (exact_val a b p)); simpl; symmetry.
  - apply Z.ltb_ge. lia.
  - apply Z.ltb_lt. lia.
Qed.

Lemma popWhile_incl (lim : nat) (p s : Point) (hull : list Point) :
  In s (popWhile lim hull p) -> In s hull.
Proof.
  induction hull as [| b hull IH]; [auto |].
  destruct hull as [| a rest]; [auto |].
  cbn [popWhile].
  destruct ((lim <=? length (b :: a :: rest))%nat
            && negb (orientation a b p =? 2)); [| auto].
  intros H. right. now apply IH.
Qed.

Lemma popExact_incl (p s : Point) (hull : list Point) :
  In s (popExact hull p) -> In s hull.
Proof.
  induction hull as [| b hull IH]; [auto |].
  destruct hull as [| a rest]; [auto |].
  cbn [popExact]. destruct (0 <? left_of a b p); [auto |].
  intros H. right. now apply IH.
Qed.

Lemma scan_incl (lim : nat) (s : Point) (pts : list Point) :
  forall hull,
    In s (fold_left (scanStep lim) pts hull) -> In s pts \/ In s hull.
Proof.
  induction pts as [| p pts IH]; intros hull H; [now right |].
  apply IH in H. destruct H as [H | [<- | H]].
  - left. now right.
  - left. now left.
  - right. now apply popWhile_incl in H.
Qed.

Lemma popWhile_exact (p : Point) (hull : list Point) :
  in_range p -> Forall in_range hull ->
  popWhile 2 hull p = popExact hull p.
Proof.
  intros Hp. induction hull as [| b hull IH]; intros Hr; [reflexivity |].
  destruct hull as [| a rest]; [reflexivity |].
  inversion Hr as [| ? ? Hb Hr']; subst.
  inversion Hr' as [| ? ? Ha _]; subst.
  cbn [popWhile popExact length Nat.leb andb].
  rewrite orientation_turn by assumption.
  destruct (0 <? left_of a b p); [reflexivity |]. now apply IH.
Qed.

Lemma scan_exact (pts : list Point) :
  Forall in_range pts ->
  forall hull, Forall in_range hull ->
    fold_left (scanStep 2) pts hull = fold_left scanExact pts hull.
Proof.
  induction 1 as [| p pts Hp Hpts IH]; intros hull Hr; [reflexivity |].
  cbn [fold_left]. unfold scanStep at 2. rewrite popWhile_exact by assumption.
  apply IH. constructor; [assumption |].
  apply Forall_forall. intros s Hs. apply popExact_incl in Hs.
  rewrite Forall_forall in Hr. now apply Hr.
Qed.

(** The second scan never pops below the size [t]: it works on the chain
    above the last point of the first scan, as a scan with bound [2]. *)
Lemma popWhile_above (L' : list Point) (sk p : Point) :
  forall U,
    popWhile (length L' + 2) (U ++ sk :: L') p
    = popWhile 2 (U ++ [sk]) p ++ L'.
Proof.
  induction U as [| u U IH].
  - destruct L' as [| a L'']; [reflexivity |].
    cbn [app popWhile length].
    replace (S (length L'') + 2 <=? S (S (length L'')))%nat with false
      by (symmetry; apply Nat.leb_gt; lia).
    reflexivity.
  - assert (Hhd : exists h T, U ++ sk :: L' = h :: T ++ L' /\ U ++ [sk] = h :: T).
    { destruct U as [| u' U'].
      - exists sk, []. split; reflexivity.
      - exists u', (U' ++ [sk]). split; [| reflexivity].
        simpl. now rewrite <- app_assoc. }
    destruct Hhd as (h & T & H1 & H2).
    cbn [app]. rewrite H1 in *. rewrite H2 in *.
    cbn [popWhile].
    replace (length L' + 2 <=? length (u :: h :: T ++ L'))%nat with true
      by (symmetry; apply Nat.leb_le; simpl; rewrite length_app; lia).
    replace (2 <=? length (u :: h :: T))%nat with true by reflexivity.
    destruct (negb (orientation h u p =? 2)); cbn [andb].
    + exact IH.
    + reflexivity.
Qed.

Lemma popWhile_keeps_bottom (sk p : Point) :
  forall U, exists U1, popWhile 2 (U ++ [sk]) p = U1 ++ [sk].
Proof.
  induction U as [| u U IH]; [now exists [] |].
  destruct IH as [U1 IH].
  assert (Hhd : exists h T, U ++ [sk] = h :: T)
    by (destruct U; simpl; eauto).
  destruct Hhd as (h & T & H). cbn [app]. rewrite H in *. cbn [popWhile].
  destruct ((2 <=? length (u :: h :: T))%nat && negb (orientation h u p =? 2)).
  - now exists U1.
  - exists (u :: removelast (h :: T)). rewrite <- H.
    cbn [app]. f_equal. rewrite removelast_last. reflexivity.
Qed.

Lemma scan_above (L' : list Point) (sk : Point) (pts : list Point) :
  forall U,
    fold_left (scanStep (length L' + 2)) pts (U ++ sk :: L')
    = fold_left (scanStep 2) pts (U ++ [sk]) ++ L'.
Proof.
  induction pts as [| p pts IH]; intros U; cbn [fold_left].
  - now rewrite <- app_assoc.
  - unfold scanStep at 2 4. rewrite popWhile_above.
    destruct (popWhile_keeps_bottom sk p U) as [U1 ->].
    rewrite <- app_assoc. cbn [app].
    change (p :: U1 ++ sk :: L') with ((p :: U1) ++ sk :: L').
    rewrite IH. reflexivity.
Qed.

(** ** The polygon [convexHull] returns *)

Lemma consec_cons (c : Point) (l : list Point) (a b : Point) :
  consec (c :: l) a b <-> (c = a /\ hd_error l = Some b) \/ consec l a b.
Proof.
  split.
  - intros (l1 & l2 & H). destruct l1 as [| c' l1]; simpl in H.
    + inversion H; subst. now left.
    + inversion H; subst. right. now exists l1, l2.
  - intros [[-> H] | (l1 & l2 & ->)].
    + destruct l as [| b' l]; inversion H; subst. now exists [], l.
    + now exists (c :: l1), l2.
Qed.

Lemma chain_left_consec (S : list Point) (q : Point) :
  chain_left S q -> forall a b, consec S b a -> 0 <= left_of a b q.
Proof.
  induction S as [| c S IH]; intros Hq a b Hab.
  - destruct Hab as (l1 & l2 & H). now destruct l1.
  - apply consec_cons in Hab. destruct S as [| c' S'].
    + destruct Hab as [[_ H] | (l1 & l2 & H)]; [discriminate | now destruct l1].
    + destruct Hq as [Hq1 Hq2].
      destruct Hab as [[-> H] | H]; [| now apply IH].
      inversion H; subst. exact Hq1.
Qed.

Lemma consec_rev (l : list Point) (a b : Point) :
  consec (rev l) a b -> consec l b a.
Proof.
  intros (l1 & l2 & H). exists (rev l2), (rev l1).
  rewrite <- (rev_involutive l), H, rev_app_distr. simpl.
  now rewrite <- !app_assoc.
Qed.

(** Two chains that share the point [s]. *)
Lemma consec_joined (A B : list Point) (s a b : Point) :
  consec (A ++ s :: B) a b -> consec (A ++ [s]) a b \/ consec (s :: B) a b.
Proof.
  induction A as [| c A IH]; intros H; [now right |].
  cbn [app] in *. apply consec_cons in H. destruct H as [[-> H] | H].
  - left. apply consec_cons. left. split; [reflexivity |].
    destruct A; simpl in *; assumption.
  - destruct (IH H) as [H' | H']; [left | now right].
    apply consec_cons. now right.
Qed.

(** The edges of the closed polygon [R], by index. *)
Lemma cyclic_edge (R : list Point) (i : nat) :
  (i < length R)%nat ->
  consec (R ++ [hd origin R]) (at_ R i) (at_ R ((i + 1) mod length R)).
Proof.
  intros Hi. unfold at_. fold origin.
  destruct (nth_split R origin Hi) as (l1 & l2 & HR & Hl1).
  destruct l2 as [| c l2].
  - assert (Hlen : length R = S i).
    { rewrite HR, length_app. simpl. lia. }
    rewrite Hlen. replace (i + 1)%nat with (S i) by lia.
    rewrite Nat.Div0.mod_same.
    exists l1, []. rewrite HR at 1. rewrite <- app_assoc. simpl.
    now destruct R.
  - assert (Hlen : (i + 1 < length R)%nat).
    { rewrite HR, length_app. simpl. lia. }
    rewrite Nat.mod_small by assumption.
    assert (Hc : nth (i + 1) R origin = c).
    { rewrite HR at 1. rewrite app_nth2 by lia.
      replace (i + 1 - length l1)%nat with 1%nat by lia. reflexivity. }
    rewrite Hc. exists l1, (l2 ++ [hd origin R]).
    rewrite HR at 1. rewrite <- app_assoc. reflexivity.
Qed.

Lemma popExact_keeps_bottom (sk p : Point) :
  forall U, exists U1, popExact (U ++ [sk]) p = U1 ++ [sk].
Proof.
  induction U as [| u U IH]; [now exists [] |].
  destruct IH as [U1 IH].
  assert (Hhd : exists h T, U ++ [sk] = h :: T)
    by (destruct U; simpl; eauto).
  destruct Hhd as (h & T & H). cbn [app]. rewrite H in *. cbn [popExact].
  destruct (0 <? left_of h u p).
  - exists (u :: U). cbn [app]. now rewrite H.
  - now exists U1.
Qed.

(** A scan of two or more points leaves the first at the bottom and the
    last at the back. *)
Lemma scan_shape (sk : Point) (pts : list Point) :
  pts <> [] ->
  forall U, exists T,
    fold_left scanExact pts (U ++ [sk]) = last pts origin :: T ++ [sk].
Proof.
  induction pts as [| p pts IH]; [congruence |]. intros _ U.
  cbn [fold_left]. unfold scanExact at 2.
  destruct (popExact_keeps_bottom sk p U) as [U1 ->].
  destruct pts as [| p' pts].
  - now exists U1.
  - change (p :: U1 ++ [sk]) with ((p :: U1) ++ [sk]).
    destruct (IH ltac:(discriminate) (p :: U1)) as [T HT].
    exists T. exact HT.
Qed.

Lemma hd_rev (l : list Point) : hd origin (rev l) = last l origin.
Proof.
  induction l as [| a l IH]; [reflexivity |].
  destruct l as [| b l]; [reflexivity |].
  simpl rev in *. change (last (a :: b :: l) origin) with (last (b :: l) origin).
  rewrite <- IH. destruct (rev l ++ [b]) eqn:E; [| reflexivity].
  destruct (rev l); discriminate.
Qed.

Lemma last_rev (l : list Point) : last (rev l) origin = hd origin l.
Proof.
  rewrite <- (rev_involutive l) at 2. now rewrite hd_rev.
Qed.

(** The vector [convexHull] returns for three or more points in range,
    in terms of the two exact scans. *)
Lemma convexHull_chains (points : list Point) :
  (2 < length points)%nat -> Forall in_range points ->
  let s := std_sort Point_lt points in
  exists TL TU,
    fold_left scanExact s [] = last s origin :: TL ++ [hd origin s]
    /\ fold_left scanExact (rev s) [] = hd origin s :: TU ++ [last s origin]
    /\ convexHull points
       = (hd origin s :: rev TL) ++ (last s origin :: rev TU).
Proof.
  intros Hlen Hrange s.
  assert (Hperm : Permutation points s) by apply std_sort_perm.
  assert (Hs_range : Forall in_range s) by (now rewrite <- Hperm).
  assert (Hs_len : (2 < length s)%nat)
    by (now rewrite <- (Permutation_length Hperm)).
  destruct s as [| s1 [| s2 rest]] eqn:Es; try (simpl in Hs_len; lia).
  destruct (scan_shape s1 (s2 :: rest) ltac:(discriminate) []) as [TL HL].
  set (sk := last (s2 :: rest) origin) in *.
  assert (Hrev : rev (s1 :: s2 :: rest) = sk :: tl (rev (s1 :: s2 :: rest))).
  { pose proof (hd_rev (s1 :: s2 :: rest)) as H.
    change (last (s1 :: s2 :: rest) origin) with sk in H.
    destruct (rev (s1 :: s2 :: rest)) eqn:E; [| simpl in H; now subst].
    apply (f_equal (@length Point)) in E. rewrite length_rev in E. discriminate. }
  assert (Htl : tl (rev (s1 :: s2 :: rest)) <> []).
  { intros E. rewrite E in Hrev. apply (f_equal (@length Point)) in Hrev.
    rewrite length_rev in Hrev. discriminate. }
  destruct (scan_shape sk (tl (rev (s1 :: s2 :: rest))) Htl []) as [TU HU].
  assert (Hlast : last (tl (rev (s1 :: s2 :: rest))) origin = s1).
  { pose proof (last_rev (s1 :: s2 :: rest)) as H. rewrite Hrev in H.
    destruct (tl (rev (s1 :: s2 :: rest))); [congruence | exact H]. }
  rewrite Hlast in HU.
  change (last (s1 :: s2 :: rest) origin) with sk.
  exists TL, TU. cbn [hd]. split; [exact HL | split].
  - rewrite Hrev. exact HU.
  - unfold convexHull, convexHull_run. cbv zeta.
    destruct (Nat.leb_spec (length points) 2) as [H | _]; [lia |].
    cbn [fst]. fold s. rewrite Es.
    rewrite (scan_exact (s1 :: s2 :: rest) Hs_range [] (Forall_nil _)).
    change (fold_left scanExact (s1 :: s2 :: rest) [])
      with (fold_left scanExact (s2 :: rest) ([] ++ [s1])).
    rewrite HL.
    replace (S (length (sk :: TL ++ [s1]))) with (length (TL ++ [s1]) + 2)%nat
      by (simpl; lia).
    rewrite (scan_above (TL ++ [s1]) sk _ []).
    assert (Htl_range : Forall in_range (tl (rev (s1 :: s2 :: rest)))).
    { apply Forall_forall. intros q Hq. rewrite Forall_forall in Hs_range.
      apply Hs_range. apply in_rev. rewrite Hrev. now right. }
    assert (Hsk_range : in_range sk).
    { rewrite Forall_forall in Hs_range. apply Hs_range.
      apply in_rev. rewrite Hrev. now left. }
    rewrite (scan_exact _ Htl_range ([] ++ [sk]))
      by (constructor; [assumption | constructor]).
    rewrite HU. cbn [tl app].
    rewrite !rev_app_distr. cbn [rev app]. reflexivity.
Qed.

Lemma convexHull_subset (points : list Point) (h : Point) :
  In h (convexHull points) -> In h points.
Proof.
  unfold convexHull, convexHull_run. cbv zeta.
  destruct (length points <=? 2)%nat; [auto |]. cbn [fst].
  intros H. apply in_rev in H.
  assert (Htl : forall l : list Point, In h (tl l) -> In h l)
    by (intros [| ? ?]; simpl; auto).
  apply Htl in H. apply scan_incl in H.
  apply (Permutation_in _ (Permutation_sym (std_sort_perm Point_lt points))).
  destruct H as [H | H].
  - apply Htl in H. now apply in_rev.
  - apply scan_incl in H. destruct H as [H | []]. exact H.
Qed.

Lemma inside_or_on_small (points : list Point) (q : Point) :
  (length points <= 2)%nat -> In q points -> inside_or_on points q.
Proof.
  intros Hlen Hq i Hi.
  destruct points as [| a [| b [| c rest]]]; simpl in Hlen, Hi; try lia.
  - destruct Hq as [<- | []]. replace i with 0%nat by lia.
    simpl. rewrite left_of_same_1. lia.
  - assert (Hcases : q = a \/ q = b) by (destruct Hq as [<- | [<- | []]]; auto).
    destruct i as [| [| i]]; try lia; cbn [length at_ nth Nat.add Nat.modulo];
      simpl; destruct Hcases as [-> | ->];
      rewrite ?left_of_same_2, ?left_of_same_3; lia.
Qed.

(** Every input point is to the left of, or on, every edge of the hull. *)
Lemma convexHull_left_of_edges (points : list Point) (q : Point) :
  Forall in_range points -> In q points -> inside_or_on (convexHull points) q.
Proof.
  intros Hrange Hq.
  destruct (Nat.leb_spec (length points) 2) as [Hsmall | Hlen].
  { replace (convexHull points) with points.
    - now apply inside_or_on_small.
    - unfold convexHull, convexHull_run. cbv zeta.
      now destruct (Nat.leb_spec (length points) 2); [| lia]. }
  destruct (convexHull_chains points Hlen Hrange) as (TL & TU & HL & HU & ->).
  set (s := std_sort Point_lt points) in *.
  set (s1 := hd origin s) in *. set (sk := last s origin) in *.
  assert (Hsorted : StronglySorted lexle s) by apply sort_lex_sorted.
  assert (Hqs : In q s)
    by (apply (Permutation_in _ (std_sort_perm Point_lt points)); assumption).
  pose proof (inv_left _ _ _ (lower_scan s Hsorted) q) as Hlow.
  pose proof (inv_left _ _ _ (upper_scan s Hsorted) q Hqs) as Hup.
  rewrite HL in Hlow. rewrite HU in Hup.
  specialize (Hlow ltac:(now apply -> in_rev)).
  intros i Hi.
  pose proof (cyclic_edge _ i Hi) as Hedge.
  set (a := at_ _ i) in *. set (b := at_ _ ((i + 1) mod _)) in *.
  cbn [app hd] in Hedge.
  change (s1 :: (rev TL ++ sk :: rev TU) ++ [s1])
    with ((s1 :: rev TL ++ sk :: rev TU) ++ [s1]) in Hedge.
  replace ((s1 :: rev TL ++ sk :: rev TU) ++ [s1])
    with ((s1 :: rev TL) ++ sk :: (rev TU ++ [s1])) in Hedge
    by (cbn [app]; now rewrite <- !app_assoc).
  apply consec_joined in Hedge. destruct Hedge as [Hedge | Hedge].
  - apply (chain_left_consec _ q Hlow). apply consec_rev.
    replace (rev (sk :: TL ++ [s1])) with ((s1 :: rev TL) ++ [sk]);
      [assumption |].
    cbn [rev]. now rewrite rev_app_distr.
  - apply (chain_left_consec _ q Hup). apply consec_rev.
    replace (rev (s1 :: TU ++ [sk])) with (sk :: rev TU ++ [s1]);
      [assumption |].
    cbn [rev]. now rewrite rev_app_distr.
Qed.


(** ** Strict convexity *)

Lemma consec3_cons (e : Point) (l : list Point) (a b c : Point) :
  consec3 (e :: l) a b c <->
  (e = a /\ exists l2, l = b :: c :: l2) \/ consec3 l a b c.
Proof.
  split.
  - intros (l1 & l2 & H). destruct l1 as [| e' l1]; simpl in H.
    + inversion H; subst. left. eauto.
    + inversion H; subst. right. now exists l1, l2.
  - intros [[-> [l2 ->]] | (l1 & l2 & ->)].
    + now exists [], l2.
    + now exists (e :: l1), l2.
Qed.

Lemma consec3_rev (l : list Point) (a b c : Point) :
  consec3 (rev l) a b c -> consec3 l c b a.
Proof.
  intros (l1 & l2 & H). exists (rev l2), (rev l1).
  rewrite <- (rev_involutive l), H, rev_app_distr. simpl.
  now rewrite <- !app_assoc.
Qed.

Lemma convex_chain_consec3 (S : list Point) :
  convex_chain S -> forall c b a, consec3 S c b a -> 0 < left_of a b c.
Proof.
  induction S as [| e S IH]; intros Hc c b a H.
  - destruct H as (l1 & l2 & H). now destruct l1.
  - apply consec3_cons in H. destruct H as [[-> [l2 ->]] | H].
    + now destruct Hc.
    + apply IH; [| assumption].
      destruct S as [| e1 [| e2 S']]; try exact I. now destruct Hc.
Qed.

Lemma consec_in (l : list Point) (a b : Point) :
  consec l a b -> In a l /\ In b l.
Proof.
  intros (l1 & l2 & ->). split; apply in_or_app; right; simpl; auto.
Qed.

Lemma consec3_in (l : list Point) (a b c : Point) :
  consec3 l a b c -> In a l /\ In b l /\ In c l.
Proof.
  intros (l1 & l2 & ->). repeat split; apply in_or_app; right; simpl; auto.
Qed.

Lemma consec3_consec (l : list Point) (a b c : Point) :
  consec3 l a b c -> consec l a b /\ consec l b c.
Proof.
  intros (l1 & l2 & ->). split.
  - now exists l1, (c :: l2).
  - exists (l1 ++ [a]), l2. now rewrite <- app_assoc.
Qed.

(** An inner point of a list has a neighbour on each side. *)
Lemma inner_consec3 (h t z : Point) (M : list Point) :
  In z M -> exists a b, consec3 (h :: M ++ [t]) a z b.
Proof.
  intros Hz. apply in_split in Hz. destruct Hz as (M1 & M2 & ->).
  destruct (exists_last (l := h :: M1) ltac:(discriminate)) as (M1' & a & E).
  assert (Hb : exists b T, M2 ++ [t] = b :: T) by (destruct M2; simpl; eauto).
  destruct Hb as (b & T & Hb).
  exists a, b, M1', T.
  change (h :: (M1 ++ z :: M2) ++ [t]) with ((h :: M1 ++ z :: M2) ++ [t]).
  change (h :: M1 ++ z :: M2) with ((h :: M1) ++ z :: M2).
  rewrite E, <- !app_assoc. cbn [app]. now rewrite Hb.
Qed.

(** Chains in the order they are walked along the polygon. *)
Lemma sorted_consec {R : Point -> Point -> Prop} (l : list Point) (a b : Point) :
  StronglySorted R l -> consec l a b -> R a b.
Proof.
  intros Hs (l1 & l2 & ->).
  apply StronglySorted_app_inv in Hs. destruct Hs as (_ & Hs & _).
  apply StronglySorted_inv in Hs. destruct Hs as [_ Ha].
  now inversion Ha.
Qed.

Lemma left_of_swap_23 (a b c : Point) : left_of a c b = - left_of a b c.
Proof. unfold left_of. lia. Qed.

Lemma turn_distinct (a b c : Point) :
  0 < left_of a b c -> a <> b /\ b <> c /\ a <> c.
Proof.
  intros H. repeat split; intros ->;
    rewrite ?left_of_same_1, ?left_of_same_2, ?left_of_same_3 in H; lia.
Qed.

(** In a chain of three or more points that turns left at each of them,
    neighbours differ. *)
Lemma turning_neighbours_differ (l : list Point) :
  (forall a b c, consec3 l a b c -> 0 < left_of a b c) ->
  (3 <= length l)%nat ->
  forall u v, consec l u v -> u <> v.
Proof.
  intros Hturn Hlen u v (l1 & l2 & ->).
  destruct l2 as [| w l2].
  - destruct (exists_last (l := l1)) as (l1' & t & ->).
    { intros ->. simpl in Hlen. lia. }
    apply (turn_distinct t u v). apply Hturn.
    exists l1', []. now rewrite <- app_assoc.
  - apply (turn_distinct u v w). apply Hturn. now exists l1, l2.
Qed.

Lemma strictly_sorted (R Rs : Point -> Point -> Prop) (l : list Point) :
  (forall a b, R a b -> a <> b -> Rs a b) ->
  (forall a b c, Rs a b -> R b c -> Rs a c) ->
  StronglySorted R l ->
  (forall u v, consec l u v -> u <> v) ->
  StronglySorted Rs l.
Proof.
  intros Hstrict Htrans. induction 1 as [| a l Hs IH Ha]; intros Hne;
    [constructor |].
  constructor.
  - apply IH. intros u v (l1 & l2 & ->). apply Hne. now exists (a :: l1), l2.
  - destruct l as [| b l]; [constructor |].
    assert (Hab : Rs a b).
    { apply Hstrict; [now inversion Ha | apply Hne; now exists [], l]. }
    constructor; [assumption |].
    apply StronglySorted_inv in Hs. destruct Hs as [_ Hb].
    rewrite Forall_forall in *. intros c Hc. apply (Htrans a b c); auto.
Qed.

(** Three facts on the neighbours of a vertex. *)

(** For vectors [P], [Q], [W]: [(P x W) Q = (P x Q) W - (W x Q) P], read
    on the points [a], [z], [b], [c] with [P = z - a], [Q = c - z],
    [W = b - z]. *)
Lemma cross_identity (a z b c : Point) :
  left_of a z b * (c.(x) - z.(x))
  = left_of a z c * (b.(x) - z.(x)) - left_of z b c * (z.(x) - a.(x))
  /\ left_of a z b * (c.(y) - z.(y))
     = left_of a z c * (b.(y) - z.(y)) - left_of z b c * (z.(y) - a.(y)).
Proof. unfold left_of. split; ring. Qed.

(** Two vectors [(px, py)] and [(qx, qy)] on opposite sides in the order
    of the sort are not positive multiples of a common vector. *)
Lemma sign_clash (n m px py qx qy : Z) :
  n * qx = m * px -> n * qy = m * py ->
  0 < px \/ (px = 0 /\ 0 < py) ->
  qx < 0 \/ (qx = 0 /\ qy < 0) ->
  0 <= n -> 0 <= m -> n = 0.
Proof.
  intros Ex Ey Hp Hq Hn Hm.
  destruct (Z.eq_dec n 0) as [| Hn0]; [assumption | exfalso].
  assert (Hn' : 0 < n) by lia.
  assert (H1 : n * qx <= 0) by (apply Z.mul_nonneg_nonpos; lia).
  assert (H2 : 0 <= m * px) by (apply Z.mul_nonneg_nonneg; lia).
  assert (Hqx : qx = 0).
  { assert (Hz : n * qx = 0) by lia. apply Z.mul_eq_0 in Hz. lia. }
  assert (Hqy : qy < 0) by lia.
  assert (H3 : n * qy < 0) by (apply Z.mul_pos_neg; lia).
  assert (Hm' : 0 < m).
  { destruct (Z.eq_dec m 0) as [-> | ]; [| lia]. rewrite Z.mul_0_l in Ey. lia. }
  assert (Hpy : py < 0).
  { destruct (Z.lt_ge_cases py 0) as [H | H]; [assumption |].
    assert (0 <= m * py) by (apply Z.mul_nonneg_nonneg; lia). lia. }
  assert (Hpx : 0 < px) by lia.
  assert (0 < m * px) by (apply Z.mul_pos_pos; lia).
  subst qx. rewrite Z.mul_0_r in Ex. lia.
Qed.

(** A point cannot be an inner vertex of both chains. *)
Lemma not_on_both_chains (a z b c : Point) :
  lexlt a z -> lexlt z c ->
  0 <= left_of c z a -> 0 <= left_of a z c ->
  0 < left_of a z b -> 0 <= left_of z b c -> False.
Proof.
  intros Haz Hzc H1 H2 H3 H4.
  assert (H0 : left_of a z c = 0).
  { assert (left_of c z a = - left_of a z c) by (unfold left_of; ring). lia. }
  destruct (cross_identity a z b c) as [Ex Ey]. rewrite H0 in Ex, Ey.
  unfold lexlt in Haz, Hzc.
  assert (left_of a z b = 0); [| lia].
  apply (sign_clash _ (left_of z b c) (z.(x) - a.(x)) (z.(y) - a.(y))
           (- (c.(x) - z.(x))) (- (c.(y) - z.(y)))); lia.
Qed.

(** Where the two chains meet in a straight line, every point that both
    edges have on their left is on that line. *)
Lemma flat_junction_right (a s c q : Point) :
  lexlt a s -> lexlt c s -> left_of a s c = 0 ->
  0 <= left_of a s q -> 0 <= left_of s c q -> left_of a s q = 0.
Proof.
  intros Has Hcs H0 H1 H2.
  destruct (cross_identity a s q c) as [Ex Ey]. rewrite H0 in Ex, Ey.
  assert (Hsw : left_of s q c = - left_of s c q) by (unfold left_of; ring).
  rewrite Hsw in Ex, Ey. unfold lexlt in Has, Hcs.
  apply (sign_clash _ (left_of s c q) (s.(x) - a.(x)) (s.(y) - a.(y))
           (c.(x) - s.(x)) (c.(y) - s.(y))); lia.
Qed.

Lemma flat_junction_left (a s c q : Point) :
  lexlt s a -> lexlt s c -> left_of a s c = 0 ->
  0 <= left_of a s q -> 0 <= left_of s c q -> left_of a s q = 0.
Proof.
  intros Has Hcs H0 H1 H2.
  destruct (cross_identity a s q c) as [Ex Ey]. rewrite H0 in Ex, Ey.
  assert (Hsw : left_of s q c = - left_of s c q) by (unfold left_of; ring).
  rewrite Hsw in Ex, Ey. unfold lexlt in Has, Hcs.
  apply (sign_clash _ (left_of s c q) (a.(x) - s.(x)) (a.(y) - s.(y))
           (- (c.(x) - s.(x))) (- (c.(y) - s.(y)))); lia.
Qed.

Lemma on_one_line (a s u v w : Point) :
  a <> s ->
  left_of a s u = 0 -> left_of a s v = 0 -> left_of a s w = 0 ->
  left_of u v w = 0.
Proof.
  intros Hne Hu Hv Hw.
  assert (Ex : left_of u v w * (s.(x) - a.(x))
               = (left_of a s w - left_of a s u) * (v.(x) - u.(x))
                 - (left_of a s v - left_of a s u) * (w.(x) - u.(x)))
    by (unfold left_of; ring).
  assert (Ey : left_of u v w * (s.(y) - a.(y))
               = (left_of a s w - left_of a s u) * (v.(y) - u.(y))
                 - (left_of a s v - left_of a s u) * (w.(y) - u.(y)))
    by (unfold left_of; ring).
  rewrite Hu, Hv, Hw in Ex, Ey. simpl in Ex, Ey.
  apply Z.mul_eq_0 in Ex. apply Z.mul_eq_0 in Ey.
  destruct Ex as [| Ex]; [assumption |].
  destruct Ey as [| Ey]; [assumption |].
  exfalso. apply Hne. apply Point_eq; lia.
Qed.

Lemma consec_pair (u v a b : Point) : consec [u; v] a b -> a = u /\ b = v.
Proof.
  intros (l1 & l2 & H).
  destruct l1 as [| e [| e' l1]]; simpl in H; inversion H; auto.
  now destruct l1.
Qed.

Lemma chain_neighbours_differ (h t : Point) (M : list Point) :
  h <> t ->
  (forall a b c, consec3 ((h :: M) ++ [t]) a b c -> 0 < left_of a b c) ->
  forall u v, consec ((h :: M) ++ [t]) u v -> u <> v.
Proof.
  intros Hne Hturn. destruct M as [| m M].
  - intros u v H. apply consec_pair in H. destruct H as [-> ->]. exact Hne.
  - apply turning_neighbours_differ; [assumption |].
    simpl. rewrite length_app. simpl. lia.
Qed.

Lemma convexHull_two_chains (points : list Point) :
  (2 < length points)%nat -> Forall in_range points ->
  let s := std_sort Point_lt points in
  hd origin s <> last s origin ->
  exists ML MU,
    convexHull points = (hd origin s :: ML) ++ (last s origin :: MU)
    /\ two_chains points ((hd origin s :: ML) ++ [last s origin])
         ((last s origin :: MU) ++ [hd origin s]).
Proof.
  intros Hlen Hrange s Hne.
  destruct (convexHull_chains points Hlen Hrange) as (TL & TU & HL & HU & Hhull).
  fold s in HL, HU, Hhull.
  set (s1 := hd origin s) in *. set (sk := last s origin) in *.
  assert (Hsorted : StronglySorted lexle s) by apply sort_lex_sorted.
  assert (Hperm : Permutation points s) by apply std_sort_perm.
  pose proof (lower_scan s Hsorted) as [Ls Lc Ll Lsub _ _].
  pose proof (upper_scan s Hsorted) as [Us Uc Ul Usub _ _].
  rewrite HL in *. rewrite HU in *.
  assert (ErL : rev (sk :: TL ++ [s1]) = (s1 :: rev TL) ++ [sk])
    by (cbn [rev]; now rewrite rev_app_distr).
  assert (ErU : rev (s1 :: TU ++ [sk]) = (sk :: rev TU) ++ [s1])
    by (cbn [rev]; now rewrite rev_app_distr).
  assert (HturnL : forall a b c,
             consec3 ((s1 :: rev TL) ++ [sk]) a b c -> 0 < left_of a b c).
  { intros a b c H. rewrite <- ErL in H. apply consec3_rev in H.
    now apply (convex_chain_consec3 _ Lc). }
  assert (HturnU : forall a b c,
             consec3 ((sk :: rev TU) ++ [s1]) a b c -> 0 < left_of a b c).
  { intros a b c H. rewrite <- ErU in H. apply consec3_rev in H.
    now apply (convex_chain_consec3 _ Uc). }
  exists (rev TL), (rev TU). split; [exact Hhull |]. constructor.
  - apply (strictly_sorted lexle lexlt).
    + intros a b Hab Hd. destruct (lexle_lt_or_eq a b Hab); tauto.
    + apply lexlt_le_trans.
    + rewrite <- ErL. apply (StronglySorted_rev _ _ Ls).
    + now apply chain_neighbours_differ.
  - apply (strictly_sorted (fun a b => lexle b a) (fun a b => lexlt b a)).
    + intros a b Hab Hd. destruct (lexle_lt_or_eq b a Hab); [assumption |].
      congruence.
    + intros a b c Hab Hbc. now apply (lexle_lt_trans c b a).
    + rewrite <- ErU. apply (StronglySorted_rev _ _ Us).
    + apply chain_neighbours_differ; [congruence | assumption].
  - exact HturnL.
  - exact HturnU.
  - intros q a b Hq H. rewrite <- ErL in H. apply consec_rev in H.
    refine (chain_left_consec _ q _ a b H).
    apply Ll. apply -> in_rev. now apply (Permutation_in _ Hperm).
  - intros q a b Hq H. rewrite <- ErU in H. apply consec_rev in H.
    refine (chain_left_consec _ q _ a b H).
    apply Ul. now apply (Permutation_in _ Hperm).
  - intros v Hv. rewrite <- ErL in Hv. apply in_rev in Hv.
    apply Lsub in Hv. apply in_rev in Hv.
    now apply (Permutation_in _ (Permutation_sym Hperm)).
  - intros v Hv. rewrite <- ErU in Hv. apply in_rev in Hv.
    apply Usub in Hv.
    now apply (Permutation_in _ (Permutation_sym Hperm)).
Qed.

Lemma strict_sorted_NoDup (R : Point -> Point -> Prop) (l : list Point) :
  (forall a, ~ R a a) -> StronglySorted R l -> NoDup l.
Proof.
  intros Hirr. induction 1 as [| a l Hs IH Ha]; constructor; [| assumption].
  intros Hin. rewrite Forall_forall in Ha. now apply (Hirr a), Ha.
Qed.

Lemma sorted_before_last (R : Point -> Point -> Prop) (A : list Point)
    (t v : Point) :
  StronglySorted R (A ++ [t]) -> In v A -> R v t.
Proof.
  intros Hs Hv. apply StronglySorted_app_inv in Hs.
  destruct Hs as (_ & _ & H). apply H; [assumption | now left].
Qed.

(** Three consecutive positions of the closed polygon [R], by index. *)
Lemma cyclic_triple (R : list Point) (i : nat) :
  (3 <= length R)%nat -> (i < length R)%nat ->
  consec3 (R ++ [at_ R 0; at_ R 1])
    (at_ R i) (at_ R ((i + 1) mod length R)) (at_ R ((i + 2) mod length R)).
Proof.
  intros Hn Hi. unfold at_. fold origin.
  destruct (nth_split R origin Hi) as (l1 & l2 & HR & Hl1).
  assert (Hlen : length R = (i + S (length l2))%nat).
  { rewrite HR, length_app. simpl. lia. }
  assert (Hnth : forall k, (k < length l2)%nat ->
             nth (i + 1 + k) R origin = nth k l2 origin).
  { intros k Hk. rewrite HR at 1. rewrite app_nth2 by lia.
    replace (i + 1 + k - length l1)%nat with (S k) by lia. reflexivity. }
  destruct l2 as [| c [| d l2]]; simpl in Hlen.
  - replace ((i + 1) mod length R)%nat with 0%nat.
    2:{ replace (i + 1)%nat with (length R) by lia.
        now rewrite Nat.Div0.mod_same. }
    replace ((i + 2) mod length R)%nat with 1%nat.
    2:{ replace (i + 2)%nat with (1 + 1 * length R)%nat by lia.
        rewrite Nat.Div0.mod_add, Nat.mod_small; lia. }
    exists l1, []. rewrite HR at 1. now rewrite <- app_assoc.
  - rewrite (Nat.mod_small (i + 1)) by lia.
    replace ((i + 2) mod length R)%nat with 0%nat.
    2:{ replace (i + 2)%nat with (length R) by lia.
        now rewrite Nat.Div0.mod_same. }
    replace (nth (i + 1) R origin) with c.
    2:{ rewrite <- (Nat.add_0_r (i + 1)), Hnth; simpl; [reflexivity | lia]. }
    exists l1, [nth 1 R origin]. rewrite HR at 1. now rewrite <- app_assoc.
  - rewrite !Nat.mod_small by lia.
    replace (nth (i + 1) R origin) with c.
    2:{ rewrite <- (Nat.add_0_r (i + 1)), Hnth; simpl; [reflexivity | lia]. }
    replace (nth (i + 2) R origin) with d.
    2:{ replace (i + 2)%nat with (i + 1 + 1)%nat by lia.
        rewrite Hnth; simpl; [reflexivity | lia]. }
    exists l1, (l2 ++ [nth 0 R origin; nth 1 R origin]).
    rewrite HR at 1. now rewrite <- app_assoc.
Qed.

(** Three consecutive points of two chains that share the point [s]. *)
Lemma consec3_joined (X Y : list Point) (s a b c : Point) :
  consec3 (X ++ s :: Y) a b c ->
  consec3 (X ++ [s]) a b c \/ consec3 (s :: Y) a b c
  \/ (b = s /\ consec (X ++ [s]) a s /\ hd_error Y = Some c).
Proof.
  induction X as [| e X IH]; intros H; [auto |].
  cbn [app] in H. apply consec3_cons in H.
  destruct H as [[-> [l2 Hl2]] | H].
  - destruct X as [| b' [| c' X]]; cbn [app] in Hl2; inversion Hl2; subst.
    + right. right. split; [reflexivity | split; [| reflexivity]].
      now exists [], [].
    + left. now exists [], [].
    + left. exists [], (X ++ [s]). reflexivity.
  - destruct (IH H) as [H' | [H' | (-> & H1 & H2)]].
    + left. cbn [app]. apply consec3_cons. now right.
    + right. now left.
    + right. right. split; [reflexivity | split; [| assumption]].
      cbn [app]. apply consec_cons. now right.
Qed.

Section StrictHull.
Variables (points ML MU : list Point) (s1 sk : Point).
Hypothesis chains : two_chains points ((s1 :: ML) ++ [sk]) ((sk :: MU) ++ [s1]).

Let low := (s1 :: ML) ++ [sk].
Let up := (sk :: MU) ++ [s1].

Lemma chains_NoDup : NoDup ((s1 :: ML) ++ (sk :: MU)).
Proof.
  destruct chains as [Ls Us Lt Ut Ll Ul Lsub Usub].
  apply NoDup_app.
  - apply (NoDup_app_remove_r _ [sk]).
    apply (strict_sorted_NoDup lexlt); [apply lexlt_irrefl | assumption].
  - apply (NoDup_app_remove_r _ [s1]).
    apply (strict_sorted_NoDup (fun a b => lexlt b a));
      [apply lexlt_irrefl | assumption].
  - intros z HzA HzB.
    assert (Hz_sk : lexlt z sk) by now apply (sorted_before_last _ _ _ _ Ls).
    assert (Hs1_z : lexlt s1 z) by now apply (sorted_before_last _ _ _ _ Us).
    destruct HzA as [<- | HzA]; [now apply (lexlt_irrefl s1) |].
    destruct HzB as [<- | HzB]; [now apply (lexlt_irrefl sk) |].
    destruct (inner_consec3 s1 sk z ML HzA) as (a & b & Hab).
    destruct (inner_consec3 sk s1 z MU HzB) as (c & d & Hcd).
    change (s1 :: ML ++ [sk]) with ((s1 :: ML) ++ [sk]) in Hab.
    change (sk :: MU ++ [s1]) with ((sk :: MU) ++ [s1]) in Hcd.
    destruct (consec3_consec _ _ _ _ Hab) as [Haz Hzb].
    destruct (consec3_consec _ _ _ _ Hcd) as [Hcz Hzd].
    destruct (consec3_in _ _ _ _ Hab) as (Ha & _ & Hb).
    destruct (consec3_in _ _ _ _ Hcd) as (Hc & _ & Hd).
    apply (not_on_both_chains a z b c).
    + apply (sorted_consec _ _ _ Ls Haz).
    + apply (sorted_consec _ _ _ Us Hcz).
    + apply Ul; [now apply Lsub | assumption].
    + apply Ll; [now apply Usub | assumption].
    + now apply Lt.
    + apply Ll; [now apply Usub | assumption].
Qed.

(** With three or more vertices, one of the chains turns. *)
Lemma some_turn :
  (3 <= length ((s1 :: ML) ++ (sk :: MU)))%nat ->
  exists u v w, In u points /\ In v points /\ In w points /\ 0 < left_of u v w.
Proof.
  destruct chains as [Ls Us Lt Ut Ll Ul Lsub Usub].
  intros Hlen. rewrite length_app in Hlen. simpl in Hlen.
  assert (Hcase : ML <> [] \/ MU <> []).
  { destruct ML as [| m ML0]; [| left; discriminate].
    destruct MU as [| m MU0]; [simpl in Hlen; lia | right; discriminate]. }
  destruct Hcase as [H | H].
  - destruct ML as [| m ML']; [congruence |].
    destruct (inner_consec3 s1 sk m (m :: ML') ltac:(now left)) as (a & b & Hab).
    change (s1 :: (m :: ML') ++ [sk]) with ((s1 :: m :: ML') ++ [sk]) in Hab.
    destruct (consec3_in _ _ _ _ Hab) as (Ha & Hm & Hb).
    exists a, m, b. repeat split; auto.
  - destruct MU as [| m MU']; [congruence |].
    destruct (inner_consec3 sk s1 m (m :: MU') ltac:(now left)) as (a & b & Hab).
    change (sk :: (m :: MU') ++ [s1]) with ((sk :: m :: MU') ++ [s1]) in Hab.
    destruct (consec3_in _ _ _ _ Hab) as (Ha & Hm & Hb).
    exists a, m, b. repeat split; auto.
Qed.

Lemma not_all_on_line (a s : Point) :
  (3 <= length ((s1 :: ML) ++ (sk :: MU)))%nat ->
  a <> s -> (forall q, In q points -> left_of a s q = 0) -> False.
Proof.
  intros Hlen Hne Hline.
  destruct (some_turn Hlen) as (u & v & w & Hu & Hv & Hw & Hturn).
  rewrite (on_one_line a s u v w) in Hturn; auto. lia.
Qed.

Lemma chains_turn (a b c : Point) :
  (3 <= length ((s1 :: ML) ++ (sk :: MU)))%nat ->
  consec3 (((s1 :: ML) ++ (sk :: MU)) ++ [s1; hd origin (ML ++ [sk])]) a b c ->
  0 < left_of a b c.
Proof.
  intros Hlen H.
  pose proof chains as [Ls Us Lt Ut Ll Ul Lsub Usub].
  assert (Hx : consec low s1 (hd origin (ML ++ [sk]))).
  { unfold low. cbn [app]. destruct (ML ++ [sk]) as [| x T] eqn:E.
    - now destruct ML.
    - now exists [], T. }
  set (x := hd origin (ML ++ [sk])) in *.
  rewrite <- app_assoc in H. cbn [app] in H.
  change (s1 :: ML ++ sk :: MU ++ [s1; x])
    with ((s1 :: ML) ++ sk :: (MU ++ [s1; x])) in H.
  apply consec3_joined in H. destruct H as [H | [H | (-> & Ha & Hc)]].
  - now apply Lt.
  - change (sk :: MU ++ [s1; x]) with ((sk :: MU) ++ s1 :: [x]) in H.
    apply consec3_joined in H. destruct H as [H | [H | (-> & Ha & Hc)]].
    + now apply Ut.
    + destruct H as (l1 & l2 & H). destruct l1 as [| ? [| ? l1]]; inversion H.
      now destruct l1.
    + cbn [hd_error] in Hc. inversion Hc; subst c.
      assert (Hs1a : lexlt s1 a) by apply (sorted_consec _ _ _ Us Ha).
      assert (Hs1x : lexlt s1 x) by apply (sorted_consec _ _ _ Ls Hx).
      assert (Hxp : In x points).
      { apply Lsub. now apply (consec_in _ _ _ Hx). }
      assert (Hge : 0 <= left_of a s1 x) by now apply Ul.
      destruct (Z.eq_dec (left_of a s1 x) 0) as [H0 | H0]; [exfalso | lia].
      apply (not_all_on_line a s1 Hlen).
      * intros ->. now apply (lexlt_irrefl s1).
      * intros q Hq. apply (flat_junction_left a s1 x q); auto.
  - assert (Hc' : consec up sk c).
    { unfold up. destruct MU as [| m MU']; cbn [app hd_error] in Hc;
        inversion Hc; subst c.
      - now exists [], [].
      - now exists [], (MU' ++ [s1]). }
    assert (Hask : lexlt a sk) by apply (sorted_consec _ _ _ Ls Ha).
    assert (Hcsk : lexlt c sk) by apply (sorted_consec _ _ _ Us Hc').
    assert (Hcp : In c points).
    { apply Usub. now apply (consec_in _ _ _ Hc'). }
    assert (Hge : 0 <= left_of a sk c) by now apply Ll.
    destruct (Z.eq_dec (left_of a sk c) 0) as [H0 | H0]; [exfalso | lia].
    apply (not_all_on_line a sk Hlen).
    + intros ->. now apply (lexlt_irrefl sk).
    + intros q Hq. apply (flat_junction_right a sk c q); auto.
Qed.
End StrictHull.

Lemma sorted_ends_differ (s : list Point) (p q : Point) :
  StronglySorted lexle s -> In p s -> In q s -> p <> q ->
  hd origin s <> last s origin.
Proof.
  intros Hs Hp Hq Hne Heq.
  assert (Hall : forall r, In r s -> r = hd origin s).
  { intros r Hr. apply lexle_antisym.
    - rewrite Heq. now apply sorted_le_last.
    - destruct s as [| e s']; [contradiction |]. cbn [hd].
      destruct Hr as [<- | Hr]; [apply lexle_refl |].
      apply StronglySorted_inv in Hs. destruct Hs as [_ He].
      rewrite Forall_forall in He. now apply He. }
  apply Hne. now rewrite (Hall p Hp), (Hall q Hq).
Qed.

(** The vertices are pairwise different and the polygon turns at each. *)
Lemma convexHull_strict (points : list Point) :
  Forall in_range points -> (2 < length points)%nat ->
  (exists p q, In p points /\ In q points /\ p <> q) ->
  NoDup (convexHull points)
  /\ ((3 <= length (convexHull points))%nat ->
      forall i, (i < length (convexHull points))%nat ->
        0 < left_of (at_ (convexHull points) i)
              (at_ (convexHull points) ((i + 1) mod length (convexHull points)))
              (at_ (convexHull points) ((i + 2) mod length (convexHull points))))
  /\ ((forall u v w, In u points -> In v points -> In w points ->
         left_of u v w = 0) ->
      length (convexHull points) = 2%nat).
Proof.
  intros Hrange Hlen (p & q & Hp & Hq & Hpq).
  pose proof (std_sort_perm Point_lt points) as Hperm.
  assert (Hne : hd origin (std_sort Point_lt points)
                <> last (std_sort Point_lt points) origin).
  { apply (sorted_ends_differ _ p q); auto using sort_lex_sorted;
      now apply (Permutation_in _ Hperm). }
  destruct (convexHull_two_chains points Hlen Hrange Hne)
    as (ML & MU & -> & Hchains).
  set (s1 := hd origin _) in *. set (sk := last _ origin) in *.
  split; [now apply (chains_NoDup points) | split].
  - intros H3 i Hi.
    apply (chains_turn points ML MU s1 sk Hchains); [exact H3 |].
    pose proof (cyclic_triple _ i H3 Hi) as Ht.
    replace (at_ ((s1 :: ML) ++ sk :: MU) 0) with s1 in Ht by reflexivity.
    replace (at_ ((s1 :: ML) ++ sk :: MU) 1) with (hd origin (ML ++ [sk])) in Ht
      by (now destruct ML).
    exact Ht.
  - intros Hline.
    destruct (Nat.le_gt_cases 3 (length ((s1 :: ML) ++ sk :: MU))) as [H3 | H3].
    + destruct (some_turn points ML MU s1 sk Hchains H3)
        as (u & v & w & Hu & Hv & Hw & Hturn).
      rewrite Hline in Hturn by assumption. lia.
    + rewrite length_app in *. simpl in *. lia.
Qed.

(** X10: on three or more points with coordinates in [[-2^30, 2^30)], not all
    the same point: the vertices [convexHull] returns are pairwise
    different; with three or more of them the polygon turns strictly left
    at every vertex, so that no three consecutive vertices are on a line;
    and an input on one line gives two vertices. *)
Theorem convexHull_strict_in_range (points : list Point) :
  Forall in_range points -> (2 < length points)%nat ->
  (exists p q, In p points /\ In q points /\ p <> q) ->
  NoDup (convexHull points)
  /\ ((3 <= length (convexHull points))%nat ->
      forall i, (i < length (convexHull points))%nat ->
        0 < left_of (at_ (convexHull points) i)
              (at_ (convexHull points) ((i + 1) mod length (convexHull points)))
              (at_ (convexHull points) ((i + 2) mod length (convexHull points))))
  /\ ((forall u v w, In u points -> In v points -> In w points ->
         left_of u v w = 0) ->
      length (convexHull points) = 2%nat).
Proof. exact (convexHull_strict points). Qed.

Lemma convexHull_strict_in_range_witness :
  let points :=
    [mkPoint 0 0; mkPoint 4 0; mkPoint 4 4; mkPoint 0 4; mkPoint 2 2;
     mkPoint 2 0; mkPoint 4 4] in
  NoDup (convexHull points)
  /\ ((3 <= length (convexHull points))%nat ->
      forall i, (i < length (convexHull points))%nat ->
        0 < left_of (at_ (convexHull points) i)
              (at_ (convexHull points) ((i + 1) mod length (convexHull points)))
              (at_ (convexHull points) ((i + 2) mod length (convexHull points))))
  /\ ((forall u v w, In u points -> In v points -> In w points ->
         left_of u v w = 0) ->
      length (convexHull points) = 2%nat).
Proof.
  apply convexHull_strict_in_range.
  - repeat constructor; vm_compute; intros H; discriminate H.
  - simpl. lia.
  - exists (mkPoint 0 0), (mkPoint 4 0). simpl. repeat split; auto.
    discriminate.
Defined.
(** * The antipodal advance on a convex polygon *)

(** ** Vectors *)

Lemma left_of_cross (p q r : Point) :
  left_of p q r = cross (vsub q p) (vsub r p).
Proof. reflexivity. Qed.

Lemma left_of_cross_next (p q r : Point) :
  left_of p q r = cross (vsub q p) (vsub r q).
Proof. unfold left_of, cross, vsub. cbn [x y]. ring. Qed.

Lemma exact_distSq_dot (p q : Point) :
  exact_distSq p q = dot (vsub p q) (vsub p q).
Proof. reflexivity. Qed.

Lemma cross_anti (u w : Point) : cross w u = - cross u w.
Proof. unfold cross. ring. Qed.

Lemma cross_self (u : Point) : cross u u = 0.
Proof. unfold cross. ring. Qed.

(** For four vectors: [(A x C)(B x D) = (A x B)(C x D) + (A x D)(B x C)]. *)
Lemma cross_four (A B C D : Point) :
  cross A C * cross B D = cross A B * cross C D + cross A D * cross B C.
Proof. unfold cross. ring. Qed.

(** Vectors on the left of [A] that turn left one after the other are in
    order. *)
Lemma left_turns_compose (A B C D : Point) :
  0 < cross A B -> 0 < cross A C -> 0 < cross A D ->
  0 < cross B C -> 0 < cross C D -> 0 < cross B D.
Proof.
  intros HAB HAC HAD HBC HCD. pose proof (cross_four A B C D) as E.
  assert (0 < cross A B * cross C D) by (apply Z.mul_pos_pos; assumption).
  assert (0 < cross A D * cross B C) by (apply Z.mul_pos_pos; assumption).
  destruct (Z.lt_ge_cases 0 (cross B D)) as [| Hle]; [assumption |].
  assert (cross A C * cross B D <= 0) by (apply Z.mul_nonneg_nonpos; lia).
  lia.
Qed.

(** In the corner between [E1] and [E2], which turns left:
    [(E1 x E2)(U . W) = (W x E2)(U . E1) + (E1 x W)(U . E2)]. *)
Lemma corner_identity (E1 E2 U W : Point) :
  cross E1 E2 * dot U W = cross W E2 * dot U E1 + cross E1 W * dot U E2.
Proof. unfold cross, dot. ring. Qed.

(** A vertex where the polygon stops rising in the direction [U] is a
    highest point of the corner. *)
Lemma corner_top (E1 E2 U W : Point) :
  0 < cross E1 E2 -> 0 <= cross E1 W -> 0 <= cross E2 W ->
  0 <= dot U E1 -> dot U E2 <= 0 -> dot U W <= 0.
Proof.
  intros Hturn H1 H2 Hu1 Hu2. pose proof (corner_identity E1 E2 U W) as E.
  rewrite (cross_anti E2 W) in E.
  assert (- cross E2 W * dot U E1 <= 0) by (apply Z.mul_nonpos_nonneg; lia).
  assert (cross E1 W * dot U E2 <= 0) by (apply Z.mul_nonneg_nonpos; lia).
  destruct (Z.le_gt_cases (dot U W) 0) as [| Hgt]; [assumption |].
  assert (0 < cross E1 E2 * dot U W) by (apply Z.mul_pos_pos; assumption).
  lia.
Qed.

(** Two points at the largest distance: every other point is between the
    two lines through them across the segment. *)
Lemma farthest_slab (a b k : Point) :
  exact_distSq b k <= exact_distSq a b ->
  2 * dot (vsub b a) (vsub k a) >= exact_distSq k a.
Proof.
  intros H.
  assert (E : exact_distSq b k
              = exact_distSq k a - 2 * dot (vsub b a) (vsub k a)
                + exact_distSq a b)
    by (unfold exact_distSq, dot, vsub; cbn [x y]; ring).
  lia.
Qed.

(** ** Positions round the polygon *)

Section Polygon.
Variable R : list Point.
Let n := length R.
Hypothesis n_pos : (0 < n)%nat.

Lemma vtx_small (k : nat) : (k < n)%nat -> vtx R k = at_ R k.
Proof. intros Hk. unfold vtx. now rewrite Nat.mod_small. Qed.

Lemma vtx_mod (k : nat) : vtx R (k mod n) = vtx R k.
Proof. unfold vtx. fold n. now rewrite Nat.Div0.mod_mod. Qed.

Lemma vtx_succ_mod (k : nat) : vtx R (k mod n + 1) = vtx R (k + 1).
Proof. unfold vtx. fold n. now rewrite Nat.Div0.add_mod_idemp_l. Qed.

Lemma vtx_add_n (k : nat) : vtx R (k + n) = vtx R k.
Proof.
  unfold vtx. fold n. replace (k + n)%nat with (k + 1 * n)%nat by lia.
  now rewrite Nat.Div0.mod_add.
Qed.

Lemma edge_mod (k : nat) : edge R (k mod n) = edge R k.
Proof. unfold edge. now rewrite vtx_succ_mod, vtx_mod. Qed.

Lemma edge_add_n (k : nat) : edge R (k + n) = edge R k.
Proof.
  unfold edge. replace (k + n + 1)%nat with (k + 1 + n)%nat by lia.
  now rewrite !vtx_add_n.
Qed.

Lemma vtx_in (k : nat) : In (vtx R k) R.
Proof. unfold vtx, at_. apply nth_In. now apply Nat.mod_upper_bound, Nat.neq_0_lt_0. Qed.

Lemma vtx_inj (k l : nat) :
  NoDup R -> vtx R k = vtx R l -> (k mod n = l mod n)%nat.
Proof.
  intros Hnd H. unfold vtx, at_ in H.
  apply (proj1 (NoDup_nth R (mkPoint 0 0)) Hnd); try assumption;
    apply Nat.mod_upper_bound; fold n; lia.
Qed.

Lemma in_vtx (p : Point) : In p R -> exists k, (k < n)%nat /\ vtx R k = p.
Proof.
  intros Hp. destruct (In_nth R p (mkPoint 0 0) Hp) as (k & Hk & E).
  exists k. split; [assumption |]. now rewrite vtx_small.
Qed.

(** ** The loops of [polygonDiameter] *)

Hypothesis R_range : Forall in_range R.

Lemma vtx_range (k : nat) : in_range (vtx R k).
Proof. rewrite Forall_forall in R_range. apply R_range, vtx_in. Qed.

(** On a hull in range, [cross_prod] is the cross product of the two
    edges. *)
Lemma cross_prod_exact (i j : nat) :
  cross_prod R n (i mod n) (j mod n) = cross (edge R i) (edge R j).
Proof.
  unfold cross_prod. cbv zeta. cbn [x y].
  change (at_ R (i mod n)) with (vtx R i).
  change (at_ R (j mod n)) with (vtx R j).
  change (at_ R ((i mod n + 1) mod n)) with (vtx R (i mod n + 1)).
  change (at_ R ((j mod n + 1) mod n)) with (vtx R (j mod n + 1)).
  rewrite !vtx_succ_mod.
  pose proof (vtx_range i) as [? ?]. pose proof (vtx_range (i + 1)) as [? ?].
  pose proof (vtx_range j) as [? ?]. pose proof (vtx_range (j + 1)) as [? ?].
  rewrite !sub_exact by assumption. reflexivity.
Qed.

Lemma distSq_vtx (k l : nat) :
  distSq (vtx R k) (vtx R l) = exact_distSq (vtx R k) (vtx R l).
Proof. apply distSq_exact; apply vtx_range. Qed.

(** What [advance] returns: the pointer after a number of steps over
    edges that turn left of the edge [i], at an edge that does not. *)
Lemma advance_steps (i : nat) (fuel : nat) :
  forall p j',
    advance fuel R n (i mod n) (p mod n) = Some j' ->
    exists m,
      j' = ((p + m) mod n)%nat
      /\ (forall t, (p <= t < p + m)%nat -> 0 < cross (edge R i) (edge R t))
      /\ cross (edge R i) (edge R (p + m)) <= 0.
Proof.
  induction fuel as [| fuel IH]; intros p j' H; [discriminate |].
  cbn [advance] in H. rewrite cross_prod_exact in H.
  destruct (Z.ltb_spec 0 (cross (edge R i) (edge R p))) as [Hpos | Hnpos].
  - rewrite Nat.Div0.add_mod_idemp_l in H.
    destruct (IH (p + 1)%nat j' H) as (m & Hj & Hrun & Hstop).
    exists (S m). replace (p + S m)%nat with (p + 1 + m)%nat by lia.
    split; [assumption | split; [| assumption]].
    intros t Ht. destruct (Nat.eq_dec t p) as [-> | Hne]; [assumption |].
    apply Hrun. lia.
  - inversion H; subst j'. exists 0%nat. rewrite Nat.add_0_r.
    split; [reflexivity | split; [intros t Ht; lia | assumption]].
Qed.
End Polygon.

(** ** The pairs the loop stops at *)

Section Antipodal.
Variable R : list Point.
Let n := length R.
Hypothesis R_convex : convex_polygon R.
Hypothesis R_range : Forall in_range R.

Lemma polygon_nonempty : (0 < n)%nat.
Proof. pose proof (cp_size R R_convex). unfold n. lia. Qed.

(** Consecutive edges turn left. *)
Lemma edges_turn (t : nat) : 0 < cross (edge R t) (edge R (t + 1)).
Proof.
  pose proof (cp_turn R R_convex t) as H.
  rewrite left_of_cross_next in H. unfold edge.
  now replace (t + 1 + 1)%nat with (t + 2)%nat by lia.
Qed.

Lemma first_nonpos_unique (i q q' : nat) :
  first_nonpos R i q -> first_nonpos R i q' -> q = q'.
Proof.
  intros (H1 & H2 & H3) (H1' & H2' & H3').
  destruct (Nat.lt_trichotomy q q') as [H | [H | H]]; [| assumption |].
  - specialize (H2' q ltac:(lia)). lia.
  - specialize (H2 q' ltac:(lia)). lia.
Qed.

(** The pointer never has to go back: the edges between the next edge and
    the place where the loop stopped turn left of the next edge too. *)
Lemma pointer_ahead (i q : nat) :
  first_nonpos R i q ->
  (i + 2 <= q)%nat
  /\ forall t, (i + 2 <= t < q)%nat -> 0 < cross (edge R (i + 1)) (edge R t).
Proof.
  intros (Hq & Hrun & Hstop).
  assert (Hq2 : (i + 2 <= q)%nat).
  { destruct (Nat.eq_dec q (i + 1)) as [-> | Hne]; [| lia].
    pose proof (edges_turn i). lia. }
  split; [assumption |].
  intros t. induction t as [| t IH]; intros Ht; [lia |].
  destruct (Nat.eq_dec (S t) (i + 2)) as [E | Hne].
  - rewrite E. replace (i + 2)%nat with (i + 1 + 1)%nat by lia.
    apply edges_turn.
  - apply (left_turns_compose (edge R i) (edge R (i + 1)) (edge R t)).
    + apply edges_turn.
    + apply Hrun. lia.
    + apply Hrun. lia.
    + apply IH. lia.
    + replace (S t) with (t + 1)%nat by lia. apply edges_turn.
Qed.

(** The outer loop from the edge [i] on, with the pointer at [p]. *)
Lemma calipers_spec (fuel : nat) :
  forall len i p maxd M,
    (i + len = n)%nat -> (i + 1 <= p)%nat ->
    (forall t, (i + 1 <= t < p)%nat -> 0 < cross (edge R i) (edge R t)) ->
    calipers fuel R n (seq i len) (p mod n) maxd = Some M ->
    maxd <= M
    /\ (forall i', (i <= i' < n)%nat ->
          exists q, first_nonpos R i' q
                    /\ exact_distSq (vtx R i') (vtx R q) <= M)
    /\ (M = maxd \/ exists k l, M = exact_distSq (vtx R k) (vtx R l)).
Proof.
  pose proof polygon_nonempty as Hn.
  induction len as [| len IH]; intros i p maxd M Hlen Hp Hrun H.
  - cbn [seq calipers] in H. inversion H; subst M.
    split; [lia | split; [intros i' Hi'; lia | now left]].
  - cbn [seq calipers] in H.
    assert (Hi : (i < n)%nat) by lia.
    rewrite <- (Nat.mod_small i n Hi) in H at 1.
    destruct (advance fuel R n (i mod n) (p mod n)) as [j' |] eqn:Hadv;
      [| discriminate].
    destruct (advance_steps R Hn R_range i fuel p j' Hadv) as (m & -> & Hm & Hstop).
    assert (Hfirst : first_nonpos R i (p + m)).
    { split; [lia | split; [| assumption]].
      intros t Ht. destruct (Nat.lt_ge_cases t p); [apply Hrun | apply Hm]; lia. }
    destruct (pointer_ahead i (p + m) Hfirst) as [Hq Hnext].
    replace (at_ R ((p + m) mod length R)) with (vtx R (p + m)) in H
      by reflexivity.
    replace (at_ R ((i + 1) mod n)) with (vtx R (i + 1)) in H by reflexivity.
    rewrite <- (vtx_small R i Hi) in H.
    rewrite !(distSq_vtx R Hn R_range) in H.
    replace (S i) with (i + 1)%nat in H by lia.
    apply IH in H; [| lia | lia | intros t Ht; apply Hnext; lia].
    destruct H as (Hmax & Hall & Hatt).
    split; [lia | split].
    + intros i' Hi'. destruct (Nat.eq_dec i' i) as [-> | Hne].
      * exists (p + m)%nat. split; [assumption | lia].
      * apply Hall. lia.
    + destruct Hatt as [-> | Hatt]; [| now right].
      destruct (Z.max_spec
                  (Z.max maxd (exact_distSq (vtx R i) (vtx R (p + m))))
                  (exact_distSq (vtx R (i + 1)) (vtx R (p + m))))
        as [[_ ->] | [_ ->]]; [right; eauto |].
      destruct (Z.max_spec maxd (exact_distSq (vtx R i) (vtx R (p + m))))
        as [[_ ->] | [_ ->]]; [right; eauto | now left].
Qed.

Lemma mod_distinct (k l : nat) :
  (k < l < k + n)%nat -> (k mod n)%nat <> (l mod n)%nat.
Proof.
  intros Hkl E. pose proof polygon_nonempty as Hn.
  pose proof (Nat.div_mod_eq k n) as Hk. pose proof (Nat.div_mod_eq l n) as Hl.
  rewrite E in Hk.
  destruct (Nat.lt_trichotomy (l / n) (k / n)) as [H | [H | H]].
  - assert (n * (l / n) + n <= n * (k / n))%nat
      by (rewrite <- Nat.mul_succ_r; apply Nat.mul_le_mono_l; lia).
    lia.
  - rewrite H in Hl. lia.
  - assert (n * (k / n) + n <= n * (l / n))%nat
      by (rewrite <- Nat.mul_succ_r; apply Nat.mul_le_mono_l; lia).
    lia.
Qed.

Lemma exact_distSq_pos (p q : Point) : p <> q -> 0 < exact_distSq p q.
Proof.
  intros Hne. pose proof (exact_distSq_nonneg p q) as H.
  destruct (Z.eq_dec (exact_distSq p q) 0) as [E | ]; [exfalso | lia].
  apply Hne. unfold exact_distSq in E.
  pose proof (Z.square_nonneg (p.(x) - q.(x))).
  pose proof (Z.square_nonneg (p.(y) - q.(y))).
  assert (Ex : (p.(x) - q.(x)) * (p.(x) - q.(x)) = 0) by lia.
  assert (Ey : (p.(y) - q.(y)) * (p.(y) - q.(y)) = 0) by lia.
  apply Z.mul_eq_0 in Ex. apply Z.mul_eq_0 in Ey. apply Point_eq; lia.
Qed.

(** [cross] with a quarter turn of [u] is [dot] with [u]. *)
Lemma cross_quarter (u e : Point) :
  cross (mkPoint u.(y) (- u.(x))) e = dot u e.
Proof. unfold cross, dot. cbn [x y]. ring. Qed.

Section Farthest.
Variables a b : nat.
Hypothesis ab : (a < b < a + n)%nat.
Hypothesis far_a : forall k,
  exact_distSq (vtx R a) (vtx R k) <= exact_distSq (vtx R a) (vtx R b).
Hypothesis far_b : forall k,
  exact_distSq (vtx R b) (vtx R k) <= exact_distSq (vtx R a) (vtx R b).

Let u := vsub (vtx R b) (vtx R a).

Lemma slab_a (k : nat) :
  exact_distSq (vtx R k) (vtx R a) <= 2 * dot u (vsub (vtx R k) (vtx R a)).
Proof.
  pose proof (farthest_slab (vtx R a) (vtx R b) (vtx R k) (far_b k)).
  unfold u. lia.
Qed.

Lemma slab_b (k : nat) :
  exact_distSq (vtx R k) (vtx R b) <= - 2 * dot u (vsub (vtx R k) (vtx R b)).
Proof.
  assert (H : exact_distSq (vtx R a) (vtx R k)
              <= exact_distSq (vtx R b) (vtx R a))
    by (rewrite (exact_distSq_sym (vtx R b)); apply far_a).
  pose proof (farthest_slab (vtx R b) (vtx R a) (vtx R k) H) as Hs.
  assert (E : dot (vsub (vtx R a) (vtx R b)) (vsub (vtx R k) (vtx R b))
              = - dot u (vsub (vtx R k) (vtx R b)))
    by (unfold u, dot, vsub; cbn [x y]; ring).
  lia.
Qed.

Lemma rising_first : 0 < dot u (edge R a).
Proof.
  pose proof polygon_nonempty as Hn. pose proof (cp_size R R_convex) as Hsize.
  pose proof (slab_a (a + 1)) as Hs. unfold edge.
  assert (0 < exact_distSq (vtx R (a + 1)) (vtx R a)); [| lia].
  apply exact_distSq_pos. intros E.
  apply (vtx_inj R Hn) in E; [| apply (cp_NoDup R R_convex)].
  apply (mod_distinct a (a + 1)); [fold n in Hsize; lia | now symmetry].
Qed.

(** From one of two farthest vertices to the other, the polygon rises in
    their direction. *)
Lemma rising_arc (t : nat) : (a <= t < b)%nat -> 0 < dot u (edge R t).
Proof.
  pose proof polygon_nonempty as Hn.
  induction t as [| t IH]; intros Ht.
  - replace 0%nat with a by lia. apply rising_first.
  - destruct (Nat.eq_dec (S t) a) as [Ea | Hne].
    + rewrite Ea. apply rising_first.
    + specialize (IH ltac:(lia)).
      destruct (Z.lt_ge_cases 0 (dot u (edge R (S t)))) as [| Hle];
        [assumption | exfalso].
      assert (Htop : dot u (vsub (vtx R b) (vtx R (S t))) <= 0).
      { apply (corner_top (edge R t) (edge R (S t))).
        - replace (S t) with (t + 1)%nat by lia. apply edges_turn.
        - pose proof (cp_left R R_convex t b) as H.
          rewrite left_of_cross_next in H.
          now replace (S t) with (t + 1)%nat by lia.
        - pose proof (cp_left R R_convex (S t) b) as H.
          now rewrite left_of_cross in H.
        - lia.
        - lia. }
      pose proof (slab_b (S t)) as Hs.
      assert (E : dot u (vsub (vtx R (S t)) (vtx R b))
                  = - dot u (vsub (vtx R b) (vtx R (S t))))
        by (unfold dot, vsub; cbn [x y]; ring).
      assert (Hz : exact_distSq (vtx R (S t)) (vtx R b) <= 0) by lia.
      destruct (Point_eq_dec (vtx R (S t)) (vtx R b)) as [Ev | Hv].
      * apply (vtx_inj R Hn) in Ev; [| apply (cp_NoDup R R_convex)].
        apply (mod_distinct (S t) b); [lia | assumption].
      * pose proof (exact_distSq_pos _ _ Hv). lia.
Qed.

(** On that arc every edge turns left of the first. *)
Lemma turning_arc (t : nat) :
  (a + 1 <= t < b)%nat -> 0 < cross (edge R a) (edge R t).
Proof.
  induction t as [| t IH]; intros Ht; [lia |].
  destruct (Nat.eq_dec (S t) (a + 1)) as [E | Hne].
  - rewrite E. apply edges_turn.
  - apply (left_turns_compose (mkPoint u.(y) (- u.(x)))
             (edge R a) (edge R t)).
    + rewrite cross_quarter. apply rising_arc. lia.
    + rewrite cross_quarter. apply rising_arc. lia.
    + rewrite cross_quarter. apply rising_arc. lia.
    + apply IH. lia.
    + replace (S t) with (t + 1)%nat by lia. apply edges_turn.
Qed.
End Farthest.
End Antipodal.

Lemma argmax_exists {A : Type} (f : A -> Z) (l : list A) :
  l <> [] -> exists m, In m l /\ forall e, In e l -> f e <= f m.
Proof.
  induction l as [| h l IH]; intros Hne; [congruence |].
  destruct l as [| h' l].
  - exists h. split; [now left |]. intros e [<- | []]. lia.
  - destruct IH as (m & Hm & Hmax); [discriminate |].
    destruct (Z.le_gt_cases (f h) (f m)) as [Hle | Hgt].
    + exists m. split; [now right |].
      intros e [<- | He]; [assumption | now apply Hmax].
    + exists h. split; [now left |].
      intros e [<- | He]; [lia |]. specialize (Hmax e He). lia.
Qed.

Section Diameter.
Variable R : list Point.
Let n := length R.
Hypothesis R_convex : convex_polygon R.
Hypothesis R_range : Forall in_range R.

(** The calipers stop on every farthest pair of vertices. *)
Lemma farthest_examined (a b : nat) (M : Z) :
  (a < b < n)%nat ->
  (forall k, exact_distSq (vtx R a) (vtx R k)
             <= exact_distSq (vtx R a) (vtx R b)) ->
  (forall k, exact_distSq (vtx R b) (vtx R k)
             <= exact_distSq (vtx R a) (vtx R b)) ->
  (forall i q, (i < n)%nat -> first_nonpos R i q ->
               exact_distSq (vtx R i) (vtx R q) <= M) ->
  exact_distSq (vtx R a) (vtx R b) <= M.
Proof.
  intros Hab Ha Hb HM. pose proof (polygon_nonempty R R_convex) as Hn.
  destruct (Z.lt_ge_cases 0 (cross (edge R a) (edge R b))) as [Hpos | Hle].
  - assert (Hfn : first_nonpos R b (a + n)).
    { split; [unfold n in *; lia |]. split.
      - intros t Ht.
        apply (turning_arc R R_convex b (a + length R)); try (unfold n in *; lia).
        + intros k. rewrite (vtx_add_n R Hn).
          rewrite (exact_distSq_sym (vtx R b) (vtx R a)). apply Hb.
        + intros k. rewrite (vtx_add_n R Hn).
          rewrite (exact_distSq_sym (vtx R b) (vtx R a)). apply Ha.
      - unfold n. rewrite (edge_add_n R Hn). rewrite cross_anti. lia. }
    specialize (HM b (a + n)%nat ltac:(lia) Hfn).
    unfold n in HM. rewrite (vtx_add_n R Hn), exact_distSq_sym in HM. exact HM.
  - apply (HM a b); [lia |].
    split; [lia |]. split; [| assumption].
    intros t Ht.
    apply (turning_arc R R_convex a b); try (unfold n in *; lia); assumption.
Qed.

Lemma vertex_pairs_nonempty : list_prod (seq 0 n) (seq 0 n) <> [].
Proof.
  pose proof (cp_size R R_convex) as Hsize. fold n in Hsize.
  destruct n as [| m]; [lia |]. simpl. discriminate.
Qed.

(** On a convex polygon in range the calipers compute the largest squared
    distance between two vertices. *)
Lemma diameterSq_convex (fuel : nat) (M : Z) :
  diameterSq fuel R = Some M ->
  (forall p q, In p R -> In q R -> exact_distSq p q <= M)
  /\ exists p q, In p R /\ In q R /\ M = exact_distSq p q.
Proof.
  pose proof (cp_size R R_convex) as Hsize. pose proof (polygon_nonempty R R_convex) as Hn.
  unfold diameterSq.
  destruct (Nat.eqb_spec (length R) 2) as [E | _]; [lia |].
  destruct (Nat.ltb_spec (length R) 2) as [E | _]; [lia |].
  cbv zeta. intros Hrun.
  replace 1%nat with (1 mod length R)%nat in Hrun at 1
    by (apply Nat.mod_small; lia).
  apply (calipers_spec R R_convex R_range) in Hrun;
    [| lia | lia | intros t Ht; lia].
  destruct Hrun as (H0 & Hcover & Hatt).
  assert (Hall : forall i q, (i < n)%nat -> first_nonpos R i q ->
                   exact_distSq (vtx R i) (vtx R q) <= M).
  { intros i q Hi Hfn. destruct (Hcover i ltac:(unfold n in *; lia)) as (q' & Hfn' & Hle).
    now rewrite (first_nonpos_unique R i q q' Hfn Hfn'). }
  destruct (argmax_exists
              (fun ab => exact_distSq (vtx R (fst ab)) (vtx R (snd ab)))
              _ vertex_pairs_nonempty) as ((a, b) & Hin & Hmax).
  cbn [fst snd] in Hmax. apply in_prod_iff in Hin. destruct Hin as (Hia & Hib).
  apply in_seq in Hia. apply in_seq in Hib.
  assert (Hfar : forall k l,
            exact_distSq (vtx R k) (vtx R l) <= exact_distSq (vtx R a) (vtx R b)).
  { intros k l. rewrite <- (vtx_mod R k), <- (vtx_mod R l).
    apply (Hmax ((k mod length R)%nat, (l mod length R)%nat)).
    apply in_prod_iff. split; apply in_seq; split; try lia;
      apply Nat.mod_upper_bound; lia. }
  assert (Htop : exact_distSq (vtx R a) (vtx R b) <= M).
  { destruct (Nat.lt_trichotomy a b) as [Hlt | [-> | Hgt]].
    - apply farthest_examined; [unfold n; lia | intros; apply Hfar .. | exact Hall].
    - unfold exact_distSq. ring_simplify. 
      replace ((vtx R b).(x) - (vtx R b).(x)) with 0 by ring.
      replace ((vtx R b).(y) - (vtx R b).(y)) with 0 by ring. lia.
    - rewrite exact_distSq_sym.
      apply farthest_examined;
        [unfold n; lia | intros; rewrite (exact_distSq_sym (vtx R b) (vtx R a)); apply Hfar .. | exact Hall]. }
  split.
  - intros p q Hp Hq.
    destruct (in_vtx R p Hp) as (k & _ & <-).
    destruct (in_vtx R q Hq) as (l & _ & <-).
    specialize (Hfar k l). lia.
  - destruct Hatt as [-> | (k & l & ->)].
    + exists (vtx R a), (vtx R b). repeat split; try apply vtx_in; try assumption.
      pose proof (exact_distSq_nonneg (vtx R a) (vtx R b)). lia.
    + exists (vtx R k), (vtx R l). repeat split; apply vtx_in; assumption.
Qed.
End Diameter.

(** ** The farthest input points are vertices *)

(** A vertex that is not behind [q] in the direction from [c] to [q] is
    no nearer to [c]. *)
Lemma beyond_is_farther (c q v : Point) :
  dot (vsub q c) (vsub q v) <= 0 -> exact_distSq c q <= exact_distSq c v.
Proof.
  intros H.
  assert (E : exact_distSq c v
              = exact_distSq c q - 2 * dot (vsub q c) (vsub q v)
                + exact_distSq q v)
    by (unfold exact_distSq, dot, vsub; cbn [x y]; ring).
  pose proof (exact_distSq_nonneg q v). lia.
Qed.

Lemma reaches_max (hull points : list Point) (r : Z) :
  reaches hull points -> (forall h, In h hull -> In h points) ->
  is_max_distSq hull r -> is_max_distSq points r.
Proof.
  intros Hreach Hsub ((p & q & Hp & Hq & ->) & Hmax). split.
  - exists p, q. auto.
  - intros a b Ha Hb.
    destruct (Hreach a b Hb) as (v & Hv & Hle1).
    destruct (Hreach v a Ha) as (w & Hw & Hle2).
    rewrite (exact_distSq_sym a v) in Hle1.
    specialize (Hmax v w Hv Hw). lia.
Qed.

Lemma is_max_dist_sqrt (l : list Point) (r : Z) :
  is_max_distSq l r -> is_max_dist l (sqrt (IZR r)).
Proof.
  intros ((p & q & Hp & Hq & ->) & Hmax). split.
  - exists p, q. auto.
  - intros a b Ha Hb. unfold distance.
    apply sqrt_le_1_alt, IZR_le. now apply Hmax.
Qed.

Section Enclosed.
Variable R : list Point.
Let n := length R.
Hypothesis R_convex : convex_polygon R.

(** A point to the left of, or on, every edge is not beyond the vertex
    that is extreme in a direction. *)
Lemma extreme_vertex (c q : Point) :
  (forall i, 0 <= left_of (vtx R i) (vtx R (i + 1)) q) ->
  exists k, exact_distSq c q <= exact_distSq c (vtx R k).
Proof.
  intros Hin. pose proof (polygon_nonempty R R_convex) as Hn.
  set (u := vsub q c).
  destruct (argmax_exists (fun k => dot u (vtx R k)) (seq 0 n)) as (k & Hk & Hmax).
  { unfold n. destruct (length R); [lia | discriminate]. }
  assert (Htop : forall l, dot u (vtx R l) <= dot u (vtx R k)).
  { intros l. rewrite <- (vtx_mod R l). apply Hmax, in_seq.
    pose proof (Nat.mod_upper_bound l (length R)). unfold n. lia. }
  exists k. apply beyond_is_farther. fold u.
  apply (corner_top (edge R (k + n - 1)) (edge R k)).
  - pose proof (edges_turn R R_convex (k + n - 1)) as H.
    replace (k + n - 1 + 1)%nat with (k + n)%nat in H by lia.
    unfold n in H. now rewrite (edge_add_n R Hn) in H.
  - pose proof (Hin (k + n - 1)%nat) as H.
    rewrite left_of_cross_next in H. unfold edge.
    replace (k + n - 1 + 1)%nat with (k + n)%nat in * by lia.
    unfold n in *. now rewrite (vtx_add_n R Hn) in *.
  - pose proof (Hin k) as H. now rewrite left_of_cross in H.
  - specialize (Htop (k + n - 1)%nat). unfold edge.
    replace (k + n - 1 + 1)%nat with (k + n)%nat by lia.
    unfold n in *. rewrite (vtx_add_n R Hn).
    unfold dot, vsub in *. cbn [x y] in *. lia.
  - specialize (Htop (k + 1)%nat). unfold edge.
    unfold dot, vsub in *. cbn [x y] in *. lia.
Qed.
End Enclosed.

Lemma inside_or_on_vtx (R : list Point) (q : Point) :
  (0 < length R)%nat -> inside_or_on R q ->
  forall i, 0 <= left_of (vtx R i) (vtx R (i + 1)) q.
Proof.
  intros Hn Hq i. unfold vtx.
  rewrite <- (Nat.Div0.add_mod_idemp_l i 1).
  apply Hq. now apply Nat.mod_upper_bound; lia.
Qed.

Lemma convex_polygon_reaches (R points : list Point) :
  convex_polygon R -> (forall q, In q points -> inside_or_on R q) ->
  reaches R points.
Proof.
  intros HR Hin c q Hq. pose proof (polygon_nonempty R HR) as Hn.
  destruct (extreme_vertex R HR c q) as (k & Hk).
  - apply inside_or_on_vtx; auto.
  - exists (vtx R k). split; [now apply vtx_in | assumption].
Qed.

(** Two parallel vectors that are both at or after the origin in the
    order of the sort point the same way. *)
Lemma parallel_same_way (a b : Point) :
  lexle origin a -> lexle origin b -> cross a b = 0 -> 0 <= dot a b.
Proof.
  unfold lexle, origin, cross, dot. cbn [x y]. intros Ha Hb Hc.
  destruct Ha as [Ha | (Ha & Ha')]; destruct Hb as [Hb | (Hb & Hb')].
  - assert (0 < a.(x) * b.(x)) by (apply Z.mul_pos_pos; lia).
    assert (E : (a.(y) * b.(y)) * (a.(x) * b.(x))
                = (a.(y) * b.(x)) * (a.(y) * b.(x)))
      by (replace (a.(y) * b.(x)) with (a.(x) * b.(y)) at 2 by lia; ring).
    pose proof (Z.square_nonneg (a.(y) * b.(x))).
    destruct (Z.le_gt_cases 0 (a.(y) * b.(y))) as [| Hneg]; [lia |].
    assert (a.(y) * b.(y) * (a.(x) * b.(x)) < 0)
      by (apply Z.mul_neg_pos; lia).
    lia.
  - rewrite <- Hb in *. rewrite Z.mul_0_r in *.
    assert (E : a.(x) * b.(y) = 0) by lia.
    apply Z.mul_eq_0 in E. destruct E as [E | E]; [lia |].
    rewrite E. lia.
  - rewrite <- Ha in *. rewrite Z.mul_0_l in *.
    assert (E : a.(y) * b.(x) = 0) by lia.
    apply Z.mul_eq_0 in E. destruct E as [E | E]; [| lia].
    rewrite E. lia.
  - rewrite <- Ha, <- Hb. assert (0 <= a.(y) * b.(y)) by (apply Z.mul_nonneg_nonneg; lia).
    lia.
Qed.

(** A point of the segment from [s1] to [sk] is not beyond both ends. *)
Lemma segment_reaches (s1 sk c q : Point) :
  lexle s1 q -> lexle q sk -> left_of s1 sk q = 0 ->
  exists v, In v [s1; sk] /\ exact_distSq c q <= exact_distSq c v.
Proof.
  intros H1 Hk Hline.
  set (u := vsub q c). set (a := vsub q s1). set (b := vsub sk q).
  assert (Ha : lexle origin a)
    by (unfold lexle, origin, a, vsub in *; cbn [x y] in *; lia).
  assert (Hb : lexle origin b)
    by (unfold lexle, origin, b, vsub in *; cbn [x y] in *; lia).
  assert (Hc : cross a b = 0).
  { unfold left_of in Hline. unfold cross, a, b, vsub. cbn [x y]. lia. }
  pose proof (parallel_same_way a b Ha Hb Hc) as Hd.
  assert (E : dot a a * dot u b = dot a b * dot u a
                                  + cross a b * cross a u)
    by (unfold dot, cross; ring).
  rewrite Hc, Z.mul_0_l, Z.add_0_r in E.
  destruct (Z.le_gt_cases (dot u a) 0) as [Hua | Hua].
  - exists s1. split; [now left |]. apply beyond_is_farther. now fold u a.
  - exists sk. split; [right; now left |]. apply beyond_is_farther. fold u.
    assert (Hub : 0 <= dot u b).
    { assert (0 <= dot a b * dot u a) by (apply Z.mul_nonneg_nonneg; lia).
      destruct (Z.le_gt_cases 0 (dot u b)) as [| Hneg]; [assumption |].
      assert (Haa : 0 <= dot a a)
        by (unfold dot; pose proof (Z.square_nonneg a.(x));
            pose proof (Z.square_nonneg a.(y)); lia).
      destruct (Z.eq_dec (dot a a) 0) as [E0 | E0].
      - exfalso. unfold dot in E0, Hua.
        pose proof (Z.square_nonneg a.(x)). pose proof (Z.square_nonneg a.(y)).
        assert (Ex : a.(x) * a.(x) = 0) by lia.
        assert (Ey : a.(y) * a.(y) = 0) by lia.
        apply Z.mul_eq_0 in Ex. apply Z.mul_eq_0 in Ey.
        assert (Hx0 : a.(x) = 0) by lia. assert (Hy0 : a.(y) = 0) by lia.
        rewrite Hx0, Hy0 in Hua. lia.
      - assert (dot a a * dot u b < 0) by (apply Z.mul_pos_neg; lia). lia. }
    assert (E2 : dot u (vsub q sk) = - dot u b)
      by (unfold dot, b, vsub; cbn [x y]; ring).
    lia.
Qed.

(** ** Hulls without an interior *)

Section OnePoint.
Variable hull : list Point.
Variable a : Point.
Hypothesis all_a : forall h, In h hull -> h = a.
Let n := length hull.

Lemma at_one_point (k : nat) : (k < n)%nat -> at_ hull k = a.
Proof. intros Hk. apply all_a, nth_In. exact Hk. Qed.

Lemma sub_self (z : Z) : IntT.sub z z = 0.
Proof. unfold IntT.sub. now rewrite Z.sub_diag. Qed.

Lemma distSq_self (p : Point) : distSq p p = 0.
Proof. unfold distSq. now rewrite !sub_self. Qed.

Lemma cross_prod_one_point (i j : nat) :
  (i < n)%nat -> (j < n)%nat -> cross_prod hull n i j = 0.
Proof.
  intros Hi Hj. unfold cross_prod. cbv zeta.
  rewrite !at_one_point; try assumption;
    try (apply Nat.mod_upper_bound; lia).
  cbn [x y]. now rewrite !sub_self.
Qed.

Lemma calipers_one_point (fuel : nat) (idxs : list nat) :
  forall j, Forall (fun i => (i < n)%nat) idxs -> (j < n)%nat ->
    calipers (S fuel) hull n idxs j 0 = Some 0.
Proof.
  induction idxs as [| i idxs IH]; intros j Hidxs Hj; [reflexivity |].
  inversion Hidxs as [| ? ? Hi Hrest]; subst.
  cbn [calipers advance]. rewrite cross_prod_one_point by assumption.
  cbn [Z.ltb Z.compare]. cbv zeta.
  rewrite !at_one_point; try assumption;
    try (apply Nat.mod_upper_bound; lia).
  rewrite distSq_self. cbn [Z.max Z.compare]. now apply IH.
Qed.

Lemma diameterSq_one_point (fuel : nat) :
  diameterSq (S fuel) hull = Some 0.
Proof.
  unfold diameterSq.
  destruct (Nat.eqb_spec (length hull) 2) as [E | _].
  - rewrite !at_one_point by (unfold n; lia). now rewrite distSq_self.
  - destruct (Nat.ltb_spec (length hull) 2) as [E | E]; [reflexivity |].
    cbv zeta. apply calipers_one_point; [| fold n; lia].
    apply Forall_forall. intros i Hi. apply in_seq in Hi. fold n in Hi. lia.
Qed.

Lemma one_point_max : hull <> [] -> is_max_distSq hull 0.
Proof.
  intros Hne. assert (Ha : In a hull).
  { destruct hull as [| h l]; [congruence |].
    rewrite <- (all_a h); now left. }
  assert (E : exact_distSq a a = 0)
    by (unfold exact_distSq; rewrite !Z.sub_diag; reflexivity).
  split.
  - exists a, a. auto.
  - intros p q Hp Hq. rewrite (all_a p Hp), (all_a q Hq). lia.
Qed.
End OnePoint.

Lemma pair_max (p q : Point) :
  is_max_distSq [p; q] (exact_distSq p q).
Proof.
  assert (Ep : exact_distSq p p = 0)
    by (unfold exact_distSq; rewrite !Z.sub_diag; reflexivity).
  assert (Eq : exact_distSq q q = 0)
    by (unfold exact_distSq; rewrite !Z.sub_diag; reflexivity).
  pose proof (exact_distSq_nonneg p q). split.
  - exists p, q. simpl. auto.
  - intros a b [<- | [<- | []]] [<- | [<- | []]];
      rewrite ?Ep, ?Eq; try rewrite (exact_distSq_sym q p); lia.
Qed.

Lemma diameterSq_pair (fuel : nat) (p q : Point) :
  in_range p -> in_range q ->
  diameterSq fuel [p; q] = Some (exact_distSq p q).
Proof.
  intros Hp Hq. unfold diameterSq. cbn [length Nat.eqb at_ nth].
  now rewrite distSq_exact.
Qed.

(** The hull [convexHull] returns, when it has three or more vertices. *)
Lemma convexHull_convex_polygon (points : list Point) :
  Forall in_range points -> (2 < length points)%nat ->
  (exists p q, In p points /\ In q points /\ p <> q) ->
  (3 <= length (convexHull points))%nat ->
  convex_polygon (convexHull points).
Proof.
  intros Hrange Hlen Hpq H3.
  assert (Hsub : forall h, In h (convexHull points) -> In h points)
    by apply convexHull_subset.
  assert (Hin : forall q, In q points -> inside_or_on (convexHull points) q)
    by (intros q Hq; now apply convexHull_left_of_edges).
  destruct (convexHull_strict points Hrange Hlen Hpq)
    as (Hnd & Hturn & _).
  specialize (Hturn H3).
  assert (Hn : (0 < length (convexHull points))%nat) by lia.
  split; try assumption.
  - intros i k. apply inside_or_on_vtx; [assumption |].
    apply Hin, Hsub. now apply vtx_in.
  - intros i. unfold vtx.
    rewrite <- (Nat.Div0.add_mod_idemp_l i 1), <- (Nat.Div0.add_mod_idemp_l i 2).
    apply Hturn. apply Nat.mod_upper_bound. lia.
Qed.

Lemma sorted_hd_le (s : list Point) (q : Point) :
  StronglySorted lexle s -> In q s -> lexle (hd origin s) q.
Proof.
  intros Hs Hq. destruct s as [| e s']; [contradiction |]. cbn [hd].
  destruct Hq as [<- | Hq]; [apply lexle_refl |].
  apply StronglySorted_inv in Hs. destruct Hs as [_ He].
  rewrite Forall_forall in He. now apply He.
Qed.

Lemma convexHull_small (points : list Point) :
  (length points <= 2)%nat -> convexHull points = points.
Proof.
  intros H. unfold convexHull, convexHull_run. cbv zeta.
  now destruct (Nat.leb_spec (length points) 2); [| lia].
Qed.

Lemma left_of_swap_12 (a b c : Point) : left_of b a c = - left_of a b c.
Proof. unfold left_of. ring. Qed.

(** An input on one line: the two vertices are the ends of the segment
    that holds every input point. *)
Lemma flat_hull_reaches (points : list Point) (s1 sk : Point) :
  let s := std_sort Point_lt points in
  s1 = hd origin s -> sk = last s origin ->
  two_chains points [s1; sk] [sk; s1] ->
  reaches [s1; sk] points.
Proof.
  intros s H1 Hk Hchains c q Hq.
  assert (Hs : StronglySorted lexle s) by apply sort_lex_sorted.
  assert (Hqs : In q s)
    by (apply (Permutation_in _ (std_sort_perm Point_lt points)); assumption).
  apply segment_reaches.
  - rewrite H1. now apply sorted_hd_le.
  - rewrite Hk. now apply sorted_le_last.
  - pose proof (low_left _ _ _ Hchains q s1 sk Hq) as Hlow.
    pose proof (up_left _ _ _ Hchains q sk s1 Hq) as Hup.
    rewrite left_of_swap_12 in Hup.
    assert (0 <= left_of s1 sk q) by (apply Hlow; now exists [], []).
    assert (0 <= - left_of s1 sk q) by (apply Hup; now exists [], []).
    lia.
Qed.

(** On two or more points with coordinates in [[-2^30, 2^30)] the
    radicand is the largest squared distance between two vertices of the
    hull, which is the largest between two input points. *)
Lemma diameterSq_hull (points : list Point) (fuel : nat) :
  Forall in_range points ->
  (2 <= length points)%nat -> (length points <= fuel)%nat ->
  exists r, diameterSq fuel (convexHull points) = Some r
            /\ is_max_distSq (convexHull points) r
            /\ is_max_distSq points r.
Proof.
  intros Hrange Hlen Hfuel.
  assert (Hsub : forall h, In h (convexHull points) -> In h points)
    by apply convexHull_subset.
  assert (Hin : forall q, In q points -> inside_or_on (convexHull points) q)
    by (intros q Hq; now apply convexHull_left_of_edges).
  set (a := hd origin points).
  assert (Ha : In a points) by (destruct points; [simpl in Hlen; lia | now left]).
  destruct (Forall_Exists_dec (fun p => p = a) (fun p => Point_eq_dec p a) points)
    as [Hall | Hex].
  - rewrite Forall_forall in Hall. exists 0.
    assert (Hhull : forall h, In h (convexHull points) -> h = a)
      by (intros h Hh; apply Hall, Hsub, Hh).
    destruct fuel as [| fuel]; [lia |]. split; [| split].
    + now apply (diameterSq_one_point _ a).
    + apply (one_point_max _ a Hhull).
      destruct (Nat.le_gt_cases (length points) 2) as [Hs | Hl].
      * rewrite convexHull_small by assumption. intros ->. simpl in Hlen. lia.
      * destruct (convexHull_chains points Hl Hrange) as (TL & TU & _ & _ & ->).
        discriminate.
    + apply (one_point_max _ a Hall). intros ->. simpl in Hlen. lia.
  - apply Exists_exists in Hex. destruct Hex as (p & Hp & Hpa).
    assert (Hpq : exists p q, In p points /\ In q points /\ p <> q)
      by (exists p, a; auto).
    destruct (Nat.le_gt_cases (length points) 2) as [Hs | Hl].
    + rewrite convexHull_small by assumption.
      destruct points as [| u [| v [| w l]]]; simpl in Hlen, Hs; try lia.
      exists (exact_distSq u v).
      inversion Hrange as [| ? ? Hu Hr]; subst.
      inversion Hr as [| ? ? Hv _]; subst.
      split; [now apply diameterSq_pair | split; apply pair_max].
    + destruct (convexHull_strict points Hrange Hl Hpq)
        as (Hnd & _ & _).
      assert (Hhl : (length (convexHull points) <= length points)%nat)
        by (apply NoDup_incl_length; assumption).
      pose proof (std_sort_perm Point_lt points) as Hperm.
      assert (Hne : hd origin (std_sort Point_lt points)
                    <> last (std_sort Point_lt points) origin).
      { apply (sorted_ends_differ _ p a); auto using sort_lex_sorted;
          now apply (Permutation_in _ Hperm). }
      destruct (Nat.le_gt_cases 3 (length (convexHull points))) as [H3 | H3].
      * pose proof (convexHull_convex_polygon points Hrange Hl Hpq H3) as Hcp.
        assert (Hhr : Forall in_range (convexHull points)).
        { rewrite Forall_forall in *. intros h Hh. now apply Hrange, Hsub. }
        destruct (diameterSq_terminates fuel (convexHull points)) as (r & Hr);
          [lia |].
        exists r. split; [assumption |].
        destruct (diameterSq_convex _ Hcp Hhr fuel r Hr) as (Hmax & Hatt).
        assert (Hm : is_max_distSq (convexHull points) r) by (split; assumption).
        split; [assumption |].
        apply (reaches_max (convexHull points)); try assumption.
        now apply convex_polygon_reaches.
      * destruct (convexHull_two_chains points Hl Hrange Hne)
          as (ML & MU & Hhull & Hchains).
        rewrite Hhull in *.
        destruct ML as [| m ML]; [| rewrite length_app in H3; simpl in H3; lia].
        destruct MU as [| m MU]; [| simpl in H3; lia].
        cbn [app] in *.
        set (s1 := hd origin _) in *. set (sk := last _ origin) in *.
        exists (exact_distSq s1 sk).
        assert (H1 : in_range s1).
        { rewrite Forall_forall in Hrange. apply Hrange, Hsub. now left. }
        assert (Hk : in_range sk).
        { rewrite Forall_forall in Hrange. apply Hrange, Hsub. right. now left. }
        split; [now apply diameterSq_pair |].
        split; [apply pair_max |].
        apply (reaches_max [s1; sk]); try assumption; [| apply pair_max].
        now apply flat_hull_reaches.
Qed.

(** X15: on two or more points with coordinates in [[-2^30, 2^30)],
    [polygonDiameter] returns the largest distance between two vertices of
    the hull, which is the largest distance between two input points. *)
Theorem polygonDiameter_in_range (points : list Point) (fuel : nat) :
  Forall in_range points ->
  (2 <= length points)%nat -> (length points <= fuel)%nat ->
  exists d, polygonDiameter fuel points = Some d
            /\ is_max_dist (convexHull points) d
            /\ is_max_dist points d.
Proof.
  intros Hrange Hlen Hfuel.
  destruct (diameterSq_hull points fuel Hrange Hlen Hfuel)
    as (r & Hr & Hhull & Hpoints).
  exists (sqrt (IZR r)).
  split; [| split; now apply is_max_dist_sqrt].
  unfold polygonDiameter, polygonDiameter_run.
  destruct (Nat.ltb_spec (length points) 2) as [| _]; [lia |].
  unfold convexHull in Hr.
  destruct (convexHull_run points) as [hull points']. cbn [fst] in *.
  now rewrite Hr.
Qed.

Lemma polygonDiameter_in_range_witness :
  let points :=
    [mkPoint 0 0; mkPoint 4 0; mkPoint 4 3; mkPoint 0 3; mkPoint 2 2] in
  exists d, polygonDiameter 5 points = Some d /\ is_max_dist points d.
Proof.
  intros points.
  destruct (polygonDiameter_in_range points 5) as (d & Hd & _ & Hmax).
  - unfold points, in_range. repeat constructor; cbn [x y]; lia.
  - vm_compute. lia.
  - vm_compute. lia.
  - exists d. split; assumption.
Defined.

(** * The predicates *)

(** ** [operator<] and [operator==] *)

Lemma Point_eqb_eq (a b : Point) : Point_eqb a b = true <-> a = b.
Proof.
  unfold Point_eqb. rewrite andb_true_iff, !Z.eqb_eq. split.
  - intros [Hx Hy]. now apply Point_eq.
  - now intros ->.
Qed.

(** ** [orientation] where the differences are values of [T] *)

Lemma near_sym (p q : Point) : near p q -> near q p.
Proof. unfold near. lia. Qed.

Lemma near_sub (p q : Point) :
  near p q ->
  IntT.sub p.(x) q.(x) = p.(x) - q.(x) /\ IntT.sub p.(y) q.(y) = p.(y) - q.(y).
Proof.
  unfold near, IntT.maxT. intros [Hx Hy].
  split; apply wrap_small; unfold IntT.inT, IntT.minT, IntT.maxT; lia.
Qed.

Lemma in_range_near (p q : Point) : in_range p -> in_range q -> near p q.
Proof. unfold in_range, near, IntT.maxT. lia. Qed.

Lemma in_range_close (l : list Point) : Forall in_range l -> close l.
Proof.
  rewrite Forall_forall. intros H p q Hp Hq. apply in_range_near; auto.
Qed.

Lemma orientation_near (p q r : Point) :
  near q p -> near r q -> orientation p q r = exact_orientation p q r.
Proof.
  intros Hqp Hrq. rewrite orientation_spec. unfold exact_orientation.
  replace (orientation_val p q r) with (exact_val p q r); [reflexivity |].
  unfold orientation_val, exact_val.
  destruct (near_sub _ _ Hqp) as [-> ->].
  destruct (near_sub _ _ Hrq) as [-> ->]. reflexivity.
Qed.

(** The three answers, by the side of the line from [p] to [q] that [r]
    is on. *)
Lemma exact_orientation_0 (p q r : Point) :
  exact_orientation p q r = 0 <-> left_of p q r = 0.
Proof.
  unfold exact_orientation. rewrite left_of_exact_val.
  destruct (Z.eqb_spec (exact_val p q r) 0); [lia |].
  destruct (Z.ltb_spec 0 (exact_val p q r)); lia.
Qed.

Lemma exact_orientation_1 (p q r : Point) :
  exact_orientation p q r = 1 <-> left_of p q r < 0.
Proof.
  unfold exact_orientation. rewrite left_of_exact_val.
  destruct (Z.eqb_spec (exact_val p q r) 0); [lia |].
  destruct (Z.ltb_spec 0 (exact_val p q r)); lia.
Qed.

Lemma exact_orientation_2 (p q r : Point) :
  exact_orientation p q r = 2 <-> 0 < left_of p q r.
Proof.
  unfold exact_orientation. rewrite left_of_exact_val.
  destruct (Z.eqb_spec (exact_val p q r) 0); [lia |].
  destruct (Z.ltb_spec 0 (exact_val p q r)); lia.
Qed.

Lemma exact_orientation_cases (p q r : Point) :
  exact_orientation p q r = 0 \/ exact_orientation p q r = 1
  \/ exact_orientation p q r = 2.
Proof.
  unfold exact_orientation.
  destruct (exact_val p q r =? 0); [auto |].
  destruct (0 <? exact_val p q r); auto.
Qed.

(** ** [onSegment] *)

Lemma onSegment_box (p q r : Point) :
  onSegment p q r = true <->
  (Z.min p.(x) r.(x) <= q.(x) <= Z.max p.(x) r.(x))
  /\ (Z.min p.(y) r.(y) <= q.(y) <= Z.max p.(y) r.(y)).
Proof.
  unfold onSegment. rewrite !andb_true_iff, !Z.leb_le. tauto.
Qed.

(** A point of the line through [p] and [r] that is in their box is on
    the segment. *)
Lemma box_on_segment (p q r : Point) :
  left_of p r q = 0 -> onSegment p q r = true -> on_segment p r q.
Proof.
  rewrite onSegment_box. unfold left_of, on_segment. intros Hline [Hx Hy].
  set (ux := r.(x) - p.(x)) in *. set (uy := r.(y) - p.(y)) in *.
  set (ex := q.(x) - p.(x)) in *. set (ey := q.(y) - p.(y)) in *.
  assert (Hex : Z.min 0 ux <= ex <= Z.max 0 ux) by (unfold ux, ex; lia).
  assert (Hey : Z.min 0 uy <= ey <= Z.max 0 uy) by (unfold uy, ey; lia).
  clearbody ux uy ex ey.
  assert (Hc : ux * ey = uy * ex) by lia.
  destruct (Z.lt_trichotomy ux 0) as [Hu | [Hu | Hu]].
  - exists (- ux), (- ex). split; [lia | split; [lia | split; [ring |]]].
    replace (- ux * ey) with (- (ux * ey)) by ring. rewrite Hc. ring.
  - assert (Hq : ex = 0) by lia.
    destruct (Z.lt_trichotomy uy 0) as [Hv | [Hv | Hv]].
    + exists (- uy), (- ey).
      split; [lia | split; [lia | split; [rewrite Hu, Hq; ring | ring]]].
    + exists 1, 0. split; [lia | split; [lia | split; lia]].
    + exists uy, ey.
      split; [lia | split; [lia | split; [rewrite Hu, Hq; ring | ring]]].
  - exists ux, ex. split; [lia | split; [lia | split; [ring |]]].
    rewrite Hc. ring.
Qed.

Lemma scaled_between (D s e u : Z) :
  0 < D -> 0 <= s <= D -> D * e = s * u ->
  Z.min 0 u <= e <= Z.max 0 u.
Proof.
  intros HD Hs E.
  destruct (Z.le_gt_cases 0 u) as [Hu | Hu].
  - assert (0 <= s * u) by (apply Z.mul_nonneg_nonneg; lia).
    assert (s * u <= D * u) by (apply Z.mul_le_mono_nonneg_r; lia).
    assert (0 <= e) by (apply (Z.mul_le_mono_pos_l _ _ D); lia).
    assert (e <= u) by (apply (Z.mul_le_mono_pos_l _ _ D); lia).
    lia.
  - assert (s * u <= 0) by (apply Z.mul_nonneg_nonpos; lia).
    assert (D * u <= s * u) by (apply Z.mul_le_mono_nonpos_r; lia).
    assert (e <= 0) by (apply (Z.mul_le_mono_pos_l _ _ D); lia).
    assert (u <= e) by (apply (Z.mul_le_mono_pos_l _ _ D); lia).
    lia.
Qed.

Lemma on_segment_box (p q r : Point) :
  on_segment p r q -> left_of p r q = 0 /\ onSegment p q r = true.
Proof.
  intros (D & s & HD & Hs & Ex & Ey). split.
  - unfold left_of.
    assert (E : D * ((r.(x) - p.(x)) * (q.(y) - p.(y))
                     - (r.(y) - p.(y)) * (q.(x) - p.(x))) = 0).
    { replace (D * ((r.(x) - p.(x)) * (q.(y) - p.(y))
                    - (r.(y) - p.(y)) * (q.(x) - p.(x))))
        with ((r.(x) - p.(x)) * (D * (q.(y) - p.(y)))
              - (r.(y) - p.(y)) * (D * (q.(x) - p.(x)))) by ring.
      rewrite Ex, Ey. ring. }
    apply Z.mul_eq_0 in E. lia.
  - apply onSegment_box.
    pose proof (scaled_between D s _ _ HD Hs Ex).
    pose proof (scaled_between D s _ _ HD Hs Ey). lia.
Qed.

(** ** [doIntersect] *)

(** The cascade of [if]s is a disjunction. *)
Lemma doIntersect_or (p1 q1 p2 q2 : Point) :
  doIntersect p1 q1 p2 q2
  = (negb (orientation p1 q1 p2 =? 0) && negb (orientation p1 q1 q2 =? 0)
     && negb (orientation p1 q1 p2 =? orientation p1 q1 q2))
    && (negb (orientation p2 q2 p1 =? 0) && negb (orientation p2 q2 q1 =? 0)
        && negb (orientation p2 q2 p1 =? orientation p2 q2 q1))
    || (orientation p1 q1 p2 =? 0) && onSegment p1 p2 q1
    || (orientation p1 q1 q2 =? 0) && onSegment p1 q2 q1
    || (orientation p2 q2 p1 =? 0) && onSegment p2 p1 q2
    || (orientation p2 q2 q1 =? 0) && onSegment p2 q1 q2.
Proof.
  unfold doIntersect. cbv zeta.
  destruct (orientation p1 q1 p2 =? 0), (orientation p1 q1 q2 =? 0),
    (orientation p2 q2 p1 =? 0), (orientation p2 q2 q1 =? 0),
    (orientation p1 q1 p2 =? orientation p1 q1 q2),
    (orientation p2 q2 p1 =? orientation p2 q2 q1),
    (onSegment p1 p2 q1), (onSegment p1 q2 q1),
    (onSegment p2 p1 q2), (onSegment p2 q1 q2); reflexivity.
Qed.

Lemma opposite_turns (p q r r' : Point) :
  negb (exact_orientation p q r =? 0) && negb (exact_orientation p q r' =? 0)
  && negb (exact_orientation p q r =? exact_orientation p q r') = true
  <-> opposite (left_of p q r) (left_of p q r').
Proof.
  unfold opposite.
  destruct (Z.lt_trichotomy (left_of p q r) 0) as [H | [H | H]];
    [ rewrite (proj2 (exact_orientation_1 p q r) H)
    | rewrite (proj2 (exact_orientation_0 p q r) H)
    | rewrite (proj2 (exact_orientation_2 p q r) H) ];
    (destruct (Z.lt_trichotomy (left_of p q r') 0) as [H' | [H' | H']];
     [ rewrite (proj2 (exact_orientation_1 p q r') H')
     | rewrite (proj2 (exact_orientation_0 p q r') H')
     | rewrite (proj2 (exact_orientation_2 p q r') H') ]);
    cbn; split; intros K; try discriminate K; try reflexivity; lia.
Qed.

Lemma zero_turn (p q r : Point) :
  (exact_orientation p q r =? 0) = true <-> left_of p q r = 0.
Proof. rewrite Z.eqb_eq. apply exact_orientation_0. Qed.

(** What [doIntersect] tests, where the differences are values of [T]. *)
Lemma doIntersect_tests (p1 q1 p2 q2 : Point) :
  close [p1; q1; p2; q2] ->
  doIntersect p1 q1 p2 q2 = true <->
  (opposite (left_of p1 q1 p2) (left_of p1 q1 q2)
   /\ opposite (left_of p2 q2 p1) (left_of p2 q2 q1))
  \/ (left_of p1 q1 p2 = 0 /\ onSegment p1 p2 q1 = true)
  \/ (left_of p1 q1 q2 = 0 /\ onSegment p1 q2 q1 = true)
  \/ (left_of p2 q2 p1 = 0 /\ onSegment p2 p1 q2 = true)
  \/ (left_of p2 q2 q1 = 0 /\ onSegment p2 q1 q2 = true).
Proof.
  intros Hc.
  assert (Hn : forall a b, In a [p1; q1; p2; q2] -> In b [p1; q1; p2; q2] ->
                 near a b) by exact Hc.
  rewrite doIntersect_or.
  rewrite !orientation_near by (apply Hn; simpl; tauto).
  rewrite !orb_true_iff, !(andb_true_iff (_ && _ && _)), !opposite_turns.
  rewrite !(andb_true_iff (_ =? 0)), !zero_turn. tauto.
Qed.

(** ** Two segments, by their directions *)

(** [u] and [w] are the directions of the two segments and [e] leads from
    the start of the first to the start of the second; the segments meet
    when [s u - t w = D e] for some [0 <= s, t <= D]. *)
Section TwoSegments.
Variables ux uy wx wy ex ey : Z.

Let d1 := ux * ey - uy * ex.
Let d2 := ux * (ey + wy) - uy * (ex + wx).
Let d3 := wy * ex - wx * ey.
Let d4 := wx * (uy - ey) - wy * (ux - ex).
Let c := ux * wy - uy * wx.

Lemma proper_crossing :
  opposite d1 d2 -> opposite d3 d4 ->
  exists D s t, 0 < D /\ 0 <= s <= D /\ 0 <= t <= D
    /\ s * ux - t * wx = D * ex /\ s * uy - t * wy = D * ey.
Proof.
  intros H12 H34.
  assert (E2 : d2 = d1 + c) by (unfold d1, d2, c; ring).
  assert (E4 : d4 = d3 - c) by (unfold d3, d4, c; ring).
  assert (Ex : d3 * ux + d1 * wx = c * ex) by (unfold d1, d3, c; ring).
  assert (Ey : d3 * uy + d1 * wy = c * ey) by (unfold d1, d3, c; ring).
  unfold opposite in *. clearbody d1 d2 d3 d4 c.
  destruct (Z.lt_trichotomy c 0) as [Hc | [Hc | Hc]].
  - exists (- c), (- d3), d1. repeat split; try lia.
  - lia.
  - exists c, d3, (- d1). repeat split; try lia.
Qed.

Section Meeting.
Variables D s t : Z.
Hypothesis D_pos : 0 < D.
Hypothesis s_range : 0 <= s <= D.
Hypothesis t_range : 0 <= t <= D.
Hypothesis meet_x : s * ux - t * wx = D * ex.
Hypothesis meet_y : s * uy - t * wy = D * ey.

Lemma meeting_d1 : D * d1 = - t * c.
Proof.
  unfold d1, c.
  replace (D * (ux * ey - uy * ex)) with (ux * (D * ey) - uy * (D * ex)) by ring.
  rewrite <- meet_x, <- meet_y. ring.
Qed.

Lemma meeting_d3 : D * d3 = s * c.
Proof.
  unfold d3, c.
  replace (D * (wy * ex - wx * ey)) with (wy * (D * ex) - wx * (D * ey)) by ring.
  rewrite <- meet_x, <- meet_y. ring.
Qed.

Lemma meeting_d2 : D * d2 = (D - t) * c.
Proof.
  replace d2 with (d1 + c) by (unfold d1, d2, c; ring).
  rewrite Z.mul_add_distr_l, meeting_d1. ring.
Qed.

Lemma meeting_d4 : D * d4 = (s - D) * c.
Proof.
  replace d4 with (d3 - c) by (unfold d3, d4, c; ring).
  rewrite Z.mul_sub_distr_l, meeting_d3. ring.
Qed.

(** Not parallel, and the common point inside both segments. *)
Lemma meeting_inside :
  c <> 0 -> 0 < s < D -> 0 < t < D -> opposite d1 d2 /\ opposite d3 d4.
Proof.
  intros Hc Hs Ht.
  pose proof meeting_d1 as K1. pose proof meeting_d2 as K2.
  pose proof meeting_d3 as K3. pose proof meeting_d4 as K4.
  clearbody d1 d2 d3 d4 c. unfold opposite.
  destruct (Z.lt_trichotomy c 0) as [Hn | [Hn | Hn]]; [| lia |].
  - assert (t * c < 0) by (apply Z.mul_pos_neg; lia).
    assert ((D - t) * c < 0) by (apply Z.mul_pos_neg; lia).
    assert (s * c < 0) by (apply Z.mul_pos_neg; lia).
    assert (0 < (s - D) * c) by (apply Z.mul_neg_neg; lia).
    assert (0 < D * d1) by lia. assert (D * d2 < 0) by lia.
    assert (D * d3 < 0) by lia. assert (0 < D * d4) by lia.
    assert (0 < d1) by (apply (Z.mul_pos_cancel_l D); lia).
    assert (0 < d4) by (apply (Z.mul_pos_cancel_l D); lia).
    assert (d2 < 0) by (apply (Z.mul_lt_mono_pos_l D); lia).
    assert (d3 < 0) by (apply (Z.mul_lt_mono_pos_l D); lia).
    lia.
  - assert (0 < t * c) by (apply Z.mul_pos_pos; lia).
    assert (0 < (D - t) * c) by (apply Z.mul_pos_pos; lia).
    assert (0 < s * c) by (apply Z.mul_pos_pos; lia).
    assert ((s - D) * c < 0) by (apply Z.mul_neg_pos; lia).
    assert (D * d1 < 0) by lia. assert (0 < D * d2) by lia.
    assert (0 < D * d3) by lia. assert (D * d4 < 0) by lia.
    assert (0 < d2) by (apply (Z.mul_pos_cancel_l D); lia).
    assert (0 < d3) by (apply (Z.mul_pos_cancel_l D); lia).
    assert (d1 < 0) by (apply (Z.mul_lt_mono_pos_l D); lia).
    assert (d4 < 0) by (apply (Z.mul_lt_mono_pos_l D); lia).
    lia.
Qed.

(** Parallel: an end of one segment is on the other. *)
Lemma meeting_parallel :
  c = 0 ->
  (exists D' s', 0 < D' /\ 0 <= s' <= D'
     /\ D' * ex = s' * ux /\ D' * ey = s' * uy)
  \/ (exists D' s', 0 < D' /\ 0 <= s' <= D'
        /\ D' * (ex + wx) = s' * ux /\ D' * (ey + wy) = s' * uy)
  \/ (exists D' t', 0 < D' /\ 0 <= t' <= D'
        /\ D' * (- ex) = t' * wx /\ D' * (- ey) = t' * wy).
Proof.
  intros Hc.
  pose proof meeting_d1 as K1. pose proof meeting_d2 as K2.
  pose proof meeting_d3 as K3.
  rewrite Hc, Z.mul_0_r in K1, K2, K3.
  apply Z.mul_eq_0 in K1, K2, K3.
  assert (Z1 : d1 = 0) by lia. assert (Z2 : d2 = 0) by lia.
  assert (Z3 : d3 = 0) by lia. clear K1 K2 K3.
  set (N := ux * ux + uy * uy). set (a := ux * ex + uy * ey).
  set (g := ux * wx + uy * wy).
  assert (HN : 0 <= N)
    by (unfold N; pose proof (Z.square_nonneg ux);
        pose proof (Z.square_nonneg uy); lia).
  assert (Ax : N * ex = a * ux) by
    (replace (N * ex) with (a * ux - d1 * uy) by (unfold N, a, d1; ring);
     rewrite Z1; ring).
  assert (Ay : N * ey = a * uy) by
    (replace (N * ey) with (a * uy + d1 * ux) by (unfold N, a, d1; ring);
     rewrite Z1; ring).
  assert (Bx : N * (ex + wx) = (a + g) * ux) by
    (replace (N * (ex + wx)) with ((a + g) * ux - d2 * uy)
       by (unfold N, a, g, d2; ring);
     rewrite Z2; ring).
  assert (By : N * (ey + wy) = (a + g) * uy) by
    (replace (N * (ey + wy)) with ((a + g) * uy + d2 * ux)
       by (unfold N, a, g, d2; ring);
     rewrite Z2; ring).
  assert (Gx : g * ex = a * wx) by
    (replace (g * ex) with (a * wx + uy * d3) by (unfold a, g, d3; ring);
     rewrite Z3; ring).
  assert (Gy : g * ey = a * wy) by
    (replace (g * ey) with (a * wy - ux * d3) by (unfold a, g, d3; ring);
     rewrite Z3; ring).
  assert (S : s * N = (D - t) * a + t * (a + g)).
  { replace ((D - t) * a + t * (a + g)) with (D * a + t * g) by ring.
    unfold a. replace (D * (ux * ex + uy * ey))
      with (ux * (D * ex) + uy * (D * ey)) by ring.
    rewrite <- meet_x, <- meet_y. unfold N, g. ring. }
  destruct (Z.eq_dec N 0) as [N0 | N0].
  { right. right. exists D, t.
    assert (Hu : ux = 0 /\ uy = 0).
    { unfold N in N0. pose proof (Z.square_nonneg ux) as Hx2.
      pose proof (Z.square_nonneg uy) as Hy2.
      assert (Ex0 : ux * ux = 0) by lia. assert (Ey0 : uy * uy = 0) by lia.
      apply Z.mul_eq_0 in Ex0, Ey0. lia. }
    destruct Hu as [Hux Huy]. rewrite Hux in meet_x. rewrite Huy in meet_y.
    repeat split; lia. }
  clearbody N a g d1 d2 d3.
  destruct (Z_lt_dec a 0) as [Ha | Ha].
  - destruct (Z_lt_dec (a + g) 0) as [Hb | Hb].
    + exfalso.
      assert ((D - t) * a <= 0) by (apply Z.mul_nonneg_nonpos; lia).
      assert (t * (a + g) <= 0) by (apply Z.mul_nonneg_nonpos; lia).
      assert (0 <= s * N) by (apply Z.mul_nonneg_nonneg; lia).
      destruct (Z.eq_dec t 0) as [Ht0 | Ht0].
      * rewrite Ht0 in *.
        assert (D * a < 0) by (apply Z.mul_pos_neg; lia). lia.
      * assert (t * (a + g) < 0) by (apply Z.mul_pos_neg; lia). lia.
    + destruct (Z_lt_dec N (a + g)) as [Hb' | Hb'].
      * right. right. exists g, (- a). repeat split; lia.
      * right. left. exists N, (a + g). repeat split; lia.
  - destruct (Z_lt_dec N a) as [Ha' | Ha'].
    + destruct (Z_lt_dec (a + g) 0) as [Hb | Hb].
      * right. right. exists (- g), a. repeat split; lia.
      * destruct (Z_lt_dec N (a + g)) as [Hb' | Hb'].
        -- exfalso.
           assert ((D - t) * N <= (D - t) * a)
             by (apply Z.mul_le_mono_nonneg_l; lia).
           assert (t * N <= t * (a + g)) by (apply Z.mul_le_mono_nonneg_l; lia).
           assert (s * N <= D * N) by (apply Z.mul_le_mono_nonneg_r; lia).
           destruct (Z.eq_dec t 0) as [Ht0 | Ht0].
           ++ rewrite Ht0 in *.
              assert (D * N < D * a) by (apply Z.mul_lt_mono_pos_l; lia). lia.
           ++ assert (t * N < t * (a + g))
                by (apply Z.mul_lt_mono_pos_l; lia). lia.
        -- right. left. exists N, (a + g). repeat split; lia.
    + left. exists N, a. repeat split; lia.
Qed.

Lemma meeting_tested :
  (opposite d1 d2 /\ opposite d3 d4)
  \/ (exists D' s', 0 < D' /\ 0 <= s' <= D'
        /\ D' * ex = s' * ux /\ D' * ey = s' * uy)
  \/ (exists D' s', 0 < D' /\ 0 <= s' <= D'
        /\ D' * (ex + wx) = s' * ux /\ D' * (ey + wy) = s' * uy)
  \/ (exists D' t', 0 < D' /\ 0 <= t' <= D'
        /\ D' * (- ex) = t' * wx /\ D' * (- ey) = t' * wy)
  \/ (exists D' t', 0 < D' /\ 0 <= t' <= D'
        /\ D' * (ux - ex) = t' * wx /\ D' * (uy - ey) = t' * wy).
Proof.
  destruct (Z.eq_dec t 0) as [Ht0 | Ht0].
  { right. left. exists D, s. rewrite Ht0 in meet_x, meet_y.
    repeat split; lia. }
  destruct (Z.eq_dec t D) as [HtD | HtD].
  { right. right. left. exists D, s. rewrite HtD in meet_x, meet_y.
    repeat split; lia. }
  destruct (Z.eq_dec s 0) as [Hs0 | Hs0].
  { do 3 right. left. exists D, t. rewrite Hs0 in meet_x, meet_y.
    repeat split; lia. }
  destruct (Z.eq_dec s D) as [HsD | HsD].
  { do 4 right. exists D, t. rewrite HsD in meet_x, meet_y.
    repeat split; lia. }
  destruct (Z.eq_dec c 0) as [Hc | Hc].
  - destruct (meeting_parallel Hc) as [H | [H | H]]; auto.
  - left. apply meeting_inside; [assumption | lia | lia].
Qed.
End Meeting.
End TwoSegments.

(** Where the differences are values of [T], [doIntersect] answers
    whether the two closed segments have a common point. *)
Lemma doIntersect_iff_meet (p1 q1 p2 q2 : Point) :
  close [p1; q1; p2; q2] ->
  doIntersect p1 q1 p2 q2 = true <-> segments_meet p1 q1 p2 q2.
Proof.
  intros Hc. rewrite (doIntersect_tests _ _ _ _ Hc).
  set (ux := q1.(x) - p1.(x)). set (uy := q1.(y) - p1.(y)).
  set (wx := q2.(x) - p2.(x)). set (wy := q2.(y) - p2.(y)).
  set (ex := p2.(x) - p1.(x)). set (ey := p2.(y) - p1.(y)).
  assert (E1 : left_of p1 q1 p2 = ux * ey - uy * ex) by reflexivity.
  assert (E2 : left_of p1 q1 q2 = ux * (ey + wy) - uy * (ex + wx))
    by (unfold left_of, ux, uy, wx, wy, ex, ey; ring).
  assert (E3 : left_of p2 q2 p1 = wy * ex - wx * ey)
    by (unfold left_of, ux, uy, wx, wy, ex, ey; ring).
  assert (E4 : left_of p2 q2 q1 = wx * (uy - ey) - wy * (ux - ex))
    by (unfold left_of, ux, uy, wx, wy, ex, ey; ring).
  split.
  - intros [[H12 H34] | [[Hz Hs] | [[Hz Hs] | [[Hz Hs] | [Hz Hs]]]]].
    + rewrite E1, E2 in H12. rewrite E3, E4 in H34.
      destruct (proper_crossing ux uy wx wy ex ey H12 H34)
        as (D & s & t & HD & Hs & Ht & Hx & Hy).
      exists D, s, t. fold ux uy wx wy. unfold ex, ey in Hx, Hy.
      repeat split; lia.
    + destruct (box_on_segment _ _ _ Hz Hs) as (D & s & HD & Hr & Hx & Hy).
      exists D, s, 0. fold ux uy wx wy. fold ux ex in Hx. fold uy ey in Hy.
      unfold ex, ey in Hx, Hy. repeat split; lia.
    + destruct (box_on_segment _ _ _ Hz Hs) as (D & s & HD & Hr & Hx & Hy).
      exists D, s, D. fold ux uy wx wy. fold ux in Hx. fold uy in Hy.
      unfold wx, wy. repeat split; lia.
    + destruct (box_on_segment _ _ _ Hz Hs) as (D & t & HD & Hr & Hx & Hy).
      exists D, 0, t. fold ux uy wx wy. fold wx in Hx. fold wy in Hy.
      repeat split; lia.
    + destruct (box_on_segment _ _ _ Hz Hs) as (D & t & HD & Hr & Hx & Hy).
      exists D, D, t. fold ux uy wx wy. fold wx in Hx. fold wy in Hy.
      unfold ux, uy. repeat split; lia.
  - intros (D & s & t & HD & Hs & Ht & Hx & Hy).
    fold ux wx in Hx. fold uy wy in Hy.
    assert (Hx' : s * ux - t * wx = D * ex) by (unfold ex; lia).
    assert (Hy' : s * uy - t * wy = D * ey) by (unfold ey; lia).
    rewrite E1, E2, E3, E4.
    destruct (meeting_tested ux uy wx wy ex ey D s t HD Hs Ht Hx' Hy')
      as [H | [H | [H | [H | H]]]]; [now left | right .. ].
    + left. rewrite <- E1. apply on_segment_box.
      destruct H as (D' & s' & H1 & H2 & H3 & H4). exists D', s'.
      fold ux uy ex ey. auto.
    + right. left. rewrite <- E2. apply on_segment_box.
      destruct H as (D' & s' & H1 & H2 & H3 & H4). exists D', s'.
      fold ux uy. unfold ex, wx in H3. unfold ey, wy in H4.
      repeat split; lia.
    + do 2 right. left. rewrite <- E3. apply on_segment_box.
      destruct H as (D' & s' & H1 & H2 & H3 & H4). exists D', s'.
      fold wx wy. unfold ex in H3. unfold ey in H4.
      repeat split; lia.
    + do 3 right. rewrite <- E4. apply on_segment_box.
      destruct H as (D' & s' & H1 & H2 & H3 & H4). exists D', s'.
      fold wx wy. unfold ux, ex in H3. unfold uy, ey in H4.
      repeat split; lia.
Qed.

(** * [convexHull] on every input *)

(** A scan of [convexHull] leaves the first point at the bottom and the
    last at the back, whatever the turn tests answer. *)
Lemma scanStep_shape (sk : Point) (pts : list Point) :
  pts <> [] ->
  forall U, exists T,
    fold_left (scanStep 2) pts (U ++ [sk]) = last pts origin :: T ++ [sk].
Proof.
  induction pts as [| p pts IH]; [congruence |]. intros _ U.
  cbn [fold_left]. unfold scanStep at 2.
  destruct (popWhile_keeps_bottom sk p U) as [U1 ->].
  destruct pts as [| p' pts].
  - now exists U1.
  - change (p :: U1 ++ [sk]) with ((p :: U1) ++ [sk]).
    destruct (IH ltac:(discriminate) (p :: U1)) as [T HT].
    exists T. exact HT.
Qed.

Lemma convexHull_shape (points : list Point) :
  (2 < length points)%nat ->
  let s := std_sort Point_lt points in
  exists A B, convexHull points = (hd origin s :: A) ++ (last s origin :: B).
Proof.
  intros Hlen s.
  assert (Hperm : Permutation points s) by apply std_sort_perm.
  assert (Hs_len : (2 < length s)%nat)
    by (now rewrite <- (Permutation_length Hperm)).
  destruct s as [| s1 [| s2 rest]] eqn:Es; try (simpl in Hs_len; lia).
  destruct (scanStep_shape s1 (s2 :: rest) ltac:(discriminate) []) as [TL HL].
  set (sk := last (s2 :: rest) origin) in *.
  assert (Hrev : rev (s1 :: s2 :: rest) = sk :: tl (rev (s1 :: s2 :: rest))).
  { pose proof (hd_rev (s1 :: s2 :: rest)) as H.
    change (last (s1 :: s2 :: rest) origin) with sk in H.
    destruct (rev (s1 :: s2 :: rest)) eqn:E; [| simpl in H; now subst].
    apply (f_equal (@length Point)) in E. rewrite length_rev in E. discriminate. }
  assert (Htl : tl (rev (s1 :: s2 :: rest)) <> []).
  { intros E. rewrite E in Hrev. apply (f_equal (@length Point)) in Hrev.
    rewrite length_rev in Hrev. discriminate. }
  destruct (scanStep_shape sk (tl (rev (s1 :: s2 :: rest))) Htl []) as [TU HU].
  change (last (s1 :: s2 :: rest) origin) with sk.
  exists (rev TL), (rev TU). cbn [hd].
  unfold convexHull, convexHull_run. cbv zeta.
  destruct (Nat.leb_spec (length points) 2) as [H | _]; [lia |].
  cbn [fst]. fold s. rewrite Es.
  change (fold_left (scanStep 2) (s1 :: s2 :: rest) [])
    with (fold_left (scanStep 2) (s2 :: rest) ([] ++ [s1])).
  rewrite HL.
  replace (S (length (sk :: TL ++ [s1]))) with (length (TL ++ [s1]) + 2)%nat
    by (simpl; lia).
  rewrite (scan_above (TL ++ [s1]) sk _ []).
  rewrite HU. cbn [tl app].
  rewrite !rev_app_distr. cbn [rev app]. reflexivity.
Qed.

(** Two sequences sorted by [operator<] that hold the same points are the
    same sequence. *)
Lemma sorted_perm_unique (l1 : list Point) :
  forall l2, StronglySorted lexle l1 -> StronglySorted lexle l2 ->
    Permutation l1 l2 -> l1 = l2.
Proof.
  induction l1 as [| a l1 IH]; intros l2 H1 H2 Hp.
  - apply Permutation_nil in Hp. now subst.
  - destruct l2 as [| b l2];
      [apply Permutation_sym, Permutation_nil in Hp; discriminate |].
    apply StronglySorted_inv in H1. destruct H1 as [H1 Ha].
    apply StronglySorted_inv in H2. destruct H2 as [H2 Hb].
    rewrite Forall_forall in Ha, Hb.
    assert (Hab : a = b).
    { apply lexle_antisym.
      - assert (Hin : In b (a :: l1))
          by (apply (Permutation_in _ (Permutation_sym Hp)); now left).
        destruct Hin as [-> | Hin]; [apply lexle_refl | now apply Ha].
      - assert (Hin : In a (b :: l2)) by (apply (Permutation_in _ Hp); now left).
        destruct Hin as [-> | Hin]; [apply lexle_refl | now apply Hb]. }
    subst b. f_equal. apply IH; try assumption.
    now apply Permutation_cons_inv in Hp.
Qed.

Lemma std_sort_perm_eq (l1 l2 : list Point) :
  Permutation l1 l2 -> std_sort Point_lt l1 = std_sort Point_lt l2.
Proof.
  intros Hp. apply sorted_perm_unique; try apply sort_lex_sorted.
  rewrite <- (std_sort_perm Point_lt l1), <- (std_sort_perm Point_lt l2).
  exact Hp.
Qed.

(** * The shoelace sum *)

Lemma triangle_terms (v a b : Point) :
  left_of v a b = edge_term v a + edge_term a b + edge_term b v.
Proof. unfold left_of, edge_term. ring. Qed.

Lemma fan_sum_open (v0 a : Point) (rest : list Point) :
  fan_sum v0 (a :: rest)
  = edge_term v0 a + open_sum (a :: rest)
    + edge_term (last (a :: rest) (mkPoint 0 0)) v0.
Proof.
  revert a. induction rest as [| b rest IH]; intros a.
  - cbn [fan_sum open_sum last]. rewrite (edge_term_swap v0 a). lia.
  - change (fan_sum v0 (a :: b :: rest))
      with (left_of v0 a b + fan_sum v0 (b :: rest)).
    change (open_sum (a :: b :: rest))
      with (edge_term a b + open_sum (b :: rest)).
    change (last (a :: b :: rest) (mkPoint 0 0))
      with (last (b :: rest) (mkPoint 0 0)).
    rewrite IH, triangle_terms, (edge_term_swap v0 b). lia.
Qed.

(** The sum of the loop is the sum over the triangles of the fan from the
    first vertex. *)
Lemma exact_shoelace_fan (v0 : Point) (rest : list Point) :
  exact_shoelace (v0 :: rest) = fan_sum v0 rest.
Proof.
  rewrite exact_shoelace_open_sum. cbn [hd].
  destruct rest as [| a rest];
    [cbn [open_sum last fan_sum]; unfold edge_term; lia |].
  rewrite fan_sum_open.
  change (open_sum (v0 :: a :: rest))
    with (edge_term v0 a + open_sum (a :: rest)).
  change (last (v0 :: a :: rest) (mkPoint 0 0))
    with (last (a :: rest) (mkPoint 0 0)).
  lia.
Qed.

Lemma left_of_translate (d p q r : Point) :
  left_of (translate d p) (translate d q) (translate d r) = left_of p q r.
Proof. unfold left_of, translate. cbn [x y]. ring. Qed.

Lemma fan_sum_translate (d v0 : Point) (rest : list Point) :
  fan_sum (translate d v0) (map (translate d) rest) = fan_sum v0 rest.
Proof.
  induction rest as [| a rest IH]; [reflexivity |].
  destruct rest as [| b rest]; [reflexivity |].
  change (fan_sum v0 (a :: b :: rest))
    with (left_of v0 a b + fan_sum v0 (b :: rest)).
  rewrite <- IH. cbn [map fan_sum]. now rewrite left_of_translate.
Qed.

Lemma exact_shoelace_translate (d : Point) (polygon : list Point) :
  exact_shoelace (map (translate d) polygon) = exact_shoelace polygon.
Proof.
  destruct polygon as [| v0 rest]; [reflexivity |].
  cbn [map]. now rewrite !exact_shoelace_fan, fan_sum_translate.
Qed.

Lemma open_sum_snoc (l : list Point) (a : Point) :
  l <> [] ->
  open_sum (l ++ [a]) = open_sum l + edge_term (last l (mkPoint 0 0)) a.
Proof.
  induction l as [| b l IH]; [congruence |]. intros _.
  destruct l as [| c l].
  - cbn [app open_sum last]. lia.
  - change (open_sum ((b :: c :: l) ++ [a]))
      with (edge_term b c + open_sum ((c :: l) ++ [a])).
    rewrite IH by discriminate.
    change (open_sum (b :: c :: l)) with (edge_term b c + open_sum (c :: l)).
    change (last (b :: c :: l) (mkPoint 0 0)) with (last (c :: l) (mkPoint 0 0)).
    lia.
Qed.

(** The sum does not depend on the vertex the list starts with. *)
Lemma exact_shoelace_rotate (a : Point) (l : list Point) :
  exact_shoelace (l ++ [a]) = exact_shoelace (a :: l).
Proof.
  destruct l as [| b l]; [reflexivity |].
  rewrite !exact_shoelace_open_sum. cbn [hd].
  rewrite open_sum_snoc by discriminate. rewrite last_last.
  change (hd (mkPoint 0 0) ((b :: l) ++ [a])) with b.
  change (open_sum (a :: b :: l)) with (edge_term a b + open_sum (b :: l)).
  change (last (a :: b :: l) (mkPoint 0 0)) with (last (b :: l) (mkPoint 0 0)).
  lia.
Qed.

(** * [isInside] *)

(** The ray of [isInside]: from [p] to the largest [x] of [T]. *)
Lemma isInside_loop_misses (polygon : list Point) (n : nat) (p extreme : Point) :
  forall idxs count,
    (forall i, In i idxs ->
       doIntersect (at_ polygon i) (at_ polygon ((i + 1) mod n)) p extreme
       = false) ->
    isInside_loop polygon n p extreme idxs count = (Z.rem count 2 =? 1).
Proof.
  induction idxs as [| i idxs IH]; intros count Hmiss; [reflexivity |].
  cbn [isInside_loop]. cbv zeta. rewrite Hmiss by now left.
  apply IH. intros j Hj. apply Hmiss. now right.
Qed.

Lemma polygon_close (polygon : list Point) (e p : Point) (i j : nat) :
  close (e :: p :: polygon) ->
  (i < length polygon)%nat -> (j < length polygon)%nat ->
  close [at_ polygon i; at_ polygon j; p; e].
Proof.
  intros Hc Hi Hj a b Ha Hb. apply Hc.
  - destruct Ha as [<- | [<- | [<- | [<- | []]]]]; simpl; auto;
      right; right; now apply nth_In.
  - destruct Hb as [<- | [<- | [<- | [<- | []]]]]; simpl; auto;
      right; right; now apply nth_In.
Qed.

(** No edge has a point in common with the ray: the answer is "outside". *)
Lemma isInside_no_meeting (polygon : list Point) (p : Point) :
  close (mkPoint IntT.maxT p.(y) :: p :: polygon) ->
  (forall i, (i < length polygon)%nat ->
     ~ segments_meet (at_ polygon i) (at_ polygon ((i + 1) mod length polygon))
         p (mkPoint IntT.maxT p.(y))) ->
  isInside polygon p = false.
Proof.
  intros Hc Hmiss. unfold isInside. cbv zeta.
  destruct (length polygon <? 3)%nat eqn:Hn; [reflexivity |].
  apply Nat.ltb_ge in Hn.
  rewrite isInside_loop_misses; [reflexivity |].
  intros i Hi. apply in_seq in Hi.
  assert (Hj : ((i + 1) mod length polygon < length polygon)%nat)
    by (apply Nat.mod_upper_bound; lia).
  apply not_true_is_false. intros Hd.
  apply (doIntersect_iff_meet _ _ _ _
           (polygon_close polygon _ p i _ Hc ltac:(lia) Hj)) in Hd.
  apply (Hmiss i); [lia | exact Hd].
Qed.

(** A segment with both ends on one strict side of a line does not reach
    it: here the line of the ray, and the vertical line through [p]. *)
Lemma combination_gt (D s a b h : Z) :
  0 < D -> 0 <= s <= D -> h < a -> h < b -> D * h < D * a + s * (b - a).
Proof.
  intros HD Hs Ha Hb.
  replace (D * a + s * (b - a)) with ((D - s) * a + s * b) by ring.
  replace (D * h) with ((D - s) * h + s * h) by ring.
  destruct (Z.eq_dec s 0) as [-> | Hs0].
  - assert (D * h < D * a) by (apply Z.mul_lt_mono_pos_l; lia). lia.
  - assert (s * h < s * b) by (apply Z.mul_lt_mono_pos_l; lia).
    assert ((D - s) * h <= (D - s) * a) by (apply Z.mul_le_mono_nonneg_l; lia).
    lia.
Qed.

Lemma combination_lt (D s a b h : Z) :
  0 < D -> 0 <= s <= D -> a < h -> b < h -> D * a + s * (b - a) < D * h.
Proof.
  intros HD Hs Ha Hb.
  pose proof (combination_gt D s (- a) (- b) (- h) HD Hs ltac:(lia) ltac:(lia)) as H.
  replace (D * - a + s * (- b - - a)) with (- (D * a + s * (b - a))) in H by ring.
  replace (D * - h) with (- (D * h)) in H by ring. lia.
Qed.

Lemma no_meeting_above (a b p e : Point) :
  e.(y) = p.(y) -> p.(y) < a.(y) -> p.(y) < b.(y) -> ~ segments_meet a b p e.
Proof.
  intros He Ha Hb (D & s & t & HD & Hs & Ht & _ & Hy).
  rewrite He, Z.sub_diag, Z.mul_0_r, Z.add_0_r in Hy.
  pose proof (combination_gt D s _ _ _ HD Hs Ha Hb). lia.
Qed.

Lemma no_meeting_below (a b p e : Point) :
  e.(y) = p.(y) -> a.(y) < p.(y) -> b.(y) < p.(y) -> ~ segments_meet a b p e.
Proof.
  intros He Ha Hb (D & s & t & HD & Hs & Ht & _ & Hy).
  rewrite He, Z.sub_diag, Z.mul_0_r, Z.add_0_r in Hy.
  pose proof (combination_lt D s _ _ _ HD Hs Ha Hb). lia.
Qed.

Lemma no_meeting_behind (a b p e : Point) :
  p.(x) <= e.(x) -> a.(x) < p.(x) -> b.(x) < p.(x) -> ~ segments_meet a b p e.
Proof.
  intros He Ha Hb (D & s & t & HD & Hs & Ht & Hx & _).
  pose proof (combination_lt D s _ _ _ HD Hs Ha Hb).
  assert (0 <= t * (e.(x) - p.(x))) by (apply Z.mul_nonneg_nonneg; lia).
  lia.
Qed.

(** * [isInside] on a convex polygon *)

(** ** One edge and the ray *)

Lemma segments_meet_flip (a b p e : Point) :
  segments_meet a b p e -> segments_meet b a p e.
Proof.
  intros (D & s & t & HD & Hs & Ht & Hx & Hy).
  exists D, (D - s), t. repeat split; try lia.
Qed.

Lemma close_flip (a b p e : Point) : close [a; b; p; e] -> close [b; a; p; e].
Proof.
  intros Hc u v Hu Hv. apply Hc; simpl in *; tauto.
Qed.

Lemma doIntersect_flip (a b p e : Point) :
  close [a; b; p; e] -> doIntersect a b p e = doIntersect b a p e.
Proof.
  intros Hc.
  destruct (doIntersect a b p e) eqn:E1, (doIntersect b a p e) eqn:E2;
    try reflexivity; exfalso.
  - apply (doIntersect_iff_meet _ _ _ _ Hc), segments_meet_flip in E1.
    apply (doIntersect_iff_meet _ _ _ _ (close_flip _ _ _ _ Hc)) in E1.
    congruence.
  - apply (doIntersect_iff_meet _ _ _ _ (close_flip _ _ _ _ Hc)),
      segments_meet_flip in E2.
    apply (doIntersect_iff_meet _ _ _ _ Hc) in E2. congruence.
Qed.

Section RayEdge.
Variables a b p : Point.
Let e := mkPoint IntT.maxT p.(y).
Hypothesis coords : close [a; b; p; e].
Hypothesis p_max : p.(x) <= IntT.maxT.
Hypothesis a_max : a.(x) <= IntT.maxT.
Hypothesis b_max : b.(x) <= IntT.maxT.

Lemma ray_end_side :
  left_of a b e = left_of a b p - (b.(y) - a.(y)) * (IntT.maxT - p.(x)).
Proof. unfold left_of, e. cbn [x y]. ring. Qed.

Lemma ray_end_right :
  left_of a b e
  = - ((IntT.maxT - a.(x)) * (b.(y) - p.(y))
       + (IntT.maxT - b.(x)) * (p.(y) - a.(y))).
Proof. unfold left_of, e. cbn [x y]. ring. Qed.

Lemma ray_sides (v : Point) :
  left_of p e v = (IntT.maxT - p.(x)) * (v.(y) - p.(y)).
Proof. unfold left_of, e. cbn [x y]. ring. Qed.

(** An edge that climbs across the line of the ray is met when [p] is
    to its left or on it. *)
Lemma ray_edge_up :
  a.(y) < p.(y) < b.(y) ->
  (doIntersect a b p e = true <-> 0 <= left_of a b p).
Proof.
  intros Hup. rewrite (doIntersect_tests _ _ _ _ coords).
  rewrite !ray_sides. pose proof ray_end_side as E2.
  pose proof ray_end_right as E2'.
  set (d1 := left_of a b p) in *. set (d2 := left_of a b e) in *.
  set (dl := IntT.maxT - p.(x)) in *.
  assert (Hdl : 0 <= dl) by (unfold dl; lia).
  assert (H2 : d2 <= 0).
  { assert (0 <= (IntT.maxT - a.(x)) * (b.(y) - p.(y)))
      by (apply Z.mul_nonneg_nonneg; lia).
    assert (0 <= (IntT.maxT - b.(x)) * (p.(y) - a.(y)))
      by (apply Z.mul_nonneg_nonneg; lia).
    lia. }
  assert (Hu : 0 <= (b.(y) - a.(y)) * dl) by (apply Z.mul_nonneg_nonneg; lia).
  split.
  - unfold opposite.
    intros [[H12 H34] | [[Hz Hs] | [[Hz Hs] | [[Hz Hs] | [Hz Hs]]]]]; try lia.
    + apply onSegment_box in Hs. unfold e in Hs. cbn [x y] in Hs. lia.
    + apply onSegment_box in Hs. unfold e in Hs. cbn [x y] in Hs. lia.
  - intros H1.
    destruct (Z.eq_dec d1 0) as [Hz | Hnz].
    { right. left. split; [assumption |]. apply onSegment_box.
      unfold d1, left_of in Hz.
      pose proof (scaled_between (b.(y) - a.(y)) (p.(y) - a.(y))
                    (p.(x) - a.(x)) (b.(x) - a.(x))
                    ltac:(lia) ltac:(lia) ltac:(lia)).
      lia. }
    destruct (Z.eq_dec d2 0) as [Hz2 | Hnz2].
    { right. right. left. split; [assumption |]. apply onSegment_box.
      unfold d2, left_of, e in Hz2. cbn [x y] in Hz2.
      pose proof (scaled_between (b.(y) - a.(y)) (p.(y) - a.(y))
                    (IntT.maxT - a.(x)) (b.(x) - a.(x))
                    ltac:(lia) ltac:(lia) ltac:(lia)).
      unfold e. cbn [x y]. lia. }
    left. unfold opposite.
    assert (Hdl' : 0 < dl).
    { destruct (Z.eq_dec dl 0) as [H0 | H0]; [| lia].
      rewrite H0, Z.mul_0_r in E2. lia. }
    assert (dl * (a.(y) - p.(y)) < 0) by (apply Z.mul_pos_neg; lia).
    assert (0 < dl * (b.(y) - p.(y))) by (apply Z.mul_pos_pos; lia).
    lia.
Qed.

Lemma ray_edge_off :
  (a.(y) < p.(y) /\ b.(y) < p.(y)) \/ (p.(y) < a.(y) /\ p.(y) < b.(y)) ->
  doIntersect a b p e = false.
Proof.
  intros Hside. apply not_true_is_false. intros Hd.
  apply (doIntersect_iff_meet _ _ _ _ coords) in Hd. revert Hd.
  destruct Hside as [[Ha Hb] | [Ha Hb]].
  - now apply no_meeting_below.
  - now apply no_meeting_above.
Qed.
End RayEdge.

(** An edge that descends across the line of the ray is met when [p] is
    to its right or on it. *)
Lemma ray_edge_down (a b p : Point) :
  close [a; b; p; mkPoint IntT.maxT p.(y)] ->
  p.(x) <= IntT.maxT -> a.(x) <= IntT.maxT -> b.(x) <= IntT.maxT ->
  b.(y) < p.(y) < a.(y) ->
  (doIntersect a b p (mkPoint IntT.maxT p.(y)) = true <-> left_of a b p <= 0).
Proof.
  intros Hc Hp Ha Hb Hdown.
  rewrite (doIntersect_flip _ _ _ _ Hc).
  rewrite (ray_edge_up b a p (close_flip _ _ _ _ Hc) Hp Hb Ha Hdown).
  rewrite (left_of_swap_12 a b p). lia.
Qed.


(** [left_of V W] is affine in its last argument. *)
Lemma left_of_combination (V W A B Q : Point) (D s : Z) :
  D * (Q.(x) - A.(x)) = s * (B.(x) - A.(x)) ->
  D * (Q.(y) - A.(y)) = s * (B.(y) - A.(y)) ->
  D * left_of V W Q = (D - s) * left_of V W A + s * left_of V W B.
Proof.
  intros Hx Hy. unfold left_of.
  replace (D * ((W.(x) - V.(x)) * (Q.(y) - V.(y))
                - (W.(y) - V.(y)) * (Q.(x) - V.(x))))
    with ((W.(x) - V.(x)) * (D * (Q.(y) - A.(y)))
          - (W.(y) - V.(y)) * (D * (Q.(x) - A.(x)))
          + D * ((W.(x) - V.(x)) * (A.(y) - V.(y))
                 - (W.(y) - V.(y)) * (A.(x) - V.(x)))) by ring.
  rewrite Hx, Hy. ring.
Qed.

(** Two edges and a height: the sides that the ends of each are on of
    the other balance. *)
Lemma across_balance (A B C E : Point) (h : Z) :
  (E.(y) - h) * left_of A B C + (h - C.(y)) * left_of A B E
  + ((B.(y) - h) * left_of C E A + (h - A.(y)) * left_of C E B) = 0.
Proof. unfold left_of. ring. Qed.

Lemma two_products_zero (a b u v : Z) :
  (0 < a /\ 0 < b) \/ (a < 0 /\ b < 0) -> 0 <= u -> 0 <= v ->
  a * u + b * v = 0 -> u = 0 /\ v = 0.
Proof.
  intros [[Ha Hb] | [Ha Hb]] Hu Hv E.
  - assert (0 <= a * u) by (apply Z.mul_nonneg_nonneg; lia).
    assert (0 <= b * v) by (apply Z.mul_nonneg_nonneg; lia).
    assert (E1 : a * u = 0) by lia. assert (E2 : b * v = 0) by lia.
    apply Z.mul_eq_0 in E1, E2. lia.
  - assert (a * u <= 0) by (apply Z.mul_nonpos_nonneg; lia).
    assert (b * v <= 0) by (apply Z.mul_nonpos_nonneg; lia).
    assert (E1 : a * u = 0) by lia. assert (E2 : b * v = 0) by lia.
    apply Z.mul_eq_0 in E1, E2. lia.
Qed.

Section Across.
Variable R : list Point.
Let n := length R.
Hypothesis R_convex : convex_polygon R.
Variable p : Point.

Lemma side_nonneg_vertex (i k : nat) :
  0 <= left_of (vtx R i) (vtx R (i + 1)) (vtx R k).
Proof. apply (cp_left R R_convex). Qed.

Lemma consecutive_differ (i : nat) : vtx R i <> vtx R (i + 1).
Proof.
  intros E. pose proof (cp_turn R R_convex i) as H.
  rewrite E in H. unfold left_of in H. lia.
Qed.

(** No vertex is strictly inside an edge, on its line. *)
Lemma vertex_inside_edge (i j : nat) :
  left_of (vtx R i) (vtx R (i + 1)) (vtx R j) = 0 ->
  left_of (vtx R i) (vtx R (i + 1)) (vtx R (j + 1)) = 0 ->
  ((vtx R i).(y) < (vtx R j).(y) < (vtx R (i + 1)).(y)
   \/ (vtx R (i + 1)).(y) < (vtx R j).(y) < (vtx R i).(y)) ->
  False.
Proof.
  intros HC HE Hbetween.
  pose proof (polygon_nonempty R R_convex) as Hn.
  set (A := vtx R i) in *. set (B := vtx R (i + 1)) in *.
  set (C := vtx R j) in *. set (E := vtx R (j + 1)) in *.
  set (V := vtx R (j + n - 1)).
  assert (HVC : vtx R (j + n - 1 + 1) = C).
  { replace (j + n - 1 + 1)%nat with (j + n)%nat by lia.
    unfold n. now rewrite (vtx_add_n R Hn). }
  assert (HVE : vtx R (j + n - 1 + 2) = E).
  { replace (j + n - 1 + 2)%nat with (j + 1 + n)%nat by lia.
    unfold n. now rewrite (vtx_add_n R Hn). }
  pose proof (cp_turn R R_convex (j + n - 1)) as Hturn.
  rewrite HVC, HVE in Hturn. fold V in Hturn.
  pose proof (side_nonneg_vertex (j + n - 1) i) as FA.
  pose proof (side_nonneg_vertex (j + n - 1) (i + 1)) as FB.
  rewrite HVC in FA, FB. fold V A in FA. fold V B in FB.
  assert (Hx : (B.(y) - A.(y)) * (C.(x) - A.(x))
               = (C.(y) - A.(y)) * (B.(x) - A.(x)))
    by (unfold left_of in HC; lia).
  pose proof (left_of_combination V C A B C _ _ Hx (Z.mul_comm _ _)) as Hcomb.
  rewrite (left_of_same_2 V C), Z.mul_0_r in Hcomb.
  assert (Hzero : left_of V C A = 0 /\ left_of V C B = 0).
  { apply (two_products_zero (B.(y) - A.(y) - (C.(y) - A.(y))) (C.(y) - A.(y)));
      try assumption; lia. }
  destruct Hzero as [ZA ZB].
  assert (HVneC : V <> C).
  { intros E0. rewrite E0 in Hturn. unfold left_of in Hturn. lia. }
  assert (HAB : A <> B) by apply consecutive_differ.
  assert (ZV : left_of A B V = 0).
  { apply (on_one_line V C A B V HVneC ZA ZB). apply left_of_same_3. }
  assert (Z0 : left_of V C E = 0)
    by (apply (on_one_line A B V C E HAB ZV HC HE)).
  lia.
Qed.

(** Two edges across the same height in the same direction: their ends
    are on one line. *)
Lemma across_on_line (i j : nat) :
  (climbs R p i /\ climbs R p j) \/ (descends R p i /\ descends R p j) ->
  (left_of (vtx R i) (vtx R (i + 1)) (vtx R j) = 0
   /\ left_of (vtx R i) (vtx R (i + 1)) (vtx R (j + 1)) = 0)
  /\ (left_of (vtx R j) (vtx R (j + 1)) (vtx R i) = 0
      /\ left_of (vtx R j) (vtx R (j + 1)) (vtx R (i + 1)) = 0).
Proof.
  intros Hdir.
  pose proof (across_balance (vtx R i) (vtx R (i + 1)) (vtx R j)
                (vtx R (j + 1)) p.(y)) as Hbal.
  pose proof (side_nonneg_vertex i j) as H1.
  pose proof (side_nonneg_vertex i (j + 1)) as H2.
  pose proof (side_nonneg_vertex j i) as H3.
  pose proof (side_nonneg_vertex j (i + 1)) as H4.
  set (a1 := (vtx R (j + 1)).(y) - p.(y)) in *.
  set (a2 := p.(y) - (vtx R j).(y)) in *.
  set (a3 := (vtx R (i + 1)).(y) - p.(y)) in *.
  set (a4 := p.(y) - (vtx R i).(y)) in *.
  assert (Hs : (0 < a1 /\ 0 < a2 /\ 0 < a3 /\ 0 < a4)
               \/ (a1 < 0 /\ a2 < 0 /\ a3 < 0 /\ a4 < 0))
    by (unfold climbs, descends, a1, a2, a3, a4 in *; lia).
  clearbody a1 a2 a3 a4.
  set (l1 := left_of _ _ _) in H1, Hbal |- *.
  set (l2 := left_of _ _ _) in H2, Hbal |- *.
  set (l3 := left_of _ _ _) in H3, Hbal |- *.
  set (l4 := left_of _ _ _) in H4, Hbal |- *.
  clearbody l1 l2 l3 l4.
  destruct Hs as [(P1 & P2 & P3 & P4) | (P1 & P2 & P3 & P4)].
  - assert (0 <= a1 * l1) by (apply Z.mul_nonneg_nonneg; lia).
    assert (0 <= a2 * l2) by (apply Z.mul_nonneg_nonneg; lia).
    assert (0 <= a3 * l3) by (apply Z.mul_nonneg_nonneg; lia).
    assert (0 <= a4 * l4) by (apply Z.mul_nonneg_nonneg; lia).
    assert (E1 : a1 * l1 = 0) by lia. assert (E2 : a2 * l2 = 0) by lia.
    assert (E3 : a3 * l3 = 0) by lia. assert (E4 : a4 * l4 = 0) by lia.
    apply Z.mul_eq_0 in E1, E2, E3, E4. lia.
  - assert (a1 * l1 <= 0) by (apply Z.mul_nonpos_nonneg; lia).
    assert (a2 * l2 <= 0) by (apply Z.mul_nonpos_nonneg; lia).
    assert (a3 * l3 <= 0) by (apply Z.mul_nonpos_nonneg; lia).
    assert (a4 * l4 <= 0) by (apply Z.mul_nonpos_nonneg; lia).
    assert (E1 : a1 * l1 = 0) by lia. assert (E2 : a2 * l2 = 0) by lia.
    assert (E3 : a3 * l3 = 0) by lia. assert (E4 : a4 * l4 = 0) by lia.
    apply Z.mul_eq_0 in E1, E2, E3, E4. lia.
Qed.

(** At most one edge climbs across a height, and at most one descends. *)
Lemma across_unique (i j : nat) :
  (climbs R p i /\ climbs R p j) \/ (descends R p i /\ descends R p j) ->
  (i mod n = j mod n)%nat.
Proof.
  intros Hdir. pose proof (polygon_nonempty R R_convex) as Hn.
  destruct (across_on_line i j Hdir) as [[HC HE] [HA HB]].
  destruct (Z.lt_trichotomy (vtx R i).(y) (vtx R j).(y)) as [Hlt | [Heq | Hgt]].
  - destruct Hdir as [[Hi Hj] | [Hi Hj]]; unfold climbs, descends in *.
    + exfalso. apply (vertex_inside_edge i j HC HE). lia.
    + exfalso. apply (vertex_inside_edge j i HA HB). lia.
  - apply (vtx_inj R Hn); [apply (cp_NoDup R R_convex) |].
    apply Point_eq; [| assumption].
    unfold left_of in HC.
    assert (Hy : (vtx R (i + 1)).(y) - (vtx R i).(y) <> 0)
      by (destruct Hdir as [[Hi Hj] | [Hi Hj]];
          unfold climbs, descends in *; lia).
    rewrite <- Heq, Z.sub_diag, Z.mul_0_r in HC.
    assert (E0 : ((vtx R (i + 1)).(y) - (vtx R i).(y))
                 * ((vtx R j).(x) - (vtx R i).(x)) = 0) by lia.
    apply Z.mul_eq_0 in E0. lia.
  - destruct Hdir as [[Hi Hj] | [Hi Hj]]; unfold climbs, descends in *.
    + exfalso. apply (vertex_inside_edge j i HA HB). lia.
    + exfalso. apply (vertex_inside_edge i j HC HE). lia.
Qed.
End Across.

Lemma first_change (P : nat -> Prop) (a : nat) :
  (forall k, P k \/ ~ P k) ->
  forall d, P a -> ~ P (a + d)%nat ->
    exists k, (a <= k < a + d)%nat /\ P k /\ ~ P (k + 1)%nat.
Proof.
  intros Hdec. induction d as [| d IH]; intros Ha Hb.
  - rewrite Nat.add_0_r in Hb. contradiction.
  - destruct (Hdec (a + d)%nat) as [Hd | Hd].
    + exists (a + d)%nat. split; [lia | split; [assumption |]].
      now replace (a + d + 1)%nat with (a + S d)%nat by lia.
    + destruct (IH Ha Hd) as (k & Hk & H1 & H2).
      exists k. split; [lia | auto].
Qed.

Section Crossings.
Variable R : list Point.
Let n := length R.
Hypothesis R_convex : convex_polygon R.
Variable p : Point.
Hypothesis off_vertices : forall k, (vtx R k).(y) <> p.(y).

Lemma climbs_mod (i : nat) : climbs R p (i mod n) <-> climbs R p i.
Proof.
  pose proof (polygon_nonempty R R_convex) as Hn.
  unfold climbs. unfold n. now rewrite (vtx_mod R), (vtx_succ_mod R).
Qed.

Lemma descends_mod (i : nat) : descends R p (i mod n) <-> descends R p i.
Proof.
  pose proof (polygon_nonempty R R_convex) as Hn.
  unfold descends. unfold n. now rewrite (vtx_mod R), (vtx_succ_mod R).
Qed.

(** Between a vertex below the line and a vertex above it, an edge
    climbs, and an edge descends. *)
Lemma climbing_edge (a b : nat) :
  (vtx R a).(y) < p.(y) -> p.(y) < (vtx R b).(y) ->
  exists i, (i < n)%nat /\ climbs R p i.
Proof.
  intros Ha Hb. pose proof (polygon_nonempty R R_convex) as Hn.
  pose proof (Nat.mod_upper_bound a n ltac:(lia)) as Ha0.
  rewrite <- (vtx_mod R a) in Ha. rewrite <- (vtx_mod R b) in Hb. fold n in Ha, Hb.
  destruct (first_change (fun k => (vtx R k).(y) < p.(y)) (a mod n)
              ltac:(intros k; cbv beta; lia) (b mod n + n - a mod n) Ha)
    as (k & _ & Hk & Hk').
  { replace (a mod n + (b mod n + n - a mod n))%nat with (b mod n + n)%nat by lia.
    unfold n at 2. rewrite (vtx_add_n R Hn). lia. }
  exists (k mod n)%nat. split; [now apply Nat.mod_upper_bound, Nat.neq_0_lt_0 |].
  apply climbs_mod. unfold climbs.
  pose proof (off_vertices (k + 1)). lia.
Qed.

Lemma descending_edge (a b : nat) :
  (vtx R a).(y) < p.(y) -> p.(y) < (vtx R b).(y) ->
  exists i, (i < n)%nat /\ descends R p i.
Proof.
  intros Ha Hb. pose proof (polygon_nonempty R R_convex) as Hn.
  pose proof (Nat.mod_upper_bound b n ltac:(lia)) as Hb0.
  rewrite <- (vtx_mod R a) in Ha. rewrite <- (vtx_mod R b) in Hb. fold n in Ha, Hb.
  destruct (first_change (fun k => p.(y) < (vtx R k).(y)) (b mod n)
              ltac:(intros k; cbv beta; lia) (a mod n + n - b mod n) Hb)
    as (k & _ & Hk & Hk').
  { replace (b mod n + (a mod n + n - b mod n))%nat with (a mod n + n)%nat by lia.
    unfold n at 2. rewrite (vtx_add_n R Hn). lia. }
  exists (k mod n)%nat. split; [now apply Nat.mod_upper_bound, Nat.neq_0_lt_0 |].
  apply descends_mod. unfold descends.
  pose proof (off_vertices (k + 1)). lia.
Qed.

(** A point on the left of, or on, every edge is not beyond the vertex
    that is extreme in a direction. *)
Lemma support_vertex (u q : Point) :
  (forall i, 0 <= left_of (vtx R i) (vtx R (i + 1)) q) ->
  exists k, dot u (vsub q (vtx R k)) <= 0.
Proof.
  intros Hin. pose proof (polygon_nonempty R R_convex) as Hn.
  destruct (argmax_exists (fun k => dot u (vtx R k)) (seq 0 n)) as (k & Hk & Hmax).
  { unfold n. destruct (length R); [lia | discriminate]. }
  assert (Htop : forall l, dot u (vtx R l) <= dot u (vtx R k)).
  { intros l. rewrite <- (vtx_mod R l). apply Hmax, in_seq.
    pose proof (Nat.mod_upper_bound l (length R)). unfold n. lia. }
  exists k.
  apply (corner_top (edge R (k + n - 1)) (edge R k)).
  - pose proof (edges_turn R R_convex (k + n - 1)) as H.
    replace (k + n - 1 + 1)%nat with (k + n)%nat in H by lia.
    unfold n in H. now rewrite (edge_add_n R Hn) in H.
  - pose proof (Hin (k + n - 1)%nat) as H.
    rewrite left_of_cross_next in H. unfold edge.
    replace (k + n - 1 + 1)%nat with (k + n)%nat in * by lia.
    unfold n in *. now rewrite (vtx_add_n R Hn) in *.
  - pose proof (Hin k) as H. now rewrite left_of_cross in H.
  - specialize (Htop (k + n - 1)%nat). unfold edge.
    replace (k + n - 1 + 1)%nat with (k + n)%nat by lia.
    unfold n in *. rewrite (vtx_add_n R Hn).
    unfold dot, vsub in *. cbn [x y] in *. lia.
  - specialize (Htop (k + 1)%nat). unfold edge.
    unfold dot, vsub in *. cbn [x y] in *. lia.
Qed.

(** A point inside has a vertex below it and a vertex above it. *)
Lemma inside_between_vertices :
  (forall i, 0 <= side R p i) ->
  exists a b, (vtx R a).(y) < p.(y) /\ p.(y) < (vtx R b).(y).
Proof.
  intros Hin.
  destruct (support_vertex (mkPoint 0 (-1)) p Hin) as (a & Ha).
  destruct (support_vertex (mkPoint 0 1) p Hin) as (b & Hb).
  exists a, b. unfold dot, vsub in Ha, Hb. cbn [x y] in Ha, Hb.
  pose proof (off_vertices a). pose proof (off_vertices b). lia.
Qed.
End Crossings.

Lemma orientation_zero (a p b : Point) :
  near p a -> near b p ->
  (orientation a p b =? 0) = (left_of a b p =? 0).
Proof.
  intros H1 H2. rewrite (orientation_near a p b H1 H2).
  pose proof (exact_orientation_0 a p b) as H.
  rewrite (left_of_swap_23 a b p) in H.
  destruct (Z.eqb_spec (exact_orientation a p b) 0) as [E | E];
    destruct (Z.eqb_spec (left_of a b p) 0) as [E' | E']; try reflexivity; lia.
Qed.

Lemma on_edge_box (a p b : Point) :
  left_of a b p = 0 ->
  a.(y) < p.(y) < b.(y) \/ b.(y) < p.(y) < a.(y) ->
  onSegment a p b = true.
Proof.
  intros Hz Hy. apply onSegment_box. unfold left_of in Hz.
  destruct Hy as [Hy | Hy].
  - pose proof (scaled_between (b.(y) - a.(y)) (p.(y) - a.(y))
                  (p.(x) - a.(x)) (b.(x) - a.(x))
                  ltac:(lia) ltac:(lia) ltac:(lia)). lia.
  - pose proof (scaled_between (a.(y) - b.(y)) (a.(y) - p.(y))
                  (p.(x) - a.(x)) (b.(x) - a.(x))
                  ltac:(lia) ltac:(lia) ltac:(lia)). lia.
Qed.

Section InsideConvex.
Variable R : list Point.
Let n := length R.
Hypothesis R_convex : convex_polygon R.
Variable p : Point.
Let e := mkPoint IntT.maxT p.(y).
Hypothesis coords : close (e :: p :: R).
Hypothesis p_max : p.(x) <= IntT.maxT.
Hypothesis R_max : Forall (fun v => v.(x) <= IntT.maxT) R.
Hypothesis off_vertices : Forall (fun v => v.(y) <> p.(y)) R.

Lemma vtx_off (k : nat) : (vtx R k).(y) <> p.(y).
Proof.
  rewrite Forall_forall in off_vertices. apply off_vertices.
  apply vtx_in. apply (polygon_nonempty R R_convex).
Qed.

Lemma vtx_max (k : nat) : (vtx R k).(x) <= IntT.maxT.
Proof.
  rewrite Forall_forall in R_max. apply R_max.
  apply vtx_in. apply (polygon_nonempty R R_convex).
Qed.

Lemma edge_close (i : nat) : close [vtx R i; vtx R (i + 1); p; e].
Proof.
  pose proof (polygon_nonempty R R_convex) as Hn.
  intros a b Ha Hb. apply coords.
  - destruct Ha as [<- | [<- | [<- | [<- | []]]]]; simpl; auto;
      right; right; now apply vtx_in.
  - destruct Hb as [<- | [<- | [<- | [<- | []]]]]; simpl; auto;
      right; right; now apply vtx_in.
Qed.

(** One iteration of the loop, on the edge [i]. *)
Lemma edge_step (i : nat) (idxs : list nat) (count : Z) :
  (i < n)%nat ->
  (on_edge R p i /\ isInside_loop R n p e (i :: idxs) count = true)
  \/ (~ on_edge R p i
      /\ isInside_loop R n p e (i :: idxs) count
         = isInside_loop R n p e idxs
             (if counted R p i then count + 1 else count)).
Proof.
  intros Hi. cbn [isInside_loop]. cbv zeta.
  replace (at_ R i) with (vtx R i) by (apply vtx_small; exact Hi).
  change (at_ R ((i + 1) mod n)) with (vtx R (i + 1)).
  pose proof (edge_close i) as Hc.
  pose proof (vtx_off i) as Ha. pose proof (vtx_off (i + 1)) as Hb.
  pose proof (vtx_max i) as Ma. pose proof (vtx_max (i + 1)) as Mb.
  assert (Hor : (orientation (vtx R i) p (vtx R (i + 1)) =? 0)
                = (side R p i =? 0)).
  { apply orientation_zero; apply Hc; simpl; auto. }
  rewrite Hor. unfold on_edge, climbs, descends, counted. cbv zeta.
  set (a := vtx R i) in *. set (b := vtx R (i + 1)) in *.
  set (d := side R p i) in *.
  assert (Hd : d = left_of a b p) by reflexivity.
  destruct (Z.ltb_spec a.(y) p.(y)) as [La | La];
    destruct (Z.ltb_spec p.(y) b.(y)) as [Lb | Lb];
    destruct (Z.ltb_spec b.(y) p.(y)) as [Lb' | Lb'];
    destruct (Z.ltb_spec p.(y) a.(y)) as [La' | La']; try lia; cbn [andb orb].
  - (* climbs *)
    pose proof (ray_edge_up a b p Hc p_max Ma Mb ltac:(lia)) as Hup.
    fold e in Hup. rewrite <- Hd in Hup.
    destruct (Z.ltb_spec 0 d) as [Hpos | Hnpos].
    + right. rewrite (proj2 Hup) by lia.
      destruct (Z.eqb_spec d 0); [lia |]. split; [lia | reflexivity].
    + destruct (Z.eqb_spec d 0) as [Hz | Hnz].
      * left. rewrite (proj2 Hup) by lia. split; [lia |].
        apply on_edge_box; [lia | lia].
      * right.
        assert (Hdo : doIntersect a b p e = false)
          by (apply not_true_is_false; intros Hdo; apply Hup in Hdo; lia).
        rewrite Hdo. split; [lia | reflexivity].
  - (* both below *)
    right. pose proof (ray_edge_off a b p Hc ltac:(lia)) as Hoff.
    fold e in Hoff. rewrite Hoff. split; [lia | reflexivity].
  - (* both above *)
    right. pose proof (ray_edge_off a b p Hc ltac:(lia)) as Hoff.
    fold e in Hoff. rewrite Hoff. split; [lia | reflexivity].
  - (* descends *)
    pose proof (ray_edge_down a b p Hc p_max Ma Mb ltac:(lia)) as Hdn.
    fold e in Hdn. rewrite <- Hd in Hdn.
    destruct (Z.ltb_spec d 0) as [Hneg | Hnneg].
    + right. rewrite (proj2 Hdn) by lia.
      destruct (Z.eqb_spec d 0); [lia |]. split; [lia | reflexivity].
    + destruct (Z.eqb_spec d 0) as [Hz | Hnz].
      * left. rewrite (proj2 Hdn) by lia. split; [lia |].
        apply on_edge_box; [lia | lia].
      * right.
        assert (Hdo : doIntersect a b p e = false)
          by (apply not_true_is_false; intros Hdo; apply Hdn in Hdo; lia).
        rewrite Hdo. split; [lia | reflexivity].
Qed.

(** The loop: [true] at the first edge that [p] is on, else the parity of
    the number of edges crossed to the right of [p]. *)
Lemma loop_result (idxs : list nat) :
  (forall i, In i idxs -> (i < n)%nat) ->
  forall count,
    ((exists i, In i idxs /\ on_edge R p i)
     /\ isInside_loop R n p e idxs count = true)
    \/ ((forall i, In i idxs -> ~ on_edge R p i)
        /\ isInside_loop R n p e idxs count
           = (Z.rem (count + Z.of_nat (length (filter (counted R p) idxs))) 2
              =? 1)).
Proof.
  induction idxs as [| i idxs IH]; intros Hidx count.
  - right. split; [intros i [] |]. cbn [isInside_loop filter length].
    now rewrite Z.add_0_r.
  - destruct (edge_step i idxs count (Hidx i ltac:(now left)))
      as [[Hon Hl] | [Hoff Hl]].
    + left. split; [| exact Hl]. exists i. split; [now left | exact Hon].
    + rewrite Hl.
      destruct (IH (fun j Hj => Hidx j (or_intror Hj))
                  (if counted R p i then count + 1 else count))
        as [[(j & Hj & Hon) Hr] | [Hnone Hr]].
      * left. split; [| exact Hr]. exists j. split; [now right | exact Hon].
      * right. split.
        -- intros j [<- | Hj]; [exact Hoff | now apply Hnone].
        -- rewrite Hr. cbn [filter].
           destruct (counted R p i); cbn [length]; f_equal; f_equal; lia.
Qed.

(** Counting the indices that a test selects. *)
Lemma filter_none (f : nat -> bool) (l : list nat) :
  (forall i, In i l -> f i = false) -> length (filter f l) = 0%nat.
Proof.
  induction l as [| h t IH]; intros H; [reflexivity |].
  cbn [filter]. rewrite (H h (or_introl eq_refl)).
  apply IH. intros i Hi. apply H. now right.
Qed.

Lemma filter_one (f : nat -> bool) (l : list nat) (a : nat) :
  NoDup l -> In a l ->
  (forall i, In i l -> (f i = true <-> i = a)) ->
  length (filter f l) = 1%nat.
Proof.
  induction l as [| h t IH]; intros Hnd Ha H; [destruct Ha |].
  inversion Hnd as [| ? ? Hh Ht]; subst. cbn [filter].
  destruct (Nat.eq_dec h a) as [-> | Hne].
  - rewrite (proj2 (H a (or_introl eq_refl)) eq_refl). cbn [length].
    f_equal. apply filter_none. intros i Hi.
    apply not_true_is_false. intros Hf.
    apply (H i (or_intror Hi)) in Hf. congruence.
  - destruct (f h) eqn:Hf.
    + apply (H h (or_introl eq_refl)) in Hf. contradiction.
    + destruct Ha as [Ha | Ha]; [contradiction |].
      apply IH; [exact Ht | exact Ha |].
      intros i Hi. apply H. now right.
Qed.

Lemma filter_two (f : nat -> bool) (l : list nat) (a b : nat) :
  NoDup l -> In a l -> In b l -> a <> b ->
  (forall i, In i l -> (f i = true <-> i = a \/ i = b)) ->
  length (filter f l) = 2%nat.
Proof.
  induction l as [| h t IH]; intros Hnd Ha Hb Hab H; [destruct Ha |].
  inversion Hnd as [| ? ? Hh Ht]; subst. cbn [filter].
  destruct (Nat.eq_dec h a) as [-> | Hna].
  - rewrite (proj2 (H a (or_introl eq_refl)) (or_introl eq_refl)).
    cbn [length]. f_equal.
    destruct Hb as [Hb | Hb]; [contradiction |].
    apply (filter_one f t b Ht Hb). intros i Hi. split.
    + intros Hf. apply (H i (or_intror Hi)) in Hf.
      destruct Hf as [-> | ->]; [contradiction | reflexivity].
    + intros ->. apply (H b (or_intror Hi)). now right.
  - destruct (Nat.eq_dec h b) as [-> | Hnb].
    + rewrite (proj2 (H b (or_introl eq_refl)) (or_intror eq_refl)).
      cbn [length]. f_equal.
      destruct Ha as [Ha | Ha]; [congruence |].
      apply (filter_one f t a Ht Ha). intros i Hi. split.
      * intros Hf. apply (H i (or_intror Hi)) in Hf.
        destruct Hf as [-> | ->]; [reflexivity | contradiction].
      * intros ->. apply (H a (or_intror Hi)). now left.
    + destruct (f h) eqn:Hf.
      * apply (H h (or_introl eq_refl)) in Hf. lia.
      * destruct Ha as [Ha | Ha]; [contradiction |].
        destruct Hb as [Hb | Hb]; [contradiction |].
        apply IH; try assumption. intros i Hi. apply H. now right.
Qed.

(** A point inside an edge is to the left of, or on, every edge. *)
Lemma on_edge_inside (i k : nat) : on_edge R p i -> 0 <= side R p k.
Proof.
  intros [Hy Hz]. unfold side in *.
  set (a := vtx R i) in *. set (b := vtx R (i + 1)) in *.
  pose proof (side_nonneg_vertex R R_convex k i) as Fa.
  pose proof (side_nonneg_vertex R R_convex k (i + 1)) as Fb.
  fold a in Fa. fold b in Fb.
  set (Fa' := left_of (vtx R k) (vtx R (k + 1)) a) in *.
  set (Fb' := left_of (vtx R k) (vtx R (k + 1)) b) in *.
  assert (Hx : (b.(y) - a.(y)) * (p.(x) - a.(x))
               = (p.(y) - a.(y)) * (b.(x) - a.(x)))
    by (unfold left_of in Hz; lia).
  pose proof (left_of_combination (vtx R k) (vtx R (k + 1)) a b p
                (b.(y) - a.(y)) (p.(y) - a.(y)) Hx (Z.mul_comm _ _)) as Hc.
  fold Fa' Fb' in Hc.
  set (F := left_of (vtx R k) (vtx R (k + 1)) p) in *.
  unfold climbs, descends in Hy. fold a b in Hy.
  set (D := b.(y) - a.(y)) in *. set (s := p.(y) - a.(y)) in *.
  assert (HD : D - s = b.(y) - p.(y)) by (unfold D, s; lia).
  clearbody F Fa' Fb'.
  destruct (Z_lt_dec F 0) as [Hneg | ]; [exfalso | lia].
  destruct Hy as [Hy | Hy].
  - assert (0 <= (D - s) * Fa') by (apply Z.mul_nonneg_nonneg; lia).
    assert (0 <= s * Fb') by (apply Z.mul_nonneg_nonneg; unfold s; lia).
    assert (D * F < 0) by (apply Z.mul_pos_neg; unfold D; lia). lia.
  - assert ((D - s) * Fa' <= 0) by (apply Z.mul_nonpos_nonneg; lia).
    assert (s * Fb' <= 0) by (apply Z.mul_nonpos_nonneg; unfold s; lia).
    assert (0 < D * F) by (apply Z.mul_neg_neg; unfold D; lia). lia.
Qed.

(** An edge that climbs and an edge that descends across the height of
    [p]: the sides that [p] is on of the two. *)
Lemma crossing_balance (A B C E q : Point) :
  (q.(y) - E.(y)) * left_of A B C + (C.(y) - q.(y)) * left_of A B E
  = (C.(y) - E.(y)) * left_of A B q + (B.(y) - A.(y)) * left_of C E q.
Proof. unfold left_of. ring. Qed.

Lemma crossing_between (V W A B C E q : Point) :
  ((C.(y) - E.(y)) * left_of A B q + (B.(y) - A.(y)) * left_of C E q)
  * left_of V W q
  = left_of A B q * ((q.(y) - E.(y)) * left_of V W C
                     + (C.(y) - q.(y)) * left_of V W E)
    + left_of C E q * ((B.(y) - q.(y)) * left_of V W A
                       + (q.(y) - A.(y)) * left_of V W B).
Proof. unfold left_of. ring. Qed.

Lemma not_both_right (i j : nat) :
  climbs R p i -> descends R p j -> side R p i < 0 -> side R p j < 0 -> False.
Proof.
  unfold climbs, descends, side. intros Hi Hj Si Sj.
  pose proof (crossing_balance (vtx R i) (vtx R (i + 1)) (vtx R j) (vtx R (j + 1)) p)
    as Hb.
  pose proof (side_nonneg_vertex R R_convex i j) as Fc.
  pose proof (side_nonneg_vertex R R_convex i (j + 1)) as Fe.
  set (a := vtx R i) in *. set (b := vtx R (i + 1)) in *.
  set (c := vtx R j) in *. set (d := vtx R (j + 1)) in *.
  assert (0 <= (p.(y) - d.(y)) * left_of a b c)
    by (apply Z.mul_nonneg_nonneg; lia).
  assert (0 <= (c.(y) - p.(y)) * left_of a b d)
    by (apply Z.mul_nonneg_nonneg; lia).
  assert ((c.(y) - d.(y)) * left_of a b p < 0)
    by (apply Z.mul_pos_neg; lia).
  assert ((b.(y) - a.(y)) * left_of c d p < 0)
    by (apply Z.mul_pos_neg; lia).
  lia.
Qed.

Lemma both_left_inside (i j k : nat) :
  climbs R p i -> descends R p j -> 0 < side R p i -> 0 < side R p j ->
  0 <= side R p k.
Proof.
  unfold climbs, descends, side. intros Hi Hj Si Sj.
  pose proof (crossing_between (vtx R k) (vtx R (k + 1))
                (vtx R i) (vtx R (i + 1)) (vtx R j) (vtx R (j + 1)) p) as Hb.
  pose proof (side_nonneg_vertex R R_convex k i) as Fa.
  pose proof (side_nonneg_vertex R R_convex k (i + 1)) as Fb.
  pose proof (side_nonneg_vertex R R_convex k j) as Fc.
  pose proof (side_nonneg_vertex R R_convex k (j + 1)) as Fe.
  set (a := vtx R i) in *. set (b := vtx R (i + 1)) in *.
  set (c := vtx R j) in *. set (d := vtx R (j + 1)) in *.
  set (V := vtx R k) in *. set (W := vtx R (k + 1)) in *.
  set (F := left_of V W p) in *.
  set (Su := left_of a b p) in *. set (Sd := left_of c d p) in *.
  set (T1 := (p.(y) - d.(y)) * left_of V W c
             + (c.(y) - p.(y)) * left_of V W d) in *.
  set (T2 := (b.(y) - p.(y)) * left_of V W a
             + (p.(y) - a.(y)) * left_of V W b) in *.
  assert (H1 : 0 <= T1).
  { unfold T1.
    assert (0 <= (p.(y) - d.(y)) * left_of V W c)
      by (apply Z.mul_nonneg_nonneg; lia).
    assert (0 <= (c.(y) - p.(y)) * left_of V W d)
      by (apply Z.mul_nonneg_nonneg; lia). lia. }
  assert (H2 : 0 <= T2).
  { unfold T2.
    assert (0 <= (b.(y) - p.(y)) * left_of V W a)
      by (apply Z.mul_nonneg_nonneg; lia).
    assert (0 <= (p.(y) - a.(y)) * left_of V W b)
      by (apply Z.mul_nonneg_nonneg; lia). lia. }
  assert (HK : 0 < (c.(y) - d.(y)) * Su + (b.(y) - a.(y)) * Sd).
  { assert (0 < (c.(y) - d.(y)) * Su) by (apply Z.mul_pos_pos; lia).
    assert (0 < (b.(y) - a.(y)) * Sd) by (apply Z.mul_pos_pos; lia). lia. }
  set (K := (c.(y) - d.(y)) * Su + (b.(y) - a.(y)) * Sd) in *.
  clearbody K F T1 T2 Su Sd.
  destruct (Z_lt_dec F 0) as [Hneg | ]; [exfalso | lia].
  assert (K * F < 0) by (apply Z.mul_pos_neg; lia).
  assert (0 <= Su * T1) by (apply Z.mul_nonneg_nonneg; lia).
  assert (0 <= Sd * T2) by (apply Z.mul_nonneg_nonneg; lia).
  lia.
Qed.

Lemma counted_spec (i : nat) :
  counted R p i = true
  <-> (climbs R p i /\ 0 < side R p i) \/ (descends R p i /\ side R p i < 0).
Proof.
  unfold counted, climbs, descends. cbv zeta.
  destruct (Z.ltb_spec (vtx R i).(y) p.(y));
    destruct (Z.ltb_spec p.(y) (vtx R (i + 1)).(y));
    destruct (Z.ltb_spec (vtx R (i + 1)).(y) p.(y));
    destruct (Z.ltb_spec p.(y) (vtx R i).(y));
    destruct (Z.ltb_spec 0 (side R p i));
    destruct (Z.ltb_spec (side R p i) 0);
    cbn [andb orb]; split; intros Hgoal; try reflexivity; try discriminate;
    try lia.
Qed.

Lemma small_index (i j : nat) :
  (i < n)%nat -> (j < n)%nat -> (i mod n = j mod n)%nat -> i = j.
Proof. intros Hi Hj. now rewrite !Nat.mod_small. Qed.

Lemma inside_sides : inside_or_on R p <-> (forall i, 0 <= side R p i).
Proof.
  pose proof (polygon_nonempty R R_convex) as Hn. split.
  - intros H i. apply inside_or_on_vtx; assumption.
  - intros H i Hi. specialize (H i). unfold side in H.
    rewrite (vtx_small R i Hi) in H. exact H.
Qed.

(** A point to the left of, or on, every edge, and on none: the ray
    crosses one edge, the one that climbs. *)
Lemma inside_crosses_once :
  (forall i, 0 <= side R p i) ->
  (forall i, (i < n)%nat -> ~ on_edge R p i) ->
  length (filter (counted R p) (seq 0 n)) = 1%nat.
Proof.
  intros Hin Hoff.
  destruct (inside_between_vertices R R_convex p vtx_off Hin)
    as (a & b & Ha & Hb).
  destruct (climbing_edge R R_convex p vtx_off a b Ha Hb) as (i0 & Hi0 & Hc0).
  apply (filter_one _ _ i0); [apply seq_NoDup | apply in_seq; lia |].
  intros i Hi. apply in_seq in Hi. rewrite counted_spec. split.
  - intros [[Hc _] | [_ Hs]]; [| specialize (Hin i); lia].
    apply small_index; [lia | exact Hi0 |].
    apply (across_unique R R_convex p). left. now split.
  - intros ->. left. split; [exact Hc0 |].
    specialize (Hin i0).
    destruct (Z.eq_dec (side R p i0) 0) as [Hz | Hz]; [| lia].
    exfalso. apply (Hoff i0 Hi0). split; [now left | exact Hz].
Qed.

(** A point to the right of an edge, and on no edge: the ray crosses no
    edge, or two. *)
Lemma outside_crosses_evenly (k : nat) :
  side R p k < 0 ->
  (forall i, (i < n)%nat -> ~ on_edge R p i) ->
  length (filter (counted R p) (seq 0 n)) = 0%nat
  \/ length (filter (counted R p) (seq 0 n)) = 2%nat.
Proof.
  intros Hk Hoff.
  assert (Hdec : forall i, {climbs R p i} + {~ climbs R p i}).
  { intros i. unfold climbs.
    destruct (Z_lt_dec (vtx R i).(y) p.(y));
      destruct (Z_lt_dec p.(y) (vtx R (i + 1)).(y));
      [left; lia | right; lia | right; lia | right; lia]. }
  destruct (Exists_dec (climbs R p) (seq 0 n) Hdec) as [Hex | Hno].
  - apply Exists_exists in Hex. destruct Hex as (i0 & Hi0 & Hc0).
    apply in_seq in Hi0.
    destruct (descending_edge R R_convex p vtx_off i0 (i0 + 1))
      as (j0 & Hj0 & Hd0); [apply Hc0 | apply Hc0 |].
    assert (Hne : i0 <> j0).
    { intros ->. unfold climbs, descends in *. lia. }
    assert (Si : side R p i0 <> 0).
    { intros Hz. apply (Hoff i0); [lia |]. split; [now left | exact Hz]. }
    assert (Sj : side R p j0 <> 0).
    { intros Hz. apply (Hoff j0); [lia |]. split; [now right | exact Hz]. }
    assert (Hup : forall i, (i < n)%nat -> climbs R p i -> i = i0).
    { intros i Hi Hc. apply small_index; [exact Hi | lia |].
      apply (across_unique R R_convex p). left. now split. }
    assert (Hdn : forall i, (i < n)%nat -> descends R p i -> i = j0).
    { intros i Hi Hc. apply small_index; [exact Hi | lia |].
      apply (across_unique R R_convex p). right. now split. }
    destruct (Z_lt_dec 0 (side R p i0)) as [Pi | Ni].
    + destruct (Z_lt_dec 0 (side R p j0)) as [Pj | Nj].
      * pose proof (both_left_inside i0 j0 k Hc0 Hd0 Pi Pj). lia.
      * right. apply (filter_two _ _ i0 j0);
          [apply seq_NoDup | apply in_seq; lia | apply in_seq; lia | exact Hne |].
        intros i Hi. apply in_seq in Hi. rewrite counted_spec. split.
        -- intros [[Hc _] | [Hd _]];
             [left; apply Hup; [lia | exact Hc]
             | right; apply Hdn; [lia | exact Hd]].
        -- intros [-> | ->]; [left; now split | right; split; [exact Hd0 | lia]].
    + left. apply filter_none. intros i Hi. apply in_seq in Hi.
      apply not_true_is_false. rewrite counted_spec.
      intros [[Hc Hs] | [Hd Hs]].
      * rewrite (Hup i ltac:(lia) Hc) in Hs. lia.
      * rewrite (Hdn i ltac:(lia) Hd) in Hs.
        apply (not_both_right i0 j0 Hc0 Hd0); lia.
  - left. apply filter_none. intros i Hi. apply in_seq in Hi.
    apply not_true_is_false. rewrite counted_spec.
    assert (Hnone : forall j, (j < n)%nat -> ~ climbs R p j).
    { intros j Hj Hc. apply Hno. apply Exists_exists. exists j.
      split; [apply in_seq; lia | exact Hc]. }
    intros [[Hc _] | [Hd _]].
    + apply (Hnone i); [lia | exact Hc].
    + destruct (climbing_edge R R_convex p vtx_off (i + 1) i)
        as (j & Hj & Hc); [apply Hd | apply Hd |].
      apply (Hnone j Hj Hc).
Qed.

(** [isInside] on a convex polygon, for a point at the height of no
    vertex. *)
Lemma isInside_convex_polygon : isInside R p = true <-> inside_or_on R p.
Proof.
  pose proof (cp_size R R_convex) as Hsize. fold n in Hsize.
  unfold isInside. cbv zeta. fold n. fold e.
  destruct (Nat.ltb_spec n 3) as [Hlt | _]; [lia |].
  rewrite inside_sides.
  destruct (loop_result (seq 0 n)
              (fun i Hi => proj2 (proj1 (in_seq n 0 i) Hi)) 0)
    as [[(i & Hi & Hon) Hr] | [Hnone Hr]].
  - rewrite Hr. split; [| reflexivity].
    intros _ k. now apply (on_edge_inside i).
  - rewrite Hr.
    assert (Hoff : forall i, (i < n)%nat -> ~ on_edge R p i).
    { intros i Hi. apply Hnone, in_seq. lia. }
    assert (Hall : {forall i, 0 <= side R p i}
                   + {exists k, side R p k < 0}).
    { destruct (Forall_Exists_dec (fun i => 0 <= side R p i)
                  (fun i => Z_le_dec 0 (side R p i)) (seq 0 n)) as [Hf | He].
      - left. intros i. rewrite Forall_forall in Hf.
        pose proof (polygon_nonempty R R_convex) as Hn.
        replace (side R p i) with (side R p (i mod n)).
        + apply Hf, in_seq.
          pose proof (Nat.mod_upper_bound i n ltac:(fold n; lia)). lia.
        + unfold side. unfold n.
          now rewrite (vtx_mod R), (vtx_succ_mod R).
      - right. apply Exists_exists in He. destruct He as (k & _ & Hk).
        exists k. lia. }
    destruct Hall as [Hin | (k & Hk)].
    + rewrite (inside_crosses_once Hin Hoff). split; [intros _; exact Hin |].
      reflexivity.
    + split.
      * intros Hpar. exfalso.
        destruct (outside_crosses_evenly k Hk Hoff) as [E | E];
          rewrite E in Hpar; discriminate Hpar.
      * intros Hin. specialize (Hin k). lia.
Qed.
End InsideConvex.

(** * The hull is determined by what it encloses *)

(** ** Vectors on one line *)

Lemma parallel_x (d e1 e2 : Point) :
  d.(x) * cross e1 e2 = e2.(x) * cross e1 d - e1.(x) * cross e2 d.
Proof. unfold cross. ring. Qed.

Lemma parallel_y (d e1 e2 : Point) :
  d.(y) * cross e1 e2 = e2.(y) * cross e1 d - e1.(y) * cross e2 d.
Proof. unfold cross. ring. Qed.

(** Two vectors parallel to a third, which is not zero, are parallel. *)
Lemma parallel_trans (d e1 e2 : Point) :
  d <> mkPoint 0 0 -> cross e1 d = 0 -> cross e2 d = 0 -> cross e1 e2 = 0.
Proof.
  intros Hd H1 H2.
  pose proof (parallel_x d e1 e2) as Hx. pose proof (parallel_y d e1 e2) as Hy.
  rewrite H1, H2 in Hx, Hy. rewrite !Z.mul_0_r in Hx, Hy. cbn in Hx, Hy.
  apply Z.mul_eq_0 in Hx, Hy.
  destruct Hx as [Hx | Hx]; [| exact Hx].
  destruct Hy as [Hy | Hy]; [| exact Hy].
  exfalso. apply Hd. destruct d as [dx dy]. cbn in Hx, Hy. now subst.
Qed.

(** A vector along [d], scaled by the squared length of [d]. *)
Lemma along_x (d z : Point) :
  dot d d * z.(x) = dot d z * d.(x) - cross d z * d.(y).
Proof. unfold dot, cross. ring. Qed.

Lemma along_y (d z : Point) :
  dot d d * z.(y) = dot d z * d.(y) + cross d z * d.(x).
Proof. unfold dot, cross. ring. Qed.

Lemma square_pos (z : Z) : z <> 0 -> 0 < z * z.
Proof.
  intros H. destruct (Z.lt_trichotomy z 0) as [Hz | [Hz | Hz]];
    [apply Z.mul_neg_neg; lia | lia | apply Z.mul_pos_pos; lia].
Qed.

Lemma dot_self_pos (d : Point) : d <> mkPoint 0 0 -> 0 < dot d d.
Proof.
  intros Hd. unfold dot.
  pose proof (Z.square_nonneg d.(x)). pose proof (Z.square_nonneg d.(y)).
  destruct (Z.eq_dec d.(x) 0) as [Hx | Hx].
  - destruct (Z.eq_dec d.(y) 0) as [Hy | Hy].
    + exfalso. apply Hd. destruct d as [dx dy]. cbn in Hx, Hy. now subst.
    + pose proof (square_pos _ Hy). lia.
  - pose proof (square_pos _ Hx). lia.
Qed.

Lemma vsub_zero (a b : Point) : vsub a b = mkPoint 0 0 -> a = b.
Proof.
  unfold vsub. intros E. injection E as Ex Ey. apply Point_eq; lia.
Qed.

Lemma cross_combination (e P Q m : Point) (al be : Z) :
  al * cross e (vsub P m) + be * cross e (vsub Q m)
  = e.(x) * (al * (P.(y) - m.(y)) + be * (Q.(y) - m.(y)))
    - e.(y) * (al * (P.(x) - m.(x)) + be * (Q.(x) - m.(x))).
Proof. unfold cross, vsub. cbn [x y]. ring. Qed.

Section Vertices.
Variable R : list Point.
Let n := length R.
Hypothesis R_convex : convex_polygon R.

Lemma vertex_enclosed (k : nat) : enclosed R (vtx R k).
Proof. intros i. apply (cp_left R R_convex). Qed.

(** The edge that ends at the vertex [j], and the edge that starts
    there, as vectors at that vertex. *)
Lemma corner_edges (j : nat) (q : Point) :
  enclosed R q ->
  0 <= cross (edge R (j + n - 1)) (vsub q (vtx R j))
  /\ 0 <= cross (edge R j) (vsub q (vtx R j))
  /\ 0 < cross (edge R (j + n - 1)) (edge R j).
Proof.
  intros Hq. pose proof (polygon_nonempty R R_convex) as Hn. fold n in Hn.
  assert (Ej : vtx R (j + n - 1 + 1) = vtx R j).
  { replace (j + n - 1 + 1)%nat with (j + n)%nat by lia.
    apply (vtx_add_n R Hn). }
  split; [| split].
  - pose proof (Hq (j + n - 1)%nat) as H.
    rewrite left_of_cross_next, Ej in H. unfold edge. now rewrite Ej.
  - pose proof (Hq j) as H. now rewrite left_of_cross in H.
  - pose proof (edges_turn R R_convex (j + n - 1)) as H.
    replace (j + n - 1 + 1)%nat with (j + n)%nat in H by lia.
    unfold n in H. now rewrite (edge_add_n R Hn) in H.
Qed.

(** A vertex is not strictly between two enclosed points. *)
Lemma vertex_not_between (j : nat) (P Q : Point) (al be : Z) :
  enclosed R P -> enclosed R Q -> P <> vtx R j ->
  0 < al -> 0 < be ->
  al * (P.(x) - (vtx R j).(x)) + be * (Q.(x) - (vtx R j).(x)) = 0 ->
  al * (P.(y) - (vtx R j).(y)) + be * (Q.(y) - (vtx R j).(y)) = 0 ->
  False.
Proof.
  intros HP HQ Hne Hal Hbe Hx Hy.
  destruct (corner_edges j P HP) as (P1 & P2 & Hturn).
  destruct (corner_edges j Q HQ) as (Q1 & Q2 & _).
  set (m := vtx R j) in *.
  pose proof (cross_combination (edge R (j + n - 1)) P Q m al be) as C1.
  pose proof (cross_combination (edge R j) P Q m al be) as C2.
  rewrite Hx, Hy, !Z.mul_0_r in C1, C2. cbn in C1, C2.
  apply two_products_zero in C1; [| left; lia | assumption ..].
  apply two_products_zero in C2; [| left; lia | assumption ..].
  assert (Hz : vsub P m <> mkPoint 0 0)
    by (intros E; apply Hne; now apply vsub_zero).
  pose proof (parallel_trans (vsub P m) _ _ Hz (proj1 C1) (proj1 C2)). lia.
Qed.

(** No three vertices are on one line. *)
Lemma no_three_on_line (i j k : nat) :
  vtx R i <> vtx R j -> vtx R i <> vtx R k -> vtx R j <> vtx R k ->
  left_of (vtx R i) (vtx R j) (vtx R k) <> 0.
Proof.
  intros Hab Hac Hbc Hz.
  pose proof (vertex_enclosed i) as Ha. pose proof (vertex_enclosed j) as Hb.
  pose proof (vertex_enclosed k) as Hc.
  set (a := vtx R i) in *. set (b := vtx R j) in *. set (c := vtx R k) in *.
  set (d := vsub c a). set (u := vsub b a).
  assert (Hd : d <> mkPoint 0 0)
    by (intros E; apply Hac; symmetry; now apply vsub_zero).
  pose proof (dot_self_pos d Hd) as HD.
  assert (Hcr : cross d u = 0).
  { rewrite left_of_cross in Hz. fold u d in Hz. rewrite cross_anti. lia. }
  pose proof (along_x d u) as Ex. pose proof (along_y d u) as Ey.
  rewrite Hcr in Ex, Ey. rewrite Z.mul_0_l in Ex, Ey.
  set (D := dot d d) in *. set (t := dot d u) in *.
  assert (Eux : u.(x) = b.(x) - a.(x)) by reflexivity.
  assert (Euy : u.(y) = b.(y) - a.(y)) by reflexivity.
  assert (Edx : d.(x) = c.(x) - a.(x)) by reflexivity.
  assert (Edy : d.(y) = c.(y) - a.(y)) by reflexivity.
  set (ux := x u) in *. set (uy := y u) in *.
  set (dx := x d) in *. set (dy := y d) in *.
  clearbody D t ux uy dx dy.
  destruct (Z.lt_trichotomy t 0) as [Ht | [Ht | Ht]].
  - (* [a] is between [b] and [c] *)
    apply (vertex_not_between i b c D (- t) Hb Hc); fold a;
      [congruence | lia | lia | |].
    + replace (b.(x) - a.(x)) with ux by lia.
      replace (c.(x) - a.(x)) with dx by lia. lia.
    + replace (b.(y) - a.(y)) with uy by lia.
      replace (c.(y) - a.(y)) with dy by lia. lia.
  - (* [b] is [a] *)
    subst t. apply Hab. apply Point_eq.
    + assert (E : D * ux = 0) by lia. apply Z.mul_eq_0 in E. lia.
    + assert (E : D * uy = 0) by lia. apply Z.mul_eq_0 in E. lia.
  - destruct (Z.lt_trichotomy t D) as [Ht' | [Ht' | Ht']].
    + (* [b] is between [a] and [c] *)
      apply (vertex_not_between j a c (D - t) t Ha Hc); fold b;
        [congruence | lia | lia | |].
      * replace (a.(x) - b.(x)) with (- ux) by lia.
        replace (c.(x) - b.(x)) with (dx - ux) by lia. lia.
      * replace (a.(y) - b.(y)) with (- uy) by lia.
        replace (c.(y) - b.(y)) with (dy - uy) by lia. lia.
    + (* [b] is [c] *)
      subst t. apply Hbc. apply Point_eq.
      * assert (E : D * (ux - dx) = 0) by (rewrite Z.mul_sub_distr_l; lia).
        apply Z.mul_eq_0 in E. lia.
      * assert (E : D * (uy - dy) = 0) by (rewrite Z.mul_sub_distr_l; lia).
        apply Z.mul_eq_0 in E. lia.
    + (* [c] is between [a] and [b] *)
      apply (vertex_not_between k a b (t - D) D Ha Hb); fold c;
        [congruence | lia | lia | |].
      * replace (a.(x) - c.(x)) with (- dx) by lia.
        replace (b.(x) - c.(x)) with (ux - dx) by lia. lia.
      * replace (a.(y) - c.(y)) with (- dy) by lia.
        replace (b.(y) - c.(y)) with (uy - dy) by lia. lia.
Qed.

(** The vertex after [vtx R k] is the one vertex that has every vertex
    to the left of, or on, the line to it. *)
Lemma next_vertex (k : nat) (w : Point) :
  In w R -> w <> vtx R k ->
  (forall z, In z R -> 0 <= left_of (vtx R k) w z) ->
  w = vtx R (k + 1).
Proof.
  intros Hw Hne Hleft.
  pose proof (polygon_nonempty R R_convex) as Hn. fold n in Hn.
  destruct (Point_eq_dec w (vtx R (k + 1))) as [E | Hns]; [exact E | exfalso].
  destruct (in_vtx R w Hw) as (j & _ & Ej).
  pose proof (Hleft (vtx R (k + 1)) (vtx_in R Hn (k + 1))) as H1.
  pose proof (cp_left R R_convex k j) as H2. rewrite Ej in H2.
  rewrite left_of_swap_23 in H1.
  apply (no_three_on_line k (k + 1) j).
  - apply (consecutive_differ R R_convex).
  - rewrite Ej. congruence.
  - rewrite Ej. congruence.
  - rewrite Ej. lia.
Qed.
End Vertices.

(** ** Two polygons that enclose each other *)

Lemma support_sum (e1 e2 v w : Point) :
  dot (mkPoint (e1.(y) + e2.(y)) (- (e1.(x) + e2.(x)))) (vsub v w)
  = cross e1 (vsub w v) + cross e2 (vsub w v).
Proof. unfold dot, cross, vsub. cbn [x y]. ring. Qed.

(** A vertex of [R] that [R'] encloses is a vertex of [R'], when [R]
    encloses the vertices of [R']. *)
Lemma vertex_of_enclosing (R R' : list Point) (v : Point) :
  convex_polygon R -> convex_polygon R' ->
  (forall w, In w R' -> enclosed R w) ->
  In v R -> enclosed R' v -> In v R'.
Proof.
  intros HR HR' Hin Hv Henc.
  pose proof (polygon_nonempty R' HR') as Hn'.
  destruct (in_vtx R v Hv) as (k & _ & Ek).
  set (e1 := edge R (k + length R - 1)). set (e2 := edge R k).
  destruct (support_vertex R' HR'
              (mkPoint (e1.(y) + e2.(y)) (- (e1.(x) + e2.(x)))) v Henc)
    as (j & Hj).
  set (w := vtx R' j) in *.
  assert (Hw : In w R') by (apply vtx_in; exact Hn').
  destruct (corner_edges R HR k w (Hin w Hw)) as (C1 & C2 & Hturn).
  fold e1 e2 in C1, C2, Hturn. rewrite Ek in C1, C2.
  clearbody e1 e2 w. rewrite support_sum in Hj.
  assert (Z1 : cross e1 (vsub w v) = 0) by (clear - C1 C2 Hj; lia).
  assert (Z2 : cross e2 (vsub w v) = 0) by (clear - C1 C2 Hj; lia).
  pose proof (parallel_x (vsub w v) e1 e2) as Px.
  pose proof (parallel_y (vsub w v) e1 e2) as Py.
  rewrite Z1, Z2, !Z.mul_0_r in Px, Py. cbn [vsub x y] in Px, Py.
  apply Z.mul_eq_0 in Px, Py.
  replace v with w; [exact Hw |].
  apply Point_eq; clear - Px Py Hturn; lia.
Qed.

Section Unique.
Variables R1 R2 : list Point.
Hypothesis R1_convex : convex_polygon R1.
Hypothesis R2_convex : convex_polygon R2.
Hypothesis R1_in_R2 : forall v, In v R1 -> enclosed R2 v.
Hypothesis R2_in_R1 : forall v, In v R2 -> enclosed R1 v.
Hypothesis same_start : vtx R1 0 = vtx R2 0.

Lemma same_vertex_set (v : Point) : In v R1 <-> In v R2.
Proof.
  split; intros Hv.
  - apply (vertex_of_enclosing R1 R2 v); auto.
  - apply (vertex_of_enclosing R2 R1 v); auto.
Qed.

Lemma same_vertices (k : nat) : vtx R1 k = vtx R2 k.
Proof.
  pose proof (polygon_nonempty R2 R2_convex) as Hn2.
  induction k as [| k IH]; [exact same_start |].
  replace (S k) with (k + 1)%nat by lia. symmetry.
  apply (next_vertex R1 R1_convex k).
  - apply same_vertex_set. now apply vtx_in.
  - rewrite IH. intros E. now apply (consecutive_differ R2 R2_convex k).
  - intros z Hz. apply same_vertex_set in Hz.
    destruct (in_vtx R2 z Hz) as (j & _ & <-).
    rewrite IH. apply (cp_left R2 R2_convex).
Qed.

Lemma same_length : length R1 = length R2.
Proof.
  apply Permutation_length. apply NoDup_Permutation.
  - apply (cp_NoDup R1 R1_convex).
  - apply (cp_NoDup R2 R2_convex).
  - apply same_vertex_set.
Qed.

(** Two convex polygons that enclose each other's vertices and start at
    the same vertex are the same list. *)
Lemma convex_polygon_unique : R1 = R2.
Proof.
  apply (nth_ext R1 R2 (mkPoint 0 0) (mkPoint 0 0) same_length).
  intros k Hk. pose proof (same_vertices k) as E.
  rewrite (vtx_small R1 k Hk) in E.
  rewrite (vtx_small R2 k) in E by (rewrite <- same_length; exact Hk).
  exact E.
Qed.
End Unique.

(** ** The hull of a hull, and of more points *)

Lemma scanExact_copies (a : Point) (st : list Point) :
  st = [a] \/ st = [a; a] -> scanExact st a = [a; a].
Proof.
  intros [-> | ->]; unfold scanExact; cbn [popExact]; [reflexivity |].
  now rewrite left_of_same_1.
Qed.

Lemma scan_copies (a : Point) (l : list Point) :
  (forall p, In p l -> p = a) ->
  forall st, st = [a] \/ st = [a; a] -> l <> [] ->
  fold_left scanExact l st = [a; a].
Proof.
  induction l as [| p l IH]; intros Hall st Hst Hne; [congruence |].
  cbn [fold_left]. rewrite (Hall p (or_introl eq_refl)).
  rewrite (scanExact_copies a st Hst).
  destruct l as [| q l]; [reflexivity |].
  apply IH; [| now right | discriminate].
  intros r Hr. apply Hall. now right.
Qed.

(** Copies of one point: the hull has two of them. *)
Lemma hull_of_copies (points : list Point) (a : Point) :
  Forall in_range points -> (2 < length points)%nat ->
  (forall p, In p points -> p = a) ->
  length (convexHull points) = 2%nat.
Proof.
  intros Hrange Hlen Hall.
  destruct (convexHull_chains points Hlen Hrange) as (TL & TU & EL & EU & ->).
  set (s := std_sort Point_lt points) in *.
  assert (Hperm : Permutation points s) by apply std_sort_perm.
  assert (Hs : forall p, In p s -> p = a).
  { intros p Hp. apply Hall. now apply (Permutation_in _ (Permutation_sym Hperm)). }
  assert (Hslen : (2 < length s)%nat)
    by (now rewrite <- (Permutation_length Hperm)).
  assert (Low : fold_left scanExact s [] = [a; a]).
  { destruct s as [| p s']; [simpl in Hslen; lia |]. cbn [fold_left].
    unfold scanExact at 2. cbn [popExact].
    rewrite (Hs p (or_introl eq_refl)).
    apply scan_copies; [| now left |].
    - intros r Hr. apply Hs. now right.
    - intros ->. simpl in Hslen. lia. }
  assert (Up : fold_left scanExact (rev s) [] = [a; a]).
  { assert (Hr : forall p, In p (rev s) -> p = a)
      by (intros p Hp; apply Hs; now apply in_rev).
    assert (Hrlen : (2 < length (rev s))%nat) by (now rewrite length_rev).
    destruct (rev s) as [| p s']; [simpl in Hrlen; lia |]. cbn [fold_left].
    unfold scanExact at 2. cbn [popExact].
    rewrite (Hr p (or_introl eq_refl)).
    apply scan_copies; [| now left |].
    - intros r Hr'. apply Hr. now right.
    - intros ->. simpl in Hrlen. lia. }
  rewrite Low in EL. rewrite Up in EU.
  apply (f_equal (@length Point)) in EL, EU.
  cbn [length] in EL, EU. rewrite length_app in EL, EU. cbn [length] in EL, EU.
  rewrite length_app. cbn [length]. rewrite !length_rev. lia.
Qed.

(** A hull with three or more vertices is a convex polygon. *)
Lemma hull_convex (points : list Point) :
  Forall in_range points -> (3 <= length (convexHull points))%nat ->
  convex_polygon (convexHull points).
Proof.
  intros Hrange H3.
  assert (Hlen : (2 < length points)%nat).
  { destruct (Nat.le_gt_cases (length points) 2) as [Hs | Hl]; [| exact Hl].
    rewrite (convexHull_small points Hs) in H3. lia. }
  apply convexHull_convex_polygon; try assumption.
  set (a := hd origin points).
  assert (Ha : In a points)
    by (destruct points; [simpl in Hlen; lia | now left]).
  destruct (Forall_Exists_dec (fun p => p = a) (fun p => Point_eq_dec p a) points)
    as [Hall | Hex].
  - rewrite Forall_forall in Hall.
    pose proof (hull_of_copies points a Hrange Hlen Hall). lia.
  - apply Exists_exists in Hex. destruct Hex as (p & Hp & Hpa).
    exists p, a. auto.
Qed.

(** Three input points not on one line: the hull has three or more
    vertices. *)
Lemma hull_polygon (points : list Point) (u v w : Point) :
  Forall in_range points ->
  In u points -> In v points -> In w points -> left_of u v w <> 0 ->
  (3 <= length (convexHull points))%nat.
Proof.
  intros Hrange Hu Hv Hw Hturn.
  assert (Huv : u <> v) by (intros ->; apply Hturn, left_of_same_1).
  assert (Huw : u <> w) by (intros ->; apply Hturn, left_of_same_3).
  assert (Hvw : v <> w) by (intros ->; apply Hturn, left_of_same_2).
  assert (Hlen : (2 < length points)%nat).
  { assert (Hnd : NoDup [u; v; w]).
    { constructor; [intros [E | [E | []]]; congruence |].
      constructor; [intros [E | []]; congruence |].
      constructor; [intros [] | constructor]. }
    assert (Hincl : incl [u; v; w] points)
      by (intros z [<- | [<- | [<- | []]]]; assumption).
    pose proof (NoDup_incl_length Hnd Hincl) as H. simpl in H. lia. }
  destruct (convexHull_strict points Hrange Hlen) as (Hnd & _ & _).
  { exists u, v. auto. }
  pose proof (convexHull_left_of_edges points) as Hin.
  destruct (convexHull_chains points Hlen Hrange) as (TL & TU & _ & _ & E).
  destruct (convexHull points) as [| a [| b [| c hull]]] eqn:Eh;
    [discriminate E | | | simpl; lia].
  - apply (f_equal (@length Point)) in E. cbn [length] in E.
    rewrite length_app in E. cbn [length] in E. lia.
  - exfalso. apply Hturn.
    assert (Hab : a <> b).
    { intros ->. inversion Hnd as [| ? ? Hn _]; subst. apply Hn. now left. }
    assert (Hline : forall q, In q points -> left_of a b q = 0).
    { intros q Hq. pose proof (Hin q Hrange Hq) as H.
      pose proof (H 0%nat ltac:(simpl; lia)) as H0.
      pose proof (H 1%nat ltac:(simpl; lia)) as H1.
      cbn in H0, H1. rewrite left_of_swap_12 in H1. lia. }
    apply (on_one_line a b); auto.
Qed.

Lemma hull_first (points : list Point) :
  Forall in_range points -> (2 < length points)%nat ->
  vtx (convexHull points) 0 = hd origin (std_sort Point_lt points).
Proof.
  intros Hrange Hlen.
  destruct (convexHull_chains points Hlen Hrange) as (TL & TU & _ & _ & ->).
  unfold vtx. rewrite Nat.Div0.mod_0_l. reflexivity.
Qed.

Lemma enclosed_inside (R : list Point) (q : Point) :
  (0 < length R)%nat -> (enclosed R q <-> inside_or_on R q).
Proof.
  intros Hn. split.
  - intros H i Hi. specialize (H i). now rewrite (vtx_small R i Hi) in H.
  - intros H i. now apply inside_or_on_vtx.
Qed.

(** Two inputs whose hulls enclose each other's vertices have the same
    hull. *)
Lemma hull_determined (P Q : list Point) :
  Forall in_range P -> Forall in_range Q ->
  (3 <= length (convexHull P))%nat -> (3 <= length (convexHull Q))%nat ->
  (forall v, In v (convexHull P) -> inside_or_on (convexHull Q) v) ->
  (forall v, In v (convexHull Q) -> inside_or_on (convexHull P) v) ->
  convexHull P = convexHull Q.
Proof.
  intros HP HQ P3 Q3 HPQ HQP.
  pose proof (hull_convex P HP P3) as CP. pose proof (hull_convex Q HQ Q3) as CQ.
  pose proof (polygon_nonempty _ CP) as NP.
  pose proof (polygon_nonempty _ CQ) as NQ.
  assert (EPQ : forall v, In v (convexHull P) -> enclosed (convexHull Q) v)
    by (intros v Hv; apply enclosed_inside; auto).
  assert (EQP : forall v, In v (convexHull Q) -> enclosed (convexHull P) v)
    by (intros v Hv; apply enclosed_inside; auto).
  assert (LP : (2 < length P)%nat).
  { destruct (Nat.le_gt_cases (length P) 2) as [Hs | Hl]; [| exact Hl].
    rewrite (convexHull_small P Hs) in P3. lia. }
  assert (LQ : (2 < length Q)%nat).
  { destruct (Nat.le_gt_cases (length Q) 2) as [Hs | Hl]; [| exact Hl].
    rewrite (convexHull_small Q Hs) in Q3. lia. }
  apply convex_polygon_unique; try assumption.
  rewrite (hull_first P HP LP), (hull_first Q HQ LQ).
  assert (MP : In (hd origin (std_sort Point_lt P)) (convexHull P))
    by (rewrite <- (hull_first P HP LP); now apply vtx_in).
  assert (MQ : In (hd origin (std_sort Point_lt Q)) (convexHull Q))
    by (rewrite <- (hull_first Q HQ LQ); now apply vtx_in).
  apply lexle_antisym.
  - apply sorted_hd_le; [apply sort_lex_sorted |].
    apply (Permutation_in _ (std_sort_perm Point_lt P)).
    apply convexHull_subset.
    apply (vertex_of_enclosing (convexHull Q) (convexHull P)); auto.
  - apply sorted_hd_le; [apply sort_lex_sorted |].
    apply (Permutation_in _ (std_sort_perm Point_lt Q)).
    apply convexHull_subset.
    apply (vertex_of_enclosing (convexHull P) (convexHull Q)); auto.
Qed.

(** The hull of a hull. *)
Lemma hull_of_hull (points : list Point) :
  Forall in_range points ->
  convexHull (convexHull points) = convexHull points.
Proof.
  intros Hrange.
  destruct (Nat.le_gt_cases (length (convexHull points)) 2) as [Hs | Hl];
    [now apply convexHull_small |].
  pose proof (hull_convex points Hrange Hl) as CH.
  assert (Hsub : forall h, In h (convexHull points) -> In h points)
    by apply convexHull_subset.
  assert (HH : Forall in_range (convexHull points)).
  { rewrite Forall_forall in *. intros v Hv. apply Hrange, Hsub, Hv. }
  pose proof (polygon_nonempty _ CH) as Hn.
  apply hull_determined; try assumption.
  - apply (hull_polygon _ (vtx (convexHull points) 0) (vtx (convexHull points) 1)
             (vtx (convexHull points) 2) HH); try (now apply vtx_in).
    pose proof (cp_turn _ CH 0). cbn [Nat.add] in *. lia.
  - intros v Hv. apply convexHull_subset in Hv.
    apply convexHull_left_of_edges; [exact Hrange | now apply Hsub].
  - intros v Hv. now apply convexHull_left_of_edges.
Qed.

(** An input that has the vertices of a hull among its points, and all
    its points inside or on that hull, has that hull. *)
Lemma hull_of_enclosed (points others : list Point) :
  Forall in_range points -> Forall in_range others ->
  (3 <= length (convexHull points))%nat ->
  (forall v, In v (convexHull points) -> In v others) ->
  (forall q, In q others -> inside_or_on (convexHull points) q) ->
  convexHull others = convexHull points.
Proof.
  intros Hrange Hothers H3 Hvs Hin.
  pose proof (hull_convex points Hrange H3) as CH.
  pose proof (polygon_nonempty _ CH) as Hn.
  apply hull_determined; try assumption.
  - apply (hull_polygon _ (vtx (convexHull points) 0) (vtx (convexHull points) 1)
             (vtx (convexHull points) 2) Hothers);
      try (apply Hvs; now apply vtx_in).
    pose proof (cp_turn _ CH 0). cbn [Nat.add] in *. lia.
  - intros v Hv. apply Hin. now apply convexHull_subset.
  - intros v Hv. apply convexHull_left_of_edges; [exact Hothers |].
    now apply Hvs.
Qed.

(** [isInside] on the hull that [convexHull] returns. *)
Lemma isInside_hull (points : list Point) (p : Point) :
  Forall in_range points -> Forall (fun v => 0 <= v.(x)) points ->
  in_range p -> 0 <= p.(x) ->
  (3 <= length (convexHull points))%nat ->
  Forall (fun v => v.(y) <> p.(y)) (convexHull points) ->
  isInside (convexHull points) p = true <-> inside_or_on (convexHull points) p.
Proof.
  intros Hrange Hpos Hp Hpx H3 Hoff.
  assert (Hsub : forall h, In h (convexHull points) -> In h points)
    by apply convexHull_subset.
  rewrite Forall_forall in Hrange, Hpos.
  assert (Hbox : forall v, In v (mkPoint IntT.maxT p.(y) :: p :: convexHull points) ->
                 (0 <= v.(x) <= IntT.maxT) /\ - 2 ^ 30 <= v.(y) < 2 ^ 30).
  { unfold in_range in Hp. intros v [<- | [<- | Hv]]; cbn [x y].
    - unfold IntT.maxT. lia.
    - unfold IntT.maxT. lia.
    - pose proof (Hrange v (Hsub v Hv)) as Hr. unfold in_range in Hr.
      pose proof (Hpos v (Hsub v Hv)). unfold IntT.maxT. lia. }
  apply isInside_convex_polygon.
  - apply hull_convex; [now apply Forall_forall | exact H3].
  - intros a b Ha Hb. apply Hbox in Ha, Hb. unfold near.
    unfold IntT.maxT in *. lia.
  - unfold in_range in Hp. unfold IntT.maxT. lia.
  - apply Forall_forall. intros v Hv.
    apply (Hbox v). right. right. exact Hv.
  - exact Hoff.
Qed.

(** * What a caller can rely on *)

(** ** Comparisons and predicates *)

(** X1: [operator<] is a strict total order on the points: nothing is
    below itself, it is transitive, and two points neither of which is
    below the other are equal for [operator==], which holds of a point and
    itself only. *)
Theorem Point_lt_strict_total (a b c : Point) :
  Point_lt a a = false
  /\ (Point_lt a b = true -> Point_lt b c = true -> Point_lt a c = true)
  /\ (Point_lt a b = false -> Point_lt b a = false -> Point_eqb a b = true)
  /\ (Point_eqb a b = true -> a = b /\ Point_lt a b = false).
Proof.
  split; [| split; [| split]].
  - apply Point_lt_false, lexle_refl.
  - rewrite !Point_lt_true. unfold lexlt. lia.
  - rewrite !Point_lt_false. intros H1 H2.
    apply Point_eqb_eq. now apply lexle_antisym.
  - intros H. apply Point_eqb_eq in H. subst b.
    split; [reflexivity |]. apply Point_lt_false, lexle_refl.
Qed.

(** X2: where the two differences [q - p] and [r - q] are values of [T],
    [orientation] answers by the side of the line from [p] to [q] that [r]
    is on: 0 on the line, 1 to the right (clockwise), 2 to the left. *)
Theorem orientation_sides (p q r : Point) :
  near q p -> near r q ->
  (orientation p q r = 0 <-> left_of p q r = 0)
  /\ (orientation p q r = 1 <-> left_of p q r < 0)
  /\ (orientation p q r = 2 <-> 0 < left_of p q r).
Proof.
  intros Hqp Hrq. rewrite (orientation_near p q r Hqp Hrq).
  split; [apply exact_orientation_0 | split];
    [apply exact_orientation_1 | apply exact_orientation_2].
Qed.

Lemma orientation_sides_witness :
  orientation (mkPoint 0 0) (mkPoint 4 0) (mkPoint 4 3) = 2
  <-> 0 < left_of (mkPoint 0 0) (mkPoint 4 0) (mkPoint 4 3).
Proof.
  apply (orientation_sides (mkPoint 0 0) (mkPoint 4 0) (mkPoint 4 3));
    unfold near, IntT.maxT; cbn [x y]; lia.
Defined.

(** X3: for [q] on the line through [p] and [r], [onSegment p q r] says
    whether [q] is a point of the closed segment from [p] to [r]. *)
Theorem onSegment_on_line (p q r : Point) :
  left_of p r q = 0 -> (onSegment p q r = true <-> on_segment p r q).
Proof.
  intros Hline. split.
  - now apply box_on_segment.
  - intros H. now apply on_segment_box in H.
Qed.

Lemma onSegment_on_line_witness :
  onSegment (mkPoint 0 0) (mkPoint 2 1) (mkPoint 6 3) = true
  <-> on_segment (mkPoint 0 0) (mkPoint 6 3) (mkPoint 2 1).
Proof.
  apply (onSegment_on_line (mkPoint 0 0) (mkPoint 2 1) (mkPoint 6 3)).
  reflexivity.
Defined.

(** X4: [doIntersect] gives the same answer when the two segments change
    places, on every input. *)
Theorem doIntersect_symmetric (p1 q1 p2 q2 : Point) :
  doIntersect p1 q1 p2 q2 = doIntersect p2 q2 p1 q1.
Proof.
  rewrite !doIntersect_or.
  destruct (orientation p1 q1 p2 =? 0), (orientation p1 q1 q2 =? 0),
    (orientation p2 q2 p1 =? 0), (orientation p2 q2 q1 =? 0),
    (orientation p1 q1 p2 =? orientation p1 q1 q2),
    (orientation p2 q2 p1 =? orientation p2 q2 q1),
    (onSegment p1 p2 q1), (onSegment p1 q2 q1),
    (onSegment p2 p1 q2), (onSegment p2 q1 q2); reflexivity.
Qed.

(** X5: where the coordinates of the four points differ by values of [T],
    [doIntersect] is true exactly when the closed segments [p1 q1] and
    [p2 q2] have a point in common. *)
Theorem doIntersect_common_point (p1 q1 p2 q2 : Point) :
  close [p1; q1; p2; q2] ->
  (doIntersect p1 q1 p2 q2 = true <-> segments_meet p1 q1 p2 q2).
Proof. intros Hc. now apply doIntersect_iff_meet. Qed.

Lemma doIntersect_common_point_witness :
  doIntersect (mkPoint 0 0) (mkPoint 4 4) (mkPoint 0 3) (mkPoint 3 0) = true
  <-> segments_meet (mkPoint 0 0) (mkPoint 4 4) (mkPoint 0 3) (mkPoint 3 0).
Proof.
  apply (doIntersect_common_point
           (mkPoint 0 0) (mkPoint 4 4) (mkPoint 0 3) (mkPoint 3 0)).
  apply in_range_close. repeat constructor; cbn [x y]; lia.
Defined.

(** ** [convexHull] *)

(** X6: on every input of three or more points, also where [orientation]
    overflows: the vertices returned are input points, there are two or
    more of them, the first is the smallest input point for [operator<],
    and the largest is among them. *)
Theorem convexHull_any_input (points : list Point) :
  (2 < length points)%nat ->
  (forall h, In h (convexHull points) -> In h points)
  /\ (2 <= length (convexHull points))%nat
  /\ (forall q, In q points -> lexle (hd origin (convexHull points)) q)
  /\ (exists top, In top (convexHull points)
                  /\ forall q, In q points -> lexle q top).
Proof.
  intros Hlen.
  pose proof (std_sort_perm Point_lt points) as Hperm.
  pose proof (sort_lex_sorted points) as Hsorted.
  destruct (convexHull_shape points Hlen) as (A & B & E).
  split; [intros h; apply convexHull_subset |]. rewrite E.
  split; [| split].
  - rewrite length_app. simpl. lia.
  - intros q Hq. cbn [app hd]. apply sorted_hd_le; [assumption |].
    now apply (Permutation_in _ Hperm).
  - exists (last (std_sort Point_lt points) origin). split.
    + apply in_or_app. right. now left.
    + intros q Hq. apply sorted_le_last; [assumption |].
      now apply (Permutation_in _ Hperm).
Qed.

Lemma convexHull_any_input_witness :
  let points :=
    [mkPoint (-2000000000) 0; mkPoint 1000000000 (-5); mkPoint 2000000000 0;
     mkPoint 2000000000 1] in
  (2 <= length (convexHull points))%nat
  /\ (forall q, In q points -> lexle (hd origin (convexHull points)) q).
Proof.
  intros points.
  destruct (convexHull_any_input points) as (_ & Hlen & Hmin & _).
  - vm_compute. lia.
  - split; assumption.
Defined.

(** X7: on three or more points the result does not depend on the order
    the points are given in. *)
Theorem convexHull_permutation (points points' : list Point) :
  Permutation points points' -> (2 < length points)%nat ->
  convexHull points' = convexHull points.
Proof.
  intros Hp Hlen. pose proof (Permutation_length Hp) as Hl.
  unfold convexHull, convexHull_run. cbv zeta. rewrite <- Hl.
  destruct (Nat.leb_spec (length points) 2) as [H | _]; [lia |].
  now rewrite (std_sort_perm_eq points points' Hp).
Qed.

Lemma convexHull_permutation_witness :
  convexHull [mkPoint 4 4; mkPoint 0 0; mkPoint 4 0]
  = convexHull [mkPoint 0 0; mkPoint 4 0; mkPoint 4 4].
Proof.
  apply (convexHull_permutation
           [mkPoint 0 0; mkPoint 4 0; mkPoint 4 4]
           [mkPoint 4 4; mkPoint 0 0; mkPoint 4 0]).
  - apply Permutation_sym, (Permutation_cons_app [_; _] []). reflexivity.
  - simpl. lia.
Defined.

(** X8: [convexHull] and [polygonDiameter] write to the caller's vector:
    afterwards it holds the same points, and from three points on it is
    sorted by [operator<]. *)
Theorem convexHull_sorts_caller (points : list Point) (fuel : nat) :
  Permutation points (snd (convexHull_run points))
  /\ Permutation points (snd (polygonDiameter_run fuel points))
  /\ ((2 < length points)%nat ->
      StronglySorted lexle (snd (convexHull_run points))
      /\ StronglySorted lexle (snd (polygonDiameter_run fuel points))).
Proof.
  assert (E : snd (polygonDiameter_run fuel points)
              = if (length points <? 2)%nat then points
                else snd (convexHull_run points)).
  { unfold polygonDiameter_run.
    destruct (length points <? 2)%nat; [reflexivity |].
    now destruct (convexHull_run points). }
  assert (Hc : Permutation points (snd (convexHull_run points))).
  { unfold convexHull_run. cbv zeta.
    destruct (length points <=? 2)%nat; [reflexivity |]. apply std_sort_perm. }
  assert (Hs : (2 < length points)%nat ->
               StronglySorted lexle (snd (convexHull_run points))).
  { intros Hlen. unfold convexHull_run. cbv zeta.
    destruct (Nat.leb_spec (length points) 2) as [H | _]; [lia |].
    apply sort_lex_sorted. }
  rewrite E. split; [exact Hc | split].
  - now destruct (length points <? 2)%nat.
  - intros Hlen. split; [now apply Hs |].
    destruct (Nat.ltb_spec (length points) 2) as [H | _]; [lia | now apply Hs].
Qed.

(** ** Closest pair *)

(** X12: [std::sort] may leave points of equal [y] in any order.  For
    every sequence [pointsY] it can produce (a permutation of the input,
    sorted by [y]), the square root of what [closestPairUtil] returns is
    the distance of the closest two points, for coordinates in
    [[-2^30, 2^30)]. *)
Theorem closestPairUtil_any_tie_order (points pointsY : list Point) :
  Forall in_range points -> (2 <= length points)%nat ->
  Permutation points pointsY -> StronglySorted yle pointsY ->
  is_min_dist points
    (sqrt (IZR (closestPairUtil (std_sort Point_lt points) pointsY))).
Proof.
  intros Hrange Hlen Hperm Hsorted.
  destruct (closestPairUtil_min points pointsY Hrange Hlen Hperm Hsorted)
    as [(p & q & Hpq & Heq) Hall].
  split.
  - exists p, q. split; [assumption |]. unfold distance. now rewrite Heq.
  - intros p' q' Hpq'. unfold distance. apply sqrt_le_1_alt, IZR_le.
    now apply Hall.
Qed.

Lemma closestPairUtil_any_tie_order_witness :
  let points := [mkPoint 0 0; mkPoint 3 0; mkPoint 0 4; mkPoint 5 4] in
  is_min_dist points
    (sqrt (IZR (closestPairUtil (std_sort Point_lt points)
                  [mkPoint 3 0; mkPoint 0 0; mkPoint 5 4; mkPoint 0 4]))).
Proof.
  intros points.
  apply (closestPairUtil_any_tie_order points).
  - repeat constructor; cbn [x y]; lia.
  - simpl. lia.
  - unfold points.
    apply (Permutation_trans (perm_swap _ _ _)). do 2 apply perm_skip.
    apply perm_swap.
  - repeat constructor; unfold yle; cbn [y]; lia.
Defined.

(** X13: on a strip sorted by [y], with coordinates in [[-2^30, 2^30)],
    the early exit of the inner loop loses nothing: [stripClosest]
    returns the smaller of [d] and the smallest squared distance between
    two points of the strip. *)
Theorem stripClosest_is_min (strip : list Point) (d : Z) :
  Forall in_range strip -> StronglySorted yle strip ->
  stripClosest strip d <= d
  /\ (forall p q, In (p, q) (all_pairs strip) ->
        stripClosest strip d <= exact_distSq p q)
  /\ (stripClosest strip d = d
      \/ exists p q, In (p, q) (all_pairs strip)
                     /\ stripClosest strip d = exact_distSq p q).
Proof.
  intros Hrange Hsorted. split; [apply stripClosest_le | split].
  - intros p q Hpq. now apply stripClosest_all.
  - destruct (stripClosest_attained strip d) as [H | (p & q & Hpq & H)];
      [now left | right].
    exists p, q. split; [assumption |]. rewrite H.
    destruct (all_pairs_in _ _ _ Hpq) as [Hp Hq].
    rewrite Forall_forall in Hrange. apply distSq_exact; auto.
Qed.

Lemma stripClosest_is_min_witness :
  stripClosest [mkPoint 0 0; mkPoint 9 1; mkPoint 1 2] 100 <= 100.
Proof.
  apply (stripClosest_is_min [mkPoint 0 0; mkPoint 9 1; mkPoint 1 2] 100).
  - repeat constructor; cbn [x y]; lia.
  - repeat constructor; unfold yle; cbn [y]; lia.
Defined.

Lemma zero_distance (p q : Point) : exact_distSq p q = 0 -> p = q.
Proof.
  unfold exact_distSq. intros E.
  pose proof (Z.square_nonneg (p.(x) - q.(x))).
  pose proof (Z.square_nonneg (p.(y) - q.(y))).
  assert (Ex : (p.(x) - q.(x)) * (p.(x) - q.(x)) = 0) by lia.
  assert (Ey : (p.(y) - q.(y)) * (p.(y) - q.(y)) = 0) by lia.
  apply Z.mul_eq_0 in Ex, Ey. apply Point_eq; lia.
Qed.

(** X14: for coordinates in [[-2^30, 2^30)], [closestPair] returns 0
    exactly when two positions of the input hold the same point. *)
Theorem closestPair_zero_iff_repeat (points : list Point) :
  Forall in_range points -> (2 <= length points)%nat ->
  (closestPair points = 0%R <-> exists p, In (p, p) (all_pairs points)).
Proof.
  intros Hrange Hlen.
  unfold closestPair, closestPair_run.
  destruct (Nat.ltb_spec (length points) 2) as [H | _]; [lia |]. cbn [fst].
  destruct (closestPairUtil_min points (std_sort sortByY points) Hrange Hlen)
    as [(p & q & Hpq & Heq) Hall];
    [apply std_sort_perm | apply sort_y_sorted |].
  set (r := closestPairUtil _ _) in *.
  assert (Hr : 0 <= r) by (rewrite Heq; apply exact_distSq_nonneg).
  split.
  - intros H0. exists p.
    apply sqrt_eq_0 in H0; [| now apply IZR_le].
    apply eq_IZR in H0. rewrite H0 in Heq. symmetry in Heq.
    apply zero_distance in Heq. now subst q.
  - intros (v & Hv). specialize (Hall v v Hv).
    assert (E : exact_distSq v v = 0)
      by (unfold exact_distSq; rewrite !Z.sub_diag; reflexivity).
    assert (r = 0) as -> by lia. apply sqrt_0.
Qed.

Lemma closestPair_zero_iff_repeat_witness :
  closestPair [mkPoint 1 2; mkPoint 5 5; mkPoint 1 2] = 0%R
  <-> exists p, In (p, p) (all_pairs [mkPoint 1 2; mkPoint 5 5; mkPoint 1 2]).
Proof.
  apply closestPair_zero_iff_repeat.
  - repeat constructor; cbn [x y]; lia.
  - simpl. lia.
Defined.

(** ** Polygon area *)

Lemma within_cons (B : Z) (a : Point) (l : list Point) :
  Forall (within B) (l ++ [a]) -> Forall (within B) (a :: l).
Proof.
  rewrite !Forall_forall. intros H p Hp. apply H.
  apply in_or_app. destruct Hp as [<- | Hp]; [right; now left | now left].
Qed.

(** X16: where no partial sum can leave the 64 bits of the significand,
    the area is half the absolute value of the sum of the doubled signed
    areas of the triangles that the first vertex makes with each edge. *)
Theorem polygonArea_fan (v0 : Point) (rest : list Point) (B : Z) :
  Forall (within B) (v0 :: rest) ->
  2 * Z.of_nat (length (v0 :: rest)) * (B * B) <= 2 ^ 64 ->
  (2 <= length rest)%nat ->
  polygonArea (v0 :: rest) = (Rabs (IZR (fan_sum v0 rest)) / 2)%R.
Proof.
  intros Hin Hfit Hlen. unfold polygonArea. cbv zeta.
  destruct (Nat.ltb_spec (length (v0 :: rest)) 3) as [H | _];
    [simpl in H; lia |].
  now rewrite (shoelace_exact _ B Hin Hfit), exact_shoelace_fan.
Qed.

Lemma polygonArea_fan_witness :
  let a := mkPoint 0 0 in
  let b := mkPoint 4 0 in
  let c := mkPoint 0 3 in
  polygonArea [a; b; c] = (Rabs (IZR (fan_sum a [b; c])) / 2)%R.
Proof.
  intros a b c. apply (polygonArea_fan a [b; c] 4).
  - repeat (apply Forall_cons; [split; vm_compute; discriminate |]).
    apply Forall_nil.
  - vm_compute. discriminate.
  - simpl. lia.
Defined.

(** X17: where no partial sum can leave the significand, before and
    after, moving every vertex by the same vector leaves the area as it
    was. *)
Theorem polygonArea_translation (d : Point) (polygon : list Point) (B : Z) :
  Forall (within B) polygon ->
  Forall (within B) (map (translate d) polygon) ->
  2 * Z.of_nat (length polygon) * (B * B) <= 2 ^ 64 ->
  polygonArea (map (translate d) polygon) = polygonArea polygon.
Proof.
  intros Hin Hin' Hfit. unfold polygonArea. cbv zeta. rewrite length_map.
  rewrite (shoelace_exact _ B Hin') by (now rewrite length_map).
  now rewrite (shoelace_exact _ B Hin Hfit), exact_shoelace_translate.
Qed.

Lemma polygonArea_translation_witness :
  let square := [mkPoint 0 0; mkPoint 4 0; mkPoint 4 4; mkPoint 0 4] in
  polygonArea (map (translate (mkPoint 10 (-20))) square) = polygonArea square.
Proof.
  intros square. apply (polygonArea_translation _ square 20).
  - repeat (apply Forall_cons; [split; vm_compute; discriminate |]).
    apply Forall_nil.
  - repeat (apply Forall_cons; [split; vm_compute; discriminate |]).
    apply Forall_nil.
  - vm_compute. discriminate.
Defined.

(** X18: where no partial sum can leave the significand, the area does
    not depend on the vertex the list starts with. *)
Theorem polygonArea_start_vertex (a : Point) (l : list Point) (B : Z) :
  Forall (within B) (l ++ [a]) ->
  2 * Z.of_nat (length (l ++ [a])) * (B * B) <= 2 ^ 64 ->
  polygonArea (l ++ [a]) = polygonArea (a :: l).
Proof.
  intros Hin Hfit. unfold polygonArea. cbv zeta.
  assert (Hl : length (l ++ [a]) = length (a :: l))
    by (rewrite length_app; simpl; lia).
  rewrite (shoelace_exact _ B Hin Hfit).
  rewrite (shoelace_exact _ B (within_cons B a l Hin)) by (now rewrite <- Hl).
  now rewrite Hl, exact_shoelace_rotate.
Qed.

Lemma polygonArea_start_vertex_witness :
  polygonArea ([mkPoint 4 0; mkPoint 4 4; mkPoint 0 4] ++ [mkPoint 0 0])
  = polygonArea [mkPoint 0 0; mkPoint 4 0; mkPoint 4 4; mkPoint 0 4].
Proof.
  apply (polygonArea_start_vertex _ _ 4).
  - repeat (apply Forall_cons; [split; vm_compute; discriminate |]).
    apply Forall_nil.
  - vm_compute. discriminate.
Defined.

(** ** Point in polygon *)

(** X19: where the coordinates of the vertices, of [p] and of the far end
    of the ray differ by values of [T]: when no edge has a point in common
    with the segment from [p] to [(max, p.y)], [isInside] answers
    [false]. *)
Theorem isInside_ray_misses (polygon : list Point) (p : Point) :
  close (mkPoint IntT.maxT p.(y) :: p :: polygon) ->
  (forall i, (i < length polygon)%nat ->
     ~ segments_meet (at_ polygon i) (at_ polygon ((i + 1) mod length polygon))
         p (mkPoint IntT.maxT p.(y))) ->
  isInside polygon p = false.
Proof. intros Hc Hmiss. now apply isInside_no_meeting. Qed.

(** X20: under the same condition on the coordinates, a point strictly
    above all the vertices, strictly below them all, or strictly to the
    right of them all is reported outside. *)
Theorem isInside_beyond_vertices (polygon : list Point) (p : Point) :
  close (mkPoint IntT.maxT p.(y) :: p :: polygon) ->
  p.(x) <= IntT.maxT ->
  Forall (fun v => v.(y) < p.(y)) polygon
  \/ Forall (fun v => p.(y) < v.(y)) polygon
  \/ Forall (fun v => v.(x) < p.(x)) polygon ->
  isInside polygon p = false.
Proof.
  intros Hc Hp Hside. apply isInside_no_meeting; [assumption |].
  intros i Hi.
  assert (Hj : ((i + 1) mod length polygon < length polygon)%nat)
    by (apply Nat.mod_upper_bound; lia).
  assert (Ha : In (at_ polygon i) polygon) by now apply nth_In.
  assert (Hb : In (at_ polygon ((i + 1) mod length polygon)) polygon)
    by now apply nth_In.
  rewrite !Forall_forall in Hside.
  destruct Hside as [H | [H | H]].
  - apply no_meeting_below; [reflexivity | now apply H ..].
  - apply no_meeting_above; [reflexivity | now apply H ..].
  - apply no_meeting_behind; [exact Hp | now apply H ..].
Qed.

Lemma isInside_beyond_vertices_witness :
  isInside [mkPoint 1 1; mkPoint 5 1; mkPoint 3 4] (mkPoint 3 7) = false.
Proof.
  apply isInside_beyond_vertices.
  - intros a b Ha Hb. unfold near, IntT.maxT.
    simpl in Ha, Hb.
    destruct Ha as [<- | [<- | [<- | [<- | [<- | []]]]]];
      destruct Hb as [<- | [<- | [<- | [<- | [<- | []]]]]];
      cbn [x y]; unfold IntT.maxT; lia.
  - vm_compute. discriminate.
  - left. repeat (apply Forall_cons; [vm_compute; reflexivity |]).
    apply Forall_nil.
Defined.

Lemma isInside_ray_misses_witness :
  isInside [mkPoint 1 1; mkPoint 5 1; mkPoint 3 4] (mkPoint 3 7) = false.
Proof.
  apply isInside_ray_misses.
  - intros a b Ha Hb. unfold near, IntT.maxT.
    simpl in Ha, Hb.
    destruct Ha as [<- | [<- | [<- | [<- | [<- | []]]]]];
      destruct Hb as [<- | [<- | [<- | [<- | [<- | []]]]]];
      cbn [x y]; unfold IntT.maxT; lia.
  - intros i Hi. apply no_meeting_below; [reflexivity | |];
      simpl in Hi; destruct i as [| [| [| i]]]; try lia;
      vm_compute; reflexivity.
Defined.


(** X21: on a strictly convex polygon listed counter-clockwise, with
    coordinates between [0] and the largest [int] and within that
    distance of each other, [isInside] answers [true] exactly for the
    points inside or on the polygon, for every point at the height of no
    vertex. *)
Theorem isInside_convex (polygon : list Point) (p : Point) :
  convex_polygon polygon ->
  close (mkPoint IntT.maxT p.(y) :: p :: polygon) ->
  p.(x) <= IntT.maxT ->
  Forall (fun v => v.(x) <= IntT.maxT) polygon ->
  Forall (fun v => v.(y) <> p.(y)) polygon ->
  isInside polygon p = true <-> inside_or_on polygon p.
Proof. intros H. exact (isInside_convex_polygon polygon H p). Qed.

Lemma isInside_convex_witness :
  isInside [mkPoint 0 0; mkPoint 4 0; mkPoint 0 4] (mkPoint 1 1) = true
  <-> inside_or_on [mkPoint 0 0; mkPoint 4 0; mkPoint 0 4] (mkPoint 1 1).
Proof.
  apply isInside_convex.
  - change [mkPoint 0 0; mkPoint 4 0; mkPoint 0 4]
      with (convexHull [mkPoint 0 0; mkPoint 4 0; mkPoint 0 4]).
    apply convexHull_convex_polygon.
    + unfold in_range. repeat constructor; cbn [x y]; lia.
    + simpl. lia.
    + exists (mkPoint 0 0), (mkPoint 4 0).
      split; [now left | split; [right; now left | discriminate]].
    + vm_compute. lia.
  - intros a b Ha Hb. unfold near, IntT.maxT.
    simpl in Ha, Hb.
    destruct Ha as [<- | [<- | [<- | [<- | [<- | []]]]]];
      destruct Hb as [<- | [<- | [<- | [<- | [<- | []]]]]];
      cbn [x y]; unfold IntT.maxT; lia.
  - vm_compute. discriminate.
  - repeat (apply Forall_cons; [vm_compute; discriminate |]).
    apply Forall_nil.
  - repeat (apply Forall_cons; [cbn [x y]; lia |]).
    apply Forall_nil.
Defined.

(** X22: [isInside] on the result of [convexHull]: for points with
    coordinates in [[0, 2^30)] whose hull has three or more vertices,
    [isInside] answers [true] exactly for the points inside or on the
    hull, for every point at the height of no vertex of the hull. *)
Theorem isInside_convexHull (points : list Point) (p : Point) :
  Forall in_range points -> Forall (fun v => 0 <= v.(x)) points ->
  in_range p -> 0 <= p.(x) ->
  (3 <= length (convexHull points))%nat ->
  Forall (fun v => v.(y) <> p.(y)) (convexHull points) ->
  isInside (convexHull points) p = true <-> inside_or_on (convexHull points) p.
Proof. exact (isInside_hull points p). Qed.

Lemma isInside_convexHull_witness :
  let points := [mkPoint 1 1; mkPoint 0 4; mkPoint 4 0; mkPoint 0 0] in
  isInside (convexHull points) (mkPoint 2 1) = true
  <-> inside_or_on (convexHull points) (mkPoint 2 1).
Proof.
  intros points. apply isInside_convexHull.
  - unfold points, in_range. repeat constructor; cbn [x y]; lia.
  - repeat (apply Forall_cons; [vm_compute; discriminate |]).
    apply Forall_nil.
  - unfold in_range. cbn [x y]. lia.
  - vm_compute. discriminate.
  - vm_compute. lia.
  - vm_compute.
    repeat (apply Forall_cons; [cbn [x y]; lia |]).
    apply Forall_nil.
Defined.

(** X23: the hull of a hull is that hull: for points with coordinates in
    [[-2^30, 2^30)], [convexHull] applied to its own result returns it
    unchanged. *)
Theorem convexHull_idempotent (points : list Point) :
  Forall in_range points ->
  convexHull (convexHull points) = convexHull points.
Proof. exact (hull_of_hull points). Qed.

Lemma convexHull_idempotent_witness :
  let points :=
    [mkPoint 2 2; mkPoint 4 4; mkPoint 0 0; mkPoint 2 0; mkPoint 0 4;
     mkPoint 4 0; mkPoint 0 0] in
  convexHull (convexHull points) = convexHull points.
Proof.
  intros points. apply convexHull_idempotent.
  unfold points, in_range. repeat constructor; cbn [x y]; lia.
Defined.

(** X24: the hull is determined by what it encloses: when the hull of
    [points] has three or more vertices, any input that has those
    vertices among its points, and all its points inside or on that
    hull, has the same hull: points inside, points on an edge and
    repeated points change nothing. *)
Theorem convexHull_determined (points others : list Point) :
  Forall in_range points -> Forall in_range others ->
  (3 <= length (convexHull points))%nat ->
  (forall v, In v (convexHull points) -> In v others) ->
  (forall q, In q others -> inside_or_on (convexHull points) q) ->
  convexHull others = convexHull points.
Proof. exact (hull_of_enclosed points others). Qed.

Lemma convexHull_determined_witness :
  let points := [mkPoint 0 4; mkPoint 0 0; mkPoint 4 0] in
  let others :=
    [mkPoint 1 1; mkPoint 4 0; mkPoint 2 2; mkPoint 0 0; mkPoint 0 4;
     mkPoint 0 0; mkPoint 2 0] in
  convexHull others = convexHull points.
Proof.
  intros points others. apply convexHull_determined.
  - unfold points, in_range. repeat constructor; cbn [x y]; lia.
  - unfold others, in_range. repeat constructor; cbn [x y]; lia.
  - vm_compute. lia.
  - intros v Hv. vm_compute in Hv. unfold others.
    destruct Hv as [<- | [<- | [<- | []]]]; simpl; auto 10.
  - intros q Hq i Hi. vm_compute in Hi. unfold others in Hq.
    destruct Hq as [<- | [<- | [<- | [<- | [<- | [<- | [<- | []]]]]]]];
      destruct i as [| [| [| i]]]; try lia; vm_compute; discriminate.
Defined.
(** ** Where the code leaves its contract *)

(** *** Differences formed in [T] *)

(** [orientation] and [distSq] subtract the coordinates in [T] and convert
    the difference to [long double] afterwards; [cross_prod] is computed
    from differences stored in a [Point<T>].  Two coordinates more than
    [2^31 - 1] apart give a difference that is not the exact one. *)

(** C7: on three points with coordinates of type [int], [orientation]
    answers clockwise where the exact cross product is negative
    (counter-clockwise). *)
Theorem orientation_not_exact :
  let p := mkPoint (-2000000000) 0 in
  let q := mkPoint 2000000000 1 in
  let r := mkPoint 2000000001 3 in
  orientation_val p q r = 589934593
  /\ exact_val p q r = -7999999999
  /\ orientation p q r = 1
  /\ exact_orientation p q r = 2.
Proof. vm_compute. repeat split. Qed.

Lemma sqrt_IZR_square (z : Z) : 0 <= z -> sqrt (IZR (z * z)) = IZR z.
Proof.
  intros Hz. rewrite mult_IZR. apply sqrt_square. now apply IZR_le.
Qed.

(** C2: for two points [4000000000] apart, [closestPair] returns
    [294967296]. *)
Theorem closestPair_wraps :
  let a := mkPoint (-2000000000) 0 in
  let b := mkPoint 2000000000 0 in
  closestPair [a; b] = 294967296%R /\ distance a b = 4000000000%R.
Proof.
  intros a b. split.
  - unfold closestPair, closestPair_run. cbn [length Nat.ltb Nat.leb fst].
    replace (closestPairUtil (std_sort Point_lt [a; b]) (std_sort sortByY [a; b]))
      with (294967296 * 294967296) by (vm_compute; reflexivity).
    apply sqrt_IZR_square. lia.
  - unfold distance.
    replace (exact_distSq a b) with (4000000000 * 4000000000)
      by (vm_compute; reflexivity).
    apply sqrt_IZR_square. lia.
Qed.

(** C4: for the same two points, which are their own hull,
    [polygonDiameter] returns [294967296]. *)
Theorem polygonDiameter_wraps :
  let a := mkPoint (-2000000000) 0 in
  let b := mkPoint 2000000000 0 in
  convexHull [a; b] = [a; b]
  /\ polygonDiameter 2 [a; b] = Some 294967296%R
  /\ distance a b = 4000000000%R.
Proof.
  intros a b. split; [reflexivity | split].
  - unfold polygonDiameter, polygonDiameter_run, convexHull_run, diameterSq.
    cbn [length Nat.ltb Nat.leb Nat.eqb fst option_map].
    replace (distSq (at_ [a; b] 0) (at_ [a; b] 1))
      with (294967296 * 294967296) by (vm_compute; reflexivity).
    f_equal. apply sqrt_IZR_square. lia.
  - unfold distance.
    replace (exact_distSq a b) with (4000000000 * 4000000000)
      by (vm_compute; reflexivity).
    apply sqrt_IZR_square. lia.
Qed.

(** C1: of four input points, [convexHull] returns three, listed
    clockwise, and the fourth lies outside their triangle: it is strictly
    on the other side of the edge [b c] from the vertex [a]. *)
Theorem convexHull_drops_outer_point :
  let a := mkPoint (-2000000000) 0 in
  let b := mkPoint 2000000000 1 in
  let c := mkPoint 1000000000 (-5) in
  let p := mkPoint 2000000000 0 in
  convexHull [a; c; p; b] = [a; b; c]
  /\ left_of a b c < 0
  /\ left_of b c a < 0
  /\ 0 < left_of b c p.
Proof. repeat split; vm_compute; reflexivity. Qed.

(** *** Missed cases *)

(** C5: three copies of one point give a hull with that point twice. *)
Theorem convexHull_repeats_point :
  let a := mkPoint 0 0 in
  convexHull [a; a; a] = [a; a] /\ ~ NoDup (convexHull [a; a; a]).
Proof.
  intros a. split; [reflexivity |].
  change (convexHull [a; a; a]) with [a; a].
  intros H. inversion H as [| ? ? Hin _]; subst. apply Hin. now left.
Qed.

(** C3: the centre of a diamond, strictly inside it, is reported outside:
    the ray towards [extreme] leaves through the vertex [(10, 5)], and both
    edges that meet there are counted. *)
Theorem isInside_misses_centre :
  let diamond := [mkPoint 0 5; mkPoint 5 0; mkPoint 10 5; mkPoint 5 10] in
  let p := mkPoint 5 5 in
  isInside diamond p = false /\ strictly_inside diamond p.
Proof.
  intros diamond p. split; [reflexivity |].
  intros i Hi. simpl in Hi.
  destruct i as [| [| [| [| i]]]]; try (vm_compute; reflexivity). lia.
Qed.


(** *** Sums that leave the significand *)

(** C9: the right triangle on three corners of the range of [int], listed
    counter-clockwise.  In the order given no partial sum reaches [2^64]
    and the sum is exact; in the opposite order the fifth partial sum has
    65 bits and is rounded, and the area comes out half a unit smaller. *)
Theorem polygonArea_rev_rounds :
  let a := mkPoint (-2147483648) (-2147483648) in
  let b := mkPoint 2147483647 (-2147483648) in
  let c := mkPoint 2147483647 2147483647 in
  0 < left_of a b c
  /\ shoelace [a; b; c] = 18446744065119617025
  /\ shoelace [c; b; a] = - 18446744065119617024
  /\ polygonArea (rev [a; b; c]) <> polygonArea [a; b; c].
Proof.
  intros a b c.
  assert (Ef : shoelace [a; b; c] = 18446744065119617025)
    by (vm_compute; reflexivity).
  assert (Er : shoelace [c; b; a] = - 18446744065119617024)
    by (vm_compute; reflexivity).
  repeat split; try assumption.
  change (rev [a; b; c]) with [c; b; a].
  unfold polygonArea. cbn [length Nat.ltb Nat.leb]. rewrite Ef, Er.
  rewrite !Rabs_Zabs. cbn [Z.abs Z.opp]. intros H.
  assert (E : IZR 18446744065119617024 = IZR 18446744065119617025) by lra.
  apply eq_IZR in E. discriminate E.
Qed.
